(** * MyLang compiler: tokenizer, parser and C code generator

    A shallow embedding of [src/compiler/lexer.py], [src/compiler/parser.py],
    [src/compiler/codegen_c.py] and the front end of
    [src/compiler/native_compiler.py], with the properties the
    specification states about them and further properties of the code.

    Conventions.
    - Python [str] is [string]; source text is a list of characters with
      code points 0..255, on which the regular-expression class [\d] is
      exactly [0-9].
    - A Python exception the code itself can cause is a [Raise] result.
      The limits of the interpreter (the recursion limit, the digit limit
      of [str] on an [int]) are not modelled: a result [Ok] or [Done] is
      what a method returns when it stays within them, and theorems about
      the generator say what is emitted, not that the interpreter gets
      there.
    - A Python [float] is represented by the text [str()] gives for it.
    - The built-ins [int], [float] and the [unicode_escape] codec, which
      the parser applies to lexemes, are parameters ([Parser.Builtins]).
    - The recursive methods of the parser take fuel; [ParserFacts] and
      [StatementFacts] show that fuel linear in the number of tokens is
      always enough and that more fuel never changes an answer. *)

From Stdlib Require Import ZArith List String Ascii Bool Lia Arith DecimalString.
Import ListNotations.
Open Scope string_scope.

#[local] Set Warnings "-register-all".

(** ** Characters that cannot be written inside a string literal *)

Definition DQ : string := String "034"%char EmptyString.
Definition BS : string := String "092"%char EmptyString.
Definition NL : string := String "010"%char EmptyString.

(** ** ast_nodes.py *)

Module Ast.

(** The value held by a [Literal]: what the parser stores there. *)
Inductive value : Type :=
| VInt (z : Z)
| VFloat (repr : string)
| VStr (s : string)
| VBool (b : bool).

(** [OtherExpr] stands for an object that is an instance of none of the six
    expression classes (Python does not check the field types). *)
Inductive expr : Type :=
| BinaryExpr (left : expr) (op : string) (right : expr)
| UnaryExpr (op : string) (operand : expr)
| Literal (v : value)
| VarRef (name : string)
| AssignExpr (name : string) (val : expr)
| FuncCall (name : string) (args : list expr)
| OtherExpr.

(** [OtherStmt] stands for an object that is an instance of none of the six
    statement classes. *)
Inductive stmt : Type :=
| VarDecl (vtype : string) (names : list (string * option expr))
| ExprStmt (e : expr)
| IfStmt (cond : expr) (then_block : list stmt) (else_block : option (list stmt))
| WhileStmt (cond : expr) (body : list stmt)
| ForStmt (init : option stmt) (cond : option expr) (post : option expr)
          (body : list stmt)
| ReturnStmt (e : option expr)
| OtherStmt.

Record func_decl : Type := FuncDecl {
  return_type : string;
  name : string;
  params : list (string * string);
  body : list stmt
}.

Record program : Type := Program { funcs : list func_decl }.

(** Nodes of the known variants only. *)
Fixpoint known_expr (e : expr) : bool :=
  match e with
  | BinaryExpr l _ r => known_expr l && known_expr r
  | UnaryExpr _ x => known_expr x
  | Literal _ => true
  | VarRef _ => true
  | AssignExpr _ v => known_expr v
  | FuncCall _ args => forallb known_expr args
  | OtherExpr => false
  end.

Definition known_opt_expr (o : option expr) : bool :=
  match o with Some e => known_expr e | None => true end.

Definition known_declarator (d : string * option expr) : bool :=
  known_opt_expr (snd d).

Fixpoint known_stmt (s : stmt) : bool :=
  match s with
  | VarDecl _ names => forallb known_declarator names
  | ExprStmt e => known_expr e
  | IfStmt c t e =>
      known_expr c && forallb known_stmt t &&
      match e with Some b => forallb known_stmt b | None => true end
  | WhileStmt c b => known_expr c && forallb known_stmt b
  | ForStmt i c p b =>
      match i with Some s' => known_stmt s' | None => true end &&
      known_opt_expr c && known_opt_expr p && forallb known_stmt b
  | ReturnStmt e => known_opt_expr e
  | OtherStmt => false
  end.

Definition known_func (f : func_decl) : bool := forallb known_stmt (body f).

Definition known_program (p : program) : bool := forallb known_func (funcs p).

End Ast.

(** ** codegen_c.py *)

Module CodegenC.
Import Ast.

(** The only exception the generator's own operations can raise:
    [None + str], or a [None] item handed to [str.join]. *)
Inductive exn : Type := TypeError.

Inductive result (A : Type) : Type :=
| Ok (a : A)
| Raise (e : exn).
Arguments Ok {A} a.
Arguments Raise {A} e.

(** What [gen_expr] returns: a [str], or [None] when no branch is taken. *)
Inductive pyval : Type :=
| PNone
| PStr (s : string).

(** Interpolation in an f-string. *)
Definition fstr (v : pyval) : string :=
  match v with PNone => "None" | PStr s => s end.

(** [self.out_lines] and [self.indent_level]. *)
Record gen_state : Type := GenState {
  out_lines : list string;
  indent_level : Z
}.

Definition gen (A : Type) : Type := gen_state -> result (A * gen_state).

Definition ret {A} (a : A) : gen A := fun st => Ok (a, st).

Definition bind {A B} (m : gen A) (k : A -> gen B) : gen B :=
  fun st => match m st with
            | Ok (a, st') => k a st'
            | Raise e => Raise e
            end.

Definition lift {A} (r : result A) : gen A :=
  fun st => match r with Ok a => Ok (a, st) | Raise e => Raise e end.

Declare Scope gen_scope.
Delimit Scope gen_scope with gen.
Notation "x <- m ;; k" := (bind m (fun x => k))
  (at level 61, m at next level, right associativity) : gen_scope.
Notation "m ;; k" := (bind m (fun _ => k))
  (at level 61, right associativity) : gen_scope.
Open Scope gen_scope.

Definition rbind {A B} (r : result A) (k : A -> result B) : result B :=
  match r with Ok a => k a | Raise e => Raise e end.

(** [s * n] on strings; empty for [n <= 0]. *)
Fixpoint str_repeat (s : string) (n : nat) : string :=
  match n with O => EmptyString | S n' => s ++ str_repeat s n' end.

Definition indent (lvl : Z) (line : string) : string :=
  str_repeat "    " (Z.to_nat lvl) ++ line.

Definition emit (line : string) : gen unit :=
  fun st => Ok (tt, {| out_lines := out_lines st ++ [indent (indent_level st) line];
                       indent_level := indent_level st |}).

Definition indent_incr : gen unit :=
  fun st => Ok (tt, {| out_lines := out_lines st;
                       indent_level := indent_level st + 1 |}).

Definition indent_decr : gen unit :=
  fun st => Ok (tt, {| out_lines := out_lines st;
                       indent_level := indent_level st - 1 |}).

(** A [for] loop over a list, run for its effects. *)
Definition for_each {A} (f : A -> gen unit) : list A -> gen unit :=
  fix go (l : list A) : gen unit :=
    match l with
    | [] => ret tt
    | x :: l' => f x ;; go l'
    end.

Definition map_type (typ : string) : string :=
  if typ =? "int" then "int"
  else if typ =? "float" then "double"
  else if typ =? "string" then "char*"
  else if typ =? "bool" then "bool"
  else if typ =? "void" then "void"
  else "int".

(** [str.replace(c, by)] for a one-character pattern. *)
Fixpoint replace_char (c : ascii) (by_ : string) (s : string) : string :=
  match s with
  | EmptyString => EmptyString
  | String a s' =>
      if Ascii.eqb a c then by_ ++ replace_char c by_ s'
      else String a (replace_char c by_ s')
  end.

Definition escape_c (s : string) : string :=
  replace_char "010" (BS ++ "n")
    (replace_char "034" (BS ++ DQ)
       (replace_char "092" (BS ++ BS) s)).

(** [str(n)] for an [int]. *)
Definition str_int (z : Z) : string := NilEmpty.string_of_int (Z.to_int z).

Definition printf (fmt arg : string) : string :=
  "printf(" ++ DQ ++ fmt ++ "\n" ++ DQ ++ ", " ++ arg ++ ")".

(** A generator expression [f(a) for a in l], evaluated left to right. *)
Definition map_result {A B} (f : A -> result B) : list A -> result (list B) :=
  fix go (l : list A) : result (list B) :=
    match l with
    | [] => Ok []
    | a :: l' => rbind (f a) (fun b => rbind (go l') (fun bs => Ok (b :: bs)))
    end.

(** [sep.join(items)] where the items come from [gen_expr]: a [None] item
    makes [join] raise. *)
Fixpoint strs_of (vs : list pyval) : result (list string) :=
  match vs with
  | [] => Ok []
  | PNone :: _ => Raise TypeError
  | PStr s :: vs' => rbind (strs_of vs') (fun l => Ok (s :: l))
  end.

Fixpoint gen_expr (e : expr) : result pyval :=
  match e with
  | Literal (VStr s) => Ok (PStr (DQ ++ escape_c s ++ DQ))
  | Literal (VBool b) => Ok (PStr (if b then "true" else "false"))
  | Literal (VInt z) => Ok (PStr (str_int z))
  | Literal (VFloat r) => Ok (PStr r)
  | VarRef name => Ok (PStr name)
  | AssignExpr name val =>
      rbind (gen_expr val) (fun v => Ok (PStr (name ++ " = " ++ fstr v)))
  | BinaryExpr l op r =>
      rbind (gen_expr l) (fun left =>
      rbind (gen_expr r) (fun right =>
      Ok (PStr ("(" ++ fstr left ++ " " ++ op ++ " " ++ fstr right ++ ")"))))
  | UnaryExpr op x =>
      rbind (gen_expr x) (fun v => Ok (PStr ("(" ++ op ++ fstr v ++ ")")))
  | FuncCall name args =>
      if name =? "print" then
        match args with
        | [] => Ok (PStr ("printf(" ++ DQ ++ "\n" ++ DQ ++ ")"))
        | arg :: _ =>
            rbind (gen_expr arg) (fun arg_str =>
            match arg with
            | Literal (VStr _) => Ok (PStr (printf "%s" (fstr arg_str)))
            | Literal (VFloat _) => Ok (PStr (printf "%f" (fstr arg_str)))
            | Literal (VBool _) =>
                Ok (PStr (printf "%s" (fstr arg_str ++ " ? " ++ DQ ++ "true" ++ DQ
                                         ++ " : " ++ DQ ++ "false" ++ DQ)))
            | Literal (VInt _) => Ok (PStr (printf "%d" (fstr arg_str)))
            | _ => Ok (PStr (printf "%d" (fstr arg_str)))
            end)
        end
      else if name =? "input" then Ok (PStr "getchar()")
      else
        rbind (map_result gen_expr args) (fun vs =>
        rbind (strs_of vs) (fun strs =>
        Ok (PStr (name ++ "(" ++ String.concat ", " strs ++ ")"))))
  | OtherExpr => Ok PNone
  end.

(** [a + b] where [a] comes from [gen_expr] and [b] is a [str]. *)
Definition str_add (a : pyval) (b : string) : result string :=
  match a with PStr s => Ok (s ++ b) | PNone => Raise TypeError end.

(** The loop of the [for] lowering over the declarators of the init clause:
    one declaration line each, the initializers collected in [init_vars]. *)
Fixpoint hoist_decls (c_type : string) (names : list (string * option expr))
    (init_vars : list string) : gen (list string) :=
  match names with
  | [] => ret init_vars
  | (name, init_expr) :: rest =>
      emit (c_type ++ " " ++ name ++ ";") ;;
      match init_expr with
      | Some e =>
          v <- lift (gen_expr e) ;;
          hoist_decls c_type rest (init_vars ++ [name ++ " = " ++ fstr v])
      | None => hoist_decls c_type rest init_vars
      end
  end.

Definition gen_opt_expr (o : option expr) (dflt : string) : result pyval :=
  match o with Some e => gen_expr e | None => Ok (PStr dflt) end.

Definition for_header (init_str cond_str post_str : string) : string :=
  "for (" ++ init_str ++ "; " ++ cond_str ++ "; " ++ post_str ++ ") {".

Fixpoint gen_stmt (s : stmt) : gen unit :=
  match s with
  | VarDecl vtype names =>
      let c_type := map_type vtype in
      for_each (fun d : string * option expr =>
        match snd d with
        | None => emit (c_type ++ " " ++ fst d ++ ";")
        | Some init =>
            e <- lift (gen_expr init) ;;
            emit (c_type ++ " " ++ fst d ++ " = " ++ fstr e ++ ";")
        end) names
  | ExprStmt e =>
      line <- lift (rbind (gen_expr e) (fun v => str_add v ";")) ;;
      emit line
  | IfStmt c then_block else_block =>
      cond <- lift (gen_expr c) ;;
      emit ("if (" ++ fstr cond ++ ") {") ;;
      indent_incr ;;
      for_each gen_stmt then_block ;;
      indent_decr ;;
      match else_block with
      | Some b =>
          emit "} else {" ;;
          indent_incr ;;
          for_each gen_stmt b ;;
          indent_decr
      | None => ret tt
      end ;;
      emit "}"
  | WhileStmt c body =>
      cond <- lift (gen_expr c) ;;
      emit ("while (" ++ fstr cond ++ ") {") ;;
      indent_incr ;;
      for_each gen_stmt body ;;
      indent_decr ;;
      emit "}"
  | ForStmt init c post body =>
      init_vars <-
        match init with
        | Some (VarDecl vtype names) => hoist_decls (map_type vtype) names []
        | _ => ret []
        end ;;
      init_str <-
        match init_vars, init with
        | _ :: _, _ => ret (PStr (String.concat "; " init_vars))
        | [], Some (ExprStmt e) => lift (gen_expr e)
        | [], _ => ret (PStr EmptyString)
        end ;;
      cond_str <- lift (gen_opt_expr c "1") ;;
      post_str <- lift (gen_opt_expr post EmptyString) ;;
      emit (for_header (fstr init_str) (fstr cond_str) (fstr post_str)) ;;
      indent_incr ;;
      for_each gen_stmt body ;;
      indent_decr ;;
      emit "}"
  | ReturnStmt None => emit "return;"
  | ReturnStmt (Some e) =>
      v <- lift (gen_expr e) ;;
      emit ("return " ++ fstr v ++ ";")
  | OtherStmt => ret tt
  end.

(** The parameter list of a signature: [f.params] is falsy when empty. *)
Definition gen_params (ps : list (string * string)) : string :=
  match ps with
  | [] => "void"
  | _ :: _ =>
      String.concat ", " (map (fun p => map_type (fst p) ++ " " ++ snd p) ps)
  end.

Definition signature (f : func_decl) : string :=
  map_type (return_type f) ++ " " ++ name f ++ "(" ++ gen_params (params f) ++ ")".

Definition is_return (s : stmt) : bool :=
  match s with ReturnStmt _ => true | _ => false end.

Definition gen_function (f : func_decl) : gen unit :=
  emit (signature f ++ " {") ;;
  indent_incr ;;
  for_each gen_stmt (body f) ;;
  (if negb (return_type f =? "void") && negb (existsb is_return (body f))
   then emit "return 0;" else ret tt) ;;
  indent_decr ;;
  emit "}".

Definition generate (p : program) : gen string :=
  emit "#include <stdio.h>" ;;
  emit "#include <stdlib.h>" ;;
  emit "#include <string.h>" ;;
  emit "#include <stdbool.h>" ;;
  emit EmptyString ;;
  for_each (fun f => emit (signature f ++ ";")) (funcs p) ;;
  emit EmptyString ;;
  for_each (fun f => gen_function f ;; emit EmptyString) (funcs p) ;;
  fun st => Ok (String.concat NL (out_lines st), st).

(** [CCodeGen(program).generate()]: the state [__init__] sets up, then
    [generate]. *)
Definition init_state : gen_state := {| out_lines := []; indent_level := 0 |}.

Definition compile_program (p : program) : result string :=
  match generate p init_state with
  | Ok (text, _) => Ok text
  | Raise e => Raise e
  end.

End CodegenC.

(** ** lexer.py *)

Module Lexer.

(** [Token = Tuple[str, str]]: [(type, text)]. *)
Definition token : Type := (string * string)%type.

Definition in_range (lo hi c : ascii) : bool :=
  (nat_of_ascii lo <=? nat_of_ascii c)%nat && (nat_of_ascii c <=? nat_of_ascii hi)%nat.

Definition is_newline (c : ascii) : bool := Ascii.eqb c "010".
Definition is_space (c : ascii) : bool :=
  Ascii.eqb c " " || Ascii.eqb c "009" || Ascii.eqb c "013" || Ascii.eqb c "010".
Definition is_digit (c : ascii) : bool := in_range "0" "9" c.
Definition is_id_start (c : ascii) : bool :=
  in_range "A" "Z" c || in_range "a" "z" c || Ascii.eqb c "_".
Definition is_id_char (c : ascii) : bool := is_id_start c || is_digit c.

(** The one-character alternatives of the OP rule: [[+\-*/%<>=!;(),{}]]. *)
Definition is_op_char (c : ascii) : bool :=
  existsb (Ascii.eqb c)
    ["+"; "-"; "*"; "/"; "%"; "<"; ">"; "="; "!"; ";"; "("; ")"; ","; "{"; "}"]%char.

(** The two-character alternatives of the OP rule, tried first and in this
    order: [==|!=|<=|>=|&&|\|\|]. *)
Definition is_op2 (a b : ascii) : bool :=
  existsb (fun p => Ascii.eqb a (fst p) && Ascii.eqb b (snd p))
    [("=", "="); ("!", "="); ("<", "="); (">", "="); ("&", "&"); ("|", "|")]%char.

(** A greedy character class [[...]*]: the longest prefix in the class and
    what follows it. *)
Fixpoint span (p : ascii -> bool) (s : string) : string * string :=
  match s with
  | EmptyString => (EmptyString, EmptyString)
  | String c s' =>
      if p c then let (a, b) := span p s' in (String c a, b)
      else (EmptyString, s)
  end.

(** Each rule gives the matched text and the rest, or [None]. *)

(** [//[^\n]*] *)
Definition match_comment (s : string) : option (string * string) :=
  match s with
  | String "/" (String "/" s') =>
      let (a, b) := span (fun c => negb (is_newline c)) s' in Some ("//" ++ a, b)
  | _ => None
  end.

(** [[ \t\r\n]+] *)
Definition match_whitespace (s : string) : option (string * string) :=
  match span is_space s with
  | (EmptyString, _) => None
  | (a, b) => Some (a, b)
  end.

(** [\d+(\.\d+)?] *)
Definition match_number (s : string) : option (string * string) :=
  match span is_digit s with
  | (EmptyString, _) => None
  | (ds, String "." s') =>
      match span is_digit s' with
      | (EmptyString, _) => Some (ds, String "." s')
      | (fs, rest) => Some (ds ++ "." ++ fs, rest)
      end
  | (ds, rest) => Some (ds, rest)
  end.

(** The STRING rule: a double quote, then any number of items that are
    either one character other than a double quote and a backslash, or a
    backslash followed by one character other than a newline, then a double
    quote.  [string_body] is the part after the opening quote: the body
    together with the closing quote, and the rest. *)
Fixpoint string_body (s : string) : option (string * string) :=
  match s with
  | EmptyString => None
  | String "034" rest => Some (DQ, rest)
  | String "092" EmptyString => None
  | String "092" (String c s') =>
      if is_newline c then None
      else match string_body s' with
           | Some (a, b) => Some (String "092" (String c a), b)
           | None => None
           end
  | String c s' =>
      match string_body s' with
      | Some (a, b) => Some (String c a, b)
      | None => None
      end
  end.

Definition match_string (s : string) : option (string * string) :=
  match s with
  | String "034" s' =>
      match string_body s' with
      | Some (a, b) => Some (DQ ++ a, b)
      | None => None
      end
  | _ => None
  end.

(** [[A-Za-z_][A-Za-z0-9_]*] *)
Definition match_id (s : string) : option (string * string) :=
  match s with
  | String c s' =>
      if is_id_start c then let (a, b) := span is_id_char s' in Some (String c a, b)
      else None
  | EmptyString => None
  end.

Definition match_op (s : string) : option (string * string) :=
  match s with
  | String a (String b s') =>
      if is_op2 a b then Some (String a (String b EmptyString), s')
      else if is_op_char a then Some (String a EmptyString, String b s')
      else None
  | String a EmptyString =>
      if is_op_char a then Some (String a EmptyString, EmptyString) else None
  | EmptyString => None
  end.

(** [TOKEN_SPEC], in order. *)
Definition TOKEN_SPEC : list (string * (string -> option (string * string))) :=
  [("COMMENT", match_comment); ("WHITESPACE", match_whitespace);
   ("NUMBER", match_number); ("STRING", match_string);
   ("ID", match_id); ("OP", match_op)].

(** [master_re.match]: the first alternative that matches wins; the result
    is [lastgroup], the matched text and the text from [m.end()] on. *)
Fixpoint first_match (rules : list (string * (string -> option (string * string))))
    (s : string) : option (string * string * string) :=
  match rules with
  | [] => None
  | (kind, rule) :: rules' =>
      match rule s with
      | Some (val, rest) => Some (kind, val, rest)
      | None => first_match rules' s
      end
  end.

Definition master_match (s : string) : option (string * string * string) :=
  first_match TOKEN_SPEC s.

Definition KEYWORDS : list string :=
  ["int"; "float"; "string"; "bool"; "if"; "else"; "while"; "for"; "return";
   "func"; "true"; "false"; "input"; "void"].

Definition is_keyword (s : string) : bool := existsb (String.eqb s) KEYWORDS.

(** [str.upper()], as it acts on the keywords. *)
Definition upper_char (c : ascii) : ascii :=
  if in_range "a" "z" c then ascii_of_nat (nat_of_ascii c - 32) else c.

Fixpoint upper (s : string) : string :=
  match s with
  | EmptyString => EmptyString
  | String c s' => String (upper_char c) (upper s')
  end.

(** [Unexpected pos ch] is the [SyntaxError] of [tokenize], whose message
    carries the position and the character there. *)
Inductive lex_result : Type :=
| Tokens (ts : list token)
| Unexpected (pos : nat) (ch : ascii).

(** The end of the loop body: whitespace and comments are skipped, a
    keyword gets its own upper-case type, anything else keeps its group. *)
Definition skipped_kind (kind : string) : bool :=
  (kind =? "WHITESPACE") || (kind =? "COMMENT").

Definition push_token (kind val : string) (tokens : list token) : list token :=
  if skipped_kind kind then tokens
  else if (kind =? "ID") && is_keyword val then (tokens ++ [(upper val, val)])%list
  else (tokens ++ [(kind, val)])%list.

(** The [while pos < len(text)] loop; [s] is [text[pos:]].  [None] only
    when the fuel runs out. *)
Fixpoint scan (fuel : nat) (pos : nat) (s : string) (tokens : list token)
    : option lex_result :=
  match s with
  | EmptyString => Some (Tokens (tokens ++ [("EOF", EmptyString)]))
  | String c _ =>
      match master_match s with
      | None => Some (Unexpected pos c)
      | Some (kind, val, rest) =>
          match fuel with
          | O => None
          | S fuel' =>
              scan fuel' (pos + String.length val) rest (push_token kind val tokens)
          end
      end
  end.

(** Every match is at least one character long, so the length of the text
    is fuel enough (see [tokenize_total]). *)
Definition tokenize (text : string) : option lex_result :=
  scan (String.length text) 0 text [].

(** The loop head is reached at position [pos], with [s] left to read and
    [tokens] collected so far. *)
Inductive reaches (text : string) : nat -> string -> list token -> Prop :=
| reaches_start : reaches text 0 text []
| reaches_step pos s tokens kind val rest :
    reaches text pos s tokens ->
    master_match s = Some (kind, val, rest) ->
    reaches text (pos + String.length val) rest (push_token kind val tokens).

(** [n] turns of the loop from a loop head, or fewer when no rule matches. *)
Fixpoint advance (n : nat) (pos : nat) (s : string) (tokens : list token)
    : nat * string * list token :=
  match n with
  | O => (pos, s, tokens)
  | S n' =>
      match master_match s with
      | Some (kind, val, rest) =>
          advance n' (pos + String.length val) rest (push_token kind val tokens)
      | None => (pos, s, tokens)
      end
  end.

(** A match takes [val] off the front of [s], and [val] is not empty. *)
Definition consumes (s val rest : string) : Prop :=
  s = val ++ rest /\ val <> EmptyString.

(** A character with which no rule can start. *)
Definition stray (c : ascii) : bool :=
  negb (is_space c || is_digit c || Ascii.eqb c "034" || is_id_start c ||
        is_op_char c || Ascii.eqb c "&" || Ascii.eqb c "|").

End Lexer.

(** ** parser.py: expressions and variable declarations *)

Module Parser.
Import Ast.
Export Lexer(token).

(** The Python built-ins the parser applies to a lexeme.  [None] stands for
    the exception the built-in raises on that text. *)
Class Builtins : Type := {
  (** [int(tok)] *)
  py_int : string -> option Z;
  (** [float(tok)], as the text of the resulting value *)
  py_float : string -> option string;
  (** [bytes(s, 'utf-8').decode('unicode_escape')] *)
  py_unescape : string -> option string
}.

Inductive exn : Type :=
| IndexError                                   (* tokens[pos] out of range *)
| Expected (typ : string) (got : token)        (* expect *)
| ExpectedOperator (s : string) (got : token)  (* expect_op *)
| ExpectedType (got : token)                   (* expect_type *)
| UnexpectedToken (got : token)                (* parse_primary *)
| ValueError (lexeme : string)                 (* int(), float() *)
| UnicodeError (lexeme : string).              (* decode *)

(** The outcome of a parsing method started at some [self.pos]: a value
    and the new position, an exception, or no answer within the fuel. *)
Inductive outcome (A : Type) : Type :=
| Done (a : A) (pos : nat)
| Raise (e : exn)
| OutOfFuel.
Arguments Done {A} a pos.
Arguments Raise {A} e.
Arguments OutOfFuel {A}.

(** [approx r r']: [r'] is the answer [r], or [r] ran out of fuel. *)
Definition approx {A} (r r' : outcome A) : Prop := r = OutOfFuel \/ r = r'.

Definition parser (A : Type) : Type := nat -> outcome A.

Definition ret {A} (a : A) : parser A := fun pos => Done a pos.

Definition bind {A B} (m : parser A) (k : A -> parser B) : parser B :=
  fun pos => match m pos with
             | Done a pos' => k a pos'
             | Raise e => Raise e
             | OutOfFuel => OutOfFuel
             end.

Definition raise {A} (e : exn) : parser A := fun _ => Raise e.

(** [advances k m]: when [m] returns, it has consumed at least [k] tokens. *)
Definition advances {A} (k : nat) (m : parser A) : Prop :=
  forall pos a pos', m pos = Done a pos' -> (pos + k <= pos')%nat.

Declare Scope parser_scope.
Delimit Scope parser_scope with parser.
Notation "x <- m ;; k" := (bind m (fun x => k))
  (at level 61, m at next level, right associativity) : parser_scope.
Notation "m ;; k" := (bind m (fun _ => k))
  (at level 61, right associativity) : parser_scope.
Open Scope parser_scope.

(** [Parser.PRECEDENCE] *)
Definition PRECEDENCE (op : string) : option Z :=
  if op =? "||" then Some 1%Z
  else if op =? "&&" then Some 2%Z
  else if (op =? "==") || (op =? "!=") then Some 3%Z
  else if (op =? "<") || (op =? ">") || (op =? "<=") || (op =? ">=") then Some 4%Z
  else if (op =? "+") || (op =? "-") then Some 5%Z
  else if (op =? "*") || (op =? "/") || (op =? "%") then Some 6%Z
  else None.

Definition is_unary_op (s : string) : bool :=
  (s =? "+") || (s =? "-") || (s =? "!").

Definition is_type_kind (k : string) : bool :=
  (k =? "INT") || (k =? "FLOAT") || (k =? "STRING") || (k =? "BOOL") || (k =? "VOID").

(** ['.' in tok] *)
Fixpoint has_dot (s : string) : bool :=
  match s with
  | EmptyString => false
  | String c s' => Ascii.eqb c "." || has_dot s'
  end.

Fixpoint drop_last (s : string) : string :=
  match s with
  | EmptyString => EmptyString
  | String _ EmptyString => EmptyString
  | String c s' => String c (drop_last s')
  end.

(** [s[1:-1]] *)
Definition strip_ends (s : string) : string :=
  match s with
  | EmptyString => EmptyString
  | String _ s' => drop_last s'
  end.

Section WithTokens.
Context {B : Builtins}.

(** [self.tokens]; the parser never changes it. *)
Variable tokens : list token.

Definition peek : parser token :=
  fun pos => match nth_error tokens pos with
             | Some t => Done t pos
             | None => Raise IndexError
             end.

Definition next : parser token :=
  fun pos => match nth_error tokens pos with
             | Some t => Done t (S pos)
             | None => Raise IndexError
             end.

Definition expect (typ : string) : parser token :=
  t <- next ;;
  if negb (fst t =? typ) then raise (Expected typ t) else ret t.

Definition expect_op (s : string) : parser unit :=
  t <- next ;;
  if negb (snd t =? s) then raise (ExpectedOperator s t) else ret tt.

Definition expect_type : parser token :=
  t <- peek ;;
  if is_type_kind (fst t) then next else raise (ExpectedType t).

Definition convert {A} (f : string -> option A) (e : string -> exn) (s : string)
    : parser A :=
  match f s with Some a => ret a | None => raise (e s) end.

(** [parse_expr] with the [while True] loop of its second half as
    [parse_binary], [parse_primary], and the argument loop of a call as
    [parse_args].  Every call takes one unit of fuel. *)
Fixpoint parse_expr (fuel : nat) (min_prec : Z) : parser expr :=
  match fuel with
  | O => fun _ => OutOfFuel
  | S fuel' =>
      t <- peek ;;
      left <- (if is_unary_op (snd t) then
                 op <- next ;;
                 operand <- parse_expr fuel' 7 ;;
                 ret (UnaryExpr (snd op) operand)
               else parse_primary fuel') ;;
      parse_binary fuel' min_prec left
  end

with parse_binary (fuel : nat) (min_prec : Z) (left : expr) : parser expr :=
  match fuel with
  | O => fun _ => OutOfFuel
  | S fuel' =>
      tok <- peek ;;
      let op := snd tok in
      match PRECEDENCE op with
      | None => ret left
      | Some prec =>
          if (prec <? min_prec)%Z then ret left
          else
            next ;;
            right <- parse_expr fuel' (prec + 1) ;;
            parse_binary fuel' min_prec (BinaryExpr left op right)
      end
  end

with parse_primary (fuel : nat) : parser expr :=
  match fuel with
  | O => fun _ => OutOfFuel
  | S fuel' =>
      t <- peek ;;
      if fst t =? "NUMBER" then
        tok <- next ;;
        if has_dot (snd tok) then
          v <- convert py_float ValueError (snd tok) ;; ret (Literal (VFloat v))
        else
          v <- convert py_int ValueError (snd tok) ;; ret (Literal (VInt v))
      else if fst t =? "STRING" then
        s <- next ;;
        v <- convert py_unescape UnicodeError (strip_ends (snd s)) ;;
        ret (Literal (VStr v))
      else if (fst t =? "TRUE") || (fst t =? "FALSE") then
        tok <- next ;;
        ret (Literal (VBool (fst tok =? "TRUE")))
      else if fst t =? "ID" then
        name <- next ;;
        t1 <- peek ;;
        if snd t1 =? "(" then
          next ;;
          t2 <- peek ;;
          args <- (if negb (snd t2 =? ")") then parse_args fuel' [] else ret []) ;;
          expect_op ")" ;;
          ret (FuncCall (snd name) args)
        else
          t3 <- peek ;;
          if snd t3 =? "=" then
            next ;;
            val <- parse_expr fuel' 1 ;;
            ret (AssignExpr (snd name) val)
          else ret (VarRef (snd name))
      else if snd t =? "(" then
        next ;;
        e <- parse_expr fuel' 1 ;;
        expect_op ")" ;;
        ret e
      else raise (UnexpectedToken t)
  end

with parse_args (fuel : nat) (args : list expr) : parser (list expr) :=
  match fuel with
  | O => fun _ => OutOfFuel
  | S fuel' =>
      a <- parse_expr fuel' 1 ;;
      t <- peek ;;
      if snd t =? "," then next ;; parse_args fuel' (args ++ [a])%list
      else ret (args ++ [a])%list
  end.

(** The [while True] loop of [parse_vardecl]. *)
Fixpoint vardecl_loop (fuel : nat) (names : list (string * option expr))
    : parser (list (string * option expr)) :=
  match fuel with
  | O => fun _ => OutOfFuel
  | S fuel' =>
      name <- expect "ID" ;;
      t <- peek ;;
      init <- (if snd t =? "=" then
                 next ;; e <- parse_expr fuel' 1 ;; ret (Some e)
               else ret None) ;;
      let names' := (names ++ [(snd name, init)])%list in
      t' <- peek ;;
      if snd t' =? "," then next ;; vardecl_loop fuel' names'
      else ret names'
  end.

Definition parse_vardecl (fuel : nat) : parser stmt :=
  typ <- expect_type ;;
  names <- vardecl_loop fuel [] ;;
  expect_op ";" ;;
  ret (VarDecl (snd typ) names).

(** The [while True] loop of [parse_vardecl_for]. *)
Fixpoint vardecl_for_loop (fuel : nat) (names : list (string * option expr))
    : parser (list (string * option expr)) :=
  match fuel with
  | O => fun _ => OutOfFuel
  | S fuel' =>
      name <- expect "ID" ;;
      t <- peek ;;
      init <- (if snd t =? "=" then
                 next ;; e <- parse_expr fuel' 1 ;; ret (Some e)
               else ret None) ;;
      let names' := (names ++ [(snd name, init)])%list in
      t' <- peek ;;
      if snd t' =? "," then next ;; vardecl_for_loop fuel' names'
      else ret names'
  end.

Definition parse_vardecl_for (fuel : nat) : parser stmt :=
  typ <- expect_type ;;
  names <- vardecl_for_loop fuel [] ;;
  expect_op ";" ;;
  ret (VarDecl (snd typ) names).

(** The methods as they are called: with fuel that is always enough (see
    [ParserFacts.enough_fuel] and [ParserFacts.fuel_monotone]). *)
Definition fuel_for : nat := 2 * List.length tokens + 4.

Definition run_expr (min_prec : Z) : parser expr := parse_expr fuel_for min_prec.
Definition run_binary (min_prec : Z) (left : expr) : parser expr :=
  parse_binary fuel_for min_prec left.
Definition run_primary : parser expr := parse_primary fuel_for.
Definition run_args (args : list expr) : parser (list expr) := parse_args fuel_for args.
Definition run_vardecl : parser stmt := parse_vardecl fuel_for.
Definition run_vardecl_for : parser stmt := parse_vardecl_for fuel_for.

(** The operator loop stops in front of token [t] at threshold [m]. *)
Definition stops_loop (m : Z) (t : token) : bool :=
  match PRECEDENCE (snd t) with
  | None => true
  | Some q => (q <? m)%Z
  end.

(** [chain m p pos rest pos']: from [pos] on the tokens are operators of
    precedence [p], each followed by an operand that [parse_expr(p + 1)]
    reads; [rest] lists the operators with the operands' trees; at [pos']
    stands a token at which the loop of threshold [m] stops. *)
Inductive chain (m p : Z) : nat -> list (string * expr) -> nat -> Prop :=
| chain_end pos t :
    nth_error tokens pos = Some t ->
    stops_loop m t = true ->
    chain m p pos [] pos
| chain_more pos t e pos1 rest pos2 :
    nth_error tokens pos = Some t ->
    PRECEDENCE (snd t) = Some p ->
    run_expr (p + 1) (S pos) = Done e pos1 ->
    chain m p pos1 rest pos2 ->
    chain m p pos ((snd t, e) :: rest) pos2.

(** The tree of [e0 op1 e1 ... opn en] that associates to the left. *)
Definition left_tree (e0 : expr) (rest : list (string * expr)) : expr :=
  fold_left (fun l oe => BinaryExpr l (fst oe) (snd oe)) rest e0.

End WithTokens.

(** A chain [x0 op1 x1 ... opn xn] of identifiers: the tokens after [x0]
    and the tree that associates to the left. *)
Definition chain_tokens (rest : list (string * string)) : list token :=
  flat_map (fun ox => [("OP", fst ox); ("ID", snd ox)]) rest.

Definition chain_tree (left : expr) (rest : list (string * string)) : expr :=
  fold_left (fun l ox => BinaryExpr l (fst ox) (VarRef (snd ox))) rest left.

(** A token after an identifier at which an operand parsed at level [lvl]
    ends: not an opening parenthesis, not [=], and not a binary operator
    of precedence [lvl] or more. *)
Definition ends_operand (lvl : Z) (t : token) : bool :=
  negb (snd t =? "(") && negb (snd t =? "=") &&
  match PRECEDENCE (snd t) with
  | None => true
  | Some q => (q <? lvl)%Z
  end.

(** The built-ins on the lexemes of short literals, to run the parser on
    token lists: [int] on a run of at most 4300 digits, [float] on at most
    fifteen digits around a point when the value prints back without an
    exponent, the decoding of a text of ASCII characters without a
    backslash.  Other texts are outside this instance, which answers
    [None] on them whether the built-in raises there or not; no theorem
    depends on the instance, only the examples run with it. *)
Fixpoint digits_value (s : string) (acc : Z) : option Z :=
  match s with
  | EmptyString => Some acc
  | String c s' =>
      if Lexer.is_digit c
      then digits_value s' (10 * acc + Z.of_nat (nat_of_ascii c - 48))%Z
      else None
  end.

Definition digits_int (s : string) : option Z :=
  match s with
  | EmptyString => None
  | _ => if (4300 <? String.length s)%nat then None else digits_value s 0%Z
  end.

Fixpoint no_backslash (s : string) : bool :=
  match s with
  | EmptyString => true
  | String c s' => negb (Ascii.eqb c "092") && (nat_of_ascii c <? 128)%nat && no_backslash s'
  end.

(** The text of [float(I.F)] for digit runs [I] and [F] of at most fifteen
    digits together: leading zeros of [I] and trailing zeros of [F] go. *)
Fixpoint strip_leading_zeros (s : string) : string :=
  match s with
  | String "0" (String _ _ as s') => strip_leading_zeros s'
  | _ => s
  end.

Fixpoint strip_trailing_zeros (s : string) : string :=
  match s with
  | EmptyString => EmptyString
  | String c s' =>
      match strip_trailing_zeros s' with
      | EmptyString => if Ascii.eqb c "0" then EmptyString else String c EmptyString
      | r => String c r
      end
  end.

Definition short_float (s : string) : option string :=
  match Lexer.match_number s with
  | Some (_, String _ _) => None
  | Some (_, EmptyString) =>
      let (i, rest) := Lexer.span Lexer.is_digit s in
      match rest with
      | String "." f =>
          let i' := strip_leading_zeros i in
          let f' := strip_trailing_zeros f in
          if (15 <? String.length i + String.length f)%nat then None
          else if (i' =? "0") && (String.prefix "0000" f) && negb (f' =? EmptyString)
          then None
          else Some (i' ++ "." ++ (if f' =? EmptyString then "0" else f'))
      | _ => None
      end
  | None => None
  end.

#[export] Instance lexeme_builtins : Builtins := {|
  py_int := digits_int;
  py_float := short_float;
  py_unescape := fun s => if no_backslash s then Some s else None
|}.

End Parser.

(** ** The lines a statement lowers to

    The generator threads a buffer and an indentation level through its
    methods.  The functions below give, without state, the lines each
    construct adds at a level; [CodegenFacts.gen_stmt_known] proves that
    [gen_stmt] appends exactly these and restores the level. *)

Module Lowering.
Import Ast CodegenC.

(** The text of a lowered expression. *)
Definition expr_str (e : expr) : string :=
  match gen_expr e with
  | Ok v => fstr v
  | Raise _ => EmptyString
  end.

Definition opt_expr_str (o : option expr) (dflt : string) : string :=
  match o with Some e => expr_str e | None => dflt end.

(** One declarator of a variable declaration. *)
Definition decl_line (lvl : Z) (c_type : string) (d : string * option expr) : string :=
  match snd d with
  | None => indent lvl (c_type ++ " " ++ fst d ++ ";")
  | Some init => indent lvl (c_type ++ " " ++ fst d ++ " = " ++ expr_str init ++ ";")
  end.

(** The init clause of a [for]: the declarations put before the loop and
    the assignments collected for the header. *)
Definition hoisted_line (lvl : Z) (c_type : string) (d : string * option expr) : string :=
  indent lvl (c_type ++ " " ++ fst d ++ ";").

Definition init_assignment (d : string * option expr) : list string :=
  match snd d with
  | Some e => [fst d ++ " = " ++ expr_str e]
  | None => []
  end.

Definition hoisted_lines (lvl : Z) (init : option stmt) : list string :=
  match init with
  | Some (VarDecl vtype names) => map (hoisted_line lvl (map_type vtype)) names
  | _ => []
  end.

Definition for_init_str (init : option stmt) : string :=
  match init with
  | Some (VarDecl _ names) => String.concat "; " (flat_map init_assignment names)
  | Some (ExprStmt e) => expr_str e
  | _ => EmptyString
  end.

Fixpoint stmt_lines (lvl : Z) (s : stmt) : list string :=
  match s with
  | VarDecl vtype names => map (decl_line lvl (map_type vtype)) names
  | ExprStmt e => [indent lvl (expr_str e ++ ";")]
  | IfStmt c then_block else_block =>
      [indent lvl ("if (" ++ expr_str c ++ ") {")] ++
      flat_map (stmt_lines (lvl + 1)) then_block ++
      match else_block with
      | Some b => [indent lvl "} else {"] ++ flat_map (stmt_lines (lvl + 1)) b
      | None => []
      end ++
      [indent lvl "}"]
  | WhileStmt c body =>
      [indent lvl ("while (" ++ expr_str c ++ ") {")] ++
      flat_map (stmt_lines (lvl + 1)) body ++
      [indent lvl "}"]
  | ForStmt init c post body =>
      hoisted_lines lvl init ++
      [indent lvl (for_header (for_init_str init) (opt_expr_str c "1")
                              (opt_expr_str post EmptyString))] ++
      flat_map (stmt_lines (lvl + 1)) body ++
      [indent lvl "}"]
  | ReturnStmt None => [indent lvl "return;"]
  | ReturnStmt (Some e) => [indent lvl ("return " ++ expr_str e ++ ";")]
  | OtherStmt => []
  end.

Definition block_lines (lvl : Z) (b : list stmt) : list string :=
  flat_map (stmt_lines lvl) b.

(** Whether [gen_function] adds its fallback [return 0;]. *)
Definition needs_fallback (f : func_decl) : bool :=
  negb (return_type f =? "void") && negb (existsb is_return (body f)).

Definition function_lines (lvl : Z) (f : func_decl) : list string :=
  [indent lvl (signature f ++ " {")] ++
  block_lines (lvl + 1) (body f) ++
  (if needs_fallback f then [indent (lvl + 1) "return 0;"] else []) ++
  [indent lvl "}"].

Definition INCLUDES : list string :=
  ["#include <stdio.h>"; "#include <stdlib.h>"; "#include <string.h>";
   "#include <stdbool.h>"].

(** A [return] anywhere inside a statement, nested blocks included. *)
Fixpoint contains_return (s : stmt) : bool :=
  match s with
  | ReturnStmt _ => true
  | IfStmt _ t e =>
      existsb contains_return t ||
      match e with Some b => existsb contains_return b | None => false end
  | WhileStmt _ b => existsb contains_return b
  | ForStmt _ _ _ b => existsb contains_return b
  | _ => false
  end.

Definition is_literal (e : expr) : bool :=
  match e with Literal _ => true | _ => false end.

(** The state after more lines were appended at an unchanged level. *)
Definition appended (st : gen_state) (lines : list string) : gen_state :=
  {| out_lines := out_lines st ++ lines; indent_level := indent_level st |}.

(** The lines of a whole module. *)
Definition module_lines (p : program) : list string :=
  INCLUDES ++ [EmptyString] ++
  map (fun f => signature f ++ ";") (funcs p) ++ [EmptyString] ++
  flat_map (fun f => (function_lines 0 f ++ [EmptyString])%list) (funcs p).

End Lowering.

(** ** parser.py: statements, functions and the program *)

Module Statements.
Import Ast Parser.

(** The type keywords that start a declaration statement. *)
Definition is_decl_kind (k : string) : bool :=
  (k =? "INT") || (k =? "FLOAT") || (k =? "STRING") || (k =? "BOOL").

(** [ensures P m]: whatever [m] returns satisfies [P]. *)
Definition ensures {A} (P : A -> Prop) (m : parser A) : Prop :=
  forall pos a pos', m pos = Done a pos' -> P a.

(** The statements the parser builds: nodes of the known classes, at least
    one declarator in a declaration, and as the init clause of a [for]
    nothing but a declaration or an expression statement. *)
Definition parsed_decl (names : list (string * option expr)) : bool :=
  match names with
  | [] => false
  | _ :: _ => forallb known_declarator names
  end.

Fixpoint parsed_stmt (s : stmt) : bool :=
  match s with
  | VarDecl _ names => parsed_decl names
  | ExprStmt e => known_expr e
  | IfStmt c t e =>
      known_expr c && forallb parsed_stmt t &&
      match e with Some b => forallb parsed_stmt b | None => true end
  | WhileStmt c b => known_expr c && forallb parsed_stmt b
  | ForStmt i c p b =>
      match i with
      | None => true
      | Some (VarDecl _ names) => parsed_decl names
      | Some (ExprStmt e) => known_expr e
      | Some _ => false
      end &&
      known_opt_expr c && known_opt_expr p && forallb parsed_stmt b
  | ReturnStmt e => known_opt_expr e
  | OtherStmt => false
  end.

Definition parsed_func (f : func_decl) : bool := forallb parsed_stmt (body f).

Definition parsed_program (p : program) : bool := forallb parsed_func (funcs p).

Definition all_known (l : list expr) : Prop := forallb known_expr l = true.

Definition declarators_known (l : list (string * option expr)) : Prop :=
  forallb known_declarator l = true.

Definition all_parsed (l : list stmt) : Prop := forallb parsed_stmt l = true.

(** The names of the functions called in an expression, a statement and
    a program: the [name] of every [FuncCall] node. *)
Fixpoint called_expr (e : expr) : list string :=
  match e with
  | BinaryExpr l _ r => called_expr l ++ called_expr r
  | UnaryExpr _ x => called_expr x
  | Literal _ => []
  | VarRef _ => []
  | AssignExpr _ v => called_expr v
  | FuncCall n args => n :: flat_map called_expr args
  | OtherExpr => []
  end.

Definition called_opt (o : option expr) : list string :=
  match o with Some e => called_expr e | None => [] end.

Definition called_decl (names : list (string * option expr)) : list string :=
  flat_map (fun d => called_opt (snd d)) names.

Fixpoint called_stmt (s : stmt) : list string :=
  match s with
  | VarDecl _ names => called_decl names
  | ExprStmt e => called_expr e
  | IfStmt c t e =>
      called_expr c ++ flat_map called_stmt t ++
      match e with Some b => flat_map called_stmt b | None => [] end
  | WhileStmt c b => called_expr c ++ flat_map called_stmt b
  | ForStmt i c p b =>
      match i with Some s' => called_stmt s' | None => [] end ++
      called_opt c ++ called_opt p ++ flat_map called_stmt b
  | ReturnStmt e => called_opt e
  | OtherStmt => []
  end.

Definition called_func (f : func_decl) : list string := flat_map called_stmt (body f).

Definition called_program (p : program) : list string := flat_map called_func (funcs p).

(** Names that are all the text of an identifier token of [tokens]. *)
Definition named_by (tokens : list token) (names : list string) : Prop :=
  forall n, In n names -> In ("ID", n) tokens.

(** A token with which neither a statement nor an expression can start:
    not a type keyword, not [if], [while], [for] or [return], not a unary
    operator, not a literal, an identifier or an opening parenthesis. *)
Definition starts_nothing (t : token) : bool :=
  negb (is_decl_kind (fst t)) &&
  negb ((fst t =? "IF") || (fst t =? "WHILE") || (fst t =? "FOR") ||
        (fst t =? "RETURN")) &&
  negb (is_unary_op (snd t)) &&
  negb ((fst t =? "NUMBER") || (fst t =? "STRING") || (fst t =? "TRUE") ||
        (fst t =? "FALSE") || (fst t =? "ID")) &&
  negb (snd t =? "(").

Section WithTokens.
Context {B : Builtins}.
Variable tokens : list token.

(** [parse_statement], [parse_block] (its [while True] loop, with the
    statements read so far), [parse_if], [parse_while] and [parse_for].
    Every call takes one unit of fuel. *)
Fixpoint parse_statement (fuel : nat) : parser stmt :=
  match fuel with
  | O => fun _ => OutOfFuel
  | S fuel' =>
      t <- peek tokens ;;
      if is_decl_kind (fst t) then parse_vardecl tokens fuel'
      else if fst t =? "IF" then parse_if fuel'
      else if fst t =? "WHILE" then parse_while fuel'
      else if fst t =? "FOR" then parse_for fuel'
      else if fst t =? "RETURN" then
        next tokens ;;
        t' <- peek tokens ;;
        if snd t' =? ";" then next tokens ;; ret (ReturnStmt None)
        else
          e <- parse_expr tokens fuel' 1 ;;
          expect_op tokens ";" ;;
          ret (ReturnStmt (Some e))
      else
        e <- parse_expr tokens fuel' 1 ;;
        expect_op tokens ";" ;;
        ret (ExprStmt e)
  end

with parse_block (fuel : nat) (stmts : list stmt) : parser (list stmt) :=
  match fuel with
  | O => fun _ => OutOfFuel
  | S fuel' =>
      t <- peek tokens ;;
      if snd t =? "}" then next tokens ;; ret stmts
      else
        s <- parse_statement fuel' ;;
        parse_block fuel' (stmts ++ [s])%list
  end

with parse_if (fuel : nat) : parser stmt :=
  match fuel with
  | O => fun _ => OutOfFuel
  | S fuel' =>
      expect tokens "IF" ;;
      expect_op tokens "(" ;;
      cond <- parse_expr tokens fuel' 1 ;;
      expect_op tokens ")" ;;
      expect_op tokens "{" ;;
      then_block <- parse_block fuel' [] ;;
      t <- peek tokens ;;
      else_block <- (if fst t =? "ELSE" then
                       next tokens ;;
                       expect_op tokens "{" ;;
                       b <- parse_block fuel' [] ;;
                       ret (Some b)
                     else ret None) ;;
      ret (IfStmt cond then_block else_block)
  end

with parse_while (fuel : nat) : parser stmt :=
  match fuel with
  | O => fun _ => OutOfFuel
  | S fuel' =>
      expect tokens "WHILE" ;;
      expect_op tokens "(" ;;
      cond <- parse_expr tokens fuel' 1 ;;
      expect_op tokens ")" ;;
      expect_op tokens "{" ;;
      body <- parse_block fuel' [] ;;
      ret (WhileStmt cond body)
  end

with parse_for (fuel : nat) : parser stmt :=
  match fuel with
  | O => fun _ => OutOfFuel
  | S fuel' =>
      expect tokens "FOR" ;;
      expect_op tokens "(" ;;
      t <- peek tokens ;;
      init <- (if negb (snd t =? ";") then
                 t1 <- peek tokens ;;
                 if is_decl_kind (fst t1) then
                   d <- parse_vardecl_for tokens fuel' ;; ret (Some d)
                 else
                   e <- parse_expr tokens fuel' 1 ;;
                   expect_op tokens ";" ;;
                   ret (Some (ExprStmt e))
               else expect_op tokens ";" ;; ret None) ;;
      t2 <- peek tokens ;;
      cond <- (if negb (snd t2 =? ";") then
                 e <- parse_expr tokens fuel' 1 ;; ret (Some e)
               else ret None) ;;
      expect_op tokens ";" ;;
      t3 <- peek tokens ;;
      post <- (if negb (snd t3 =? ")") then
                 e <- parse_expr tokens fuel' 1 ;; ret (Some e)
               else ret None) ;;
      expect_op tokens ")" ;;
      expect_op tokens "{" ;;
      body <- parse_block fuel' [] ;;
      ret (ForStmt init cond post body)
  end.

(** The parameter loop of [parse_function]. *)
Fixpoint params_loop (fuel : nat) (params : list (string * string))
    : parser (list (string * string)) :=
  match fuel with
  | O => fun _ => OutOfFuel
  | S fuel' =>
      p_type <- expect_type tokens ;;
      p_name <- expect tokens "ID" ;;
      let params' := (params ++ [(snd p_type, snd p_name)])%list in
      t <- peek tokens ;;
      if snd t =? "," then next tokens ;; params_loop fuel' params'
      else ret params'
  end.

(** [self.expect("OP")] followed by the test of [self.tokens[self.pos-1]],
    the token just consumed, against one punctuation mark.  The
    [SyntaxError] raised has a message of its own; the model keeps what was
    expected and the token found. *)
Definition expect_punct (s : string) : parser unit :=
  t <- expect tokens "OP" ;;
  if negb (snd t =? s) then raise (ExpectedOperator s t) else ret tt.

Definition parse_function (fuel : nat) : parser func_decl :=
  expect tokens "FUNC" ;;
  ret_type <- expect_type tokens ;;
  name <- expect tokens "ID" ;;
  expect_punct "(" ;;
  t <- peek tokens ;;
  params <- (if negb (snd t =? ")") then params_loop fuel [] else ret []) ;;
  expect_punct ")" ;;
  expect_punct "{" ;;
  body <- parse_block fuel [] ;;
  ret (FuncDecl (snd ret_type) (snd name) params body).

(** The [while] loop of [parse]. *)
Fixpoint parse_loop (fuel : nat) (funcs : list func_decl) : parser program :=
  match fuel with
  | O => fun _ => OutOfFuel
  | S fuel' =>
      t <- peek tokens ;;
      if negb (fst t =? "EOF") then
        f <- parse_function fuel' ;;
        parse_loop fuel' (funcs ++ [f])%list
      else ret (Program funcs)
  end.

(** [Parser(tokens).parse()]: the position starts at 0. *)
Definition parse (fuel : nat) : outcome program := parse_loop fuel [] 0.

(** The methods as they are called: with fuel that is always enough (see
    [StatementFacts.statements_enough_fuel]). *)
Definition program_fuel : nat := 3 * List.length tokens + 6.

Definition run_statement : parser stmt := parse_statement program_fuel.
Definition run_block (stmts : list stmt) : parser (list stmt) :=
  parse_block program_fuel stmts.
Definition run_function : parser func_decl := parse_function program_fuel.
Definition run_parse : outcome program := parse program_fuel.

(** The statements [parse_statement] returns when it is called again and
    again from [pos], each time where the last call stopped and never at a
    closing brace, with the position [pos'] where the last one ends. *)
Inductive reads_statements : nat -> list stmt -> nat -> Prop :=
| reads_none (pos : nat) : reads_statements pos [] pos
| reads_more (pos : nat) (t : token) (s : stmt) (p1 : nat)
             (rest : list stmt) (p2 : nat) :
    nth_error tokens pos = Some t ->
    snd t <> "}" ->
    run_statement pos = Done s p1 ->
    reads_statements p1 rest p2 ->
    reads_statements pos (s :: rest) p2.

End WithTokens.
End Statements.

(** ** Shapes of emitted text *)

Module Shapes.
Import CodegenC.

(** A line that starts with the indentation of level [lvl]. *)
Definition indented (lvl : Z) (line : string) : Prop :=
  exists body, line = indent lvl body.

Fixpoint no_newline (s : string) : bool :=
  match s with
  | EmptyString => true
  | String c s' => negb (Ascii.eqb c "010") && no_newline s'
  end.

End Shapes.

(** ** The tokens the tokenizer produces *)

Module Tokens.
Import Lexer.

Definition first_char (s : string) : option ascii :=
  match s with
  | EmptyString => None
  | String c _ => Some c
  end.

(** A token that one turn of the loop can add: a keyword carries its own
    upper-case type, any other text the type of its rule, and the text
    starts as that rule demands. *)
Definition lexeme_ok (t : token) : bool :=
  match first_char (snd t) with
  | None => false
  | Some c =>
      if is_keyword (snd t) then fst t =? upper (snd t)
      else if fst t =? "NUMBER" then is_digit c
      else if fst t =? "STRING" then Ascii.eqb c "034"
      else if fst t =? "ID" then is_id_start c
      else if fst t =? "OP" then is_op_char c || Ascii.eqb c "&" || Ascii.eqb c "|"
      else false
  end.

(** The rule that matched and the first character of its text. *)
Definition rule_start (kind : string) (c : ascii) : Prop :=
  (kind = "COMMENT") \/ (kind = "WHITESPACE") \/
  (kind = "NUMBER" /\ is_digit c = true) \/
  (kind = "STRING" /\ c = "034"%char) \/
  (kind = "ID" /\ is_id_start c = true) \/
  (kind = "OP" /\ (is_op_char c || Ascii.eqb c "&" || Ascii.eqb c "|") = true).

(** Text that holds white space only. *)
Fixpoint blank (s : string) : bool :=
  match s with
  | EmptyString => true
  | String c s' => is_space c && blank s'
  end.

End Tokens.

(** ** native_compiler.py: the front end of [compile_to_native]

    Tokenizing, parsing and generating C, lines 27 to 35; writing the file
    and calling the C compiler are not modelled. *)

Module NativeCompiler.
Import Ast.

(** [lex(text)] *)
Definition lex (text : string) : option Lexer.lex_result := Lexer.tokenize text.

Inductive compiled : Type :=
| CCode (c_code : string)
| LexicalError (pos : nat) (ch : ascii)
| ParseError (e : Parser.exn)
| CodegenError (e : CodegenC.exn)
| NoAnswer.   (* the fuel of the model ran out; never the case *)

Definition compile_to_c {B : Parser.Builtins} (source_text : string) : compiled :=
  match lex source_text with
  | None => NoAnswer
  | Some (Lexer.Unexpected pos ch) => LexicalError pos ch
  | Some (Lexer.Tokens tokens) =>
      match Statements.run_parse tokens with
      | Parser.OutOfFuel => NoAnswer
      | Parser.Raise e => ParseError e
      | Parser.Done program _ =>
          match CodegenC.compile_program program with
          | CodegenC.Ok c_code => CCode c_code
          | CodegenC.Raise e => CodegenError e
          end
      end
  end.

(** What is written to the [.c] file: the code and a newline. *)
Definition c_file_text (c_code : string) : string := c_code ++ NL.

End NativeCompiler.

(** A program used to exercise the parser. *)
Module Samples.
Import Ast.

(** The tokens of
    [func int main() { for (int i = 0; i < 3; i = i + 1) { print(i); } return 0; }]. *)
Definition sample_tokens : list Lexer.token :=
  [("FUNC", "func"); ("INT", "int"); ("ID", "main"); ("OP", "("); ("OP", ")");
   ("OP", "{"); ("FOR", "for"); ("OP", "("); ("INT", "int"); ("ID", "i");
   ("OP", "="); ("NUMBER", "0"); ("OP", ";"); ("ID", "i"); ("OP", "<");
   ("NUMBER", "3"); ("OP", ";"); ("ID", "i"); ("OP", "="); ("ID", "i");
   ("OP", "+"); ("NUMBER", "1"); ("OP", ")"); ("OP", "{"); ("ID", "print");
   ("OP", "("); ("ID", "i"); ("OP", ")"); ("OP", ";"); ("OP", "}");
   ("RETURN", "return"); ("NUMBER", "0"); ("OP", ";"); ("OP", "}");
   ("EOF", EmptyString)].

Definition sample_program : program :=
  Program
    [FuncDecl "int" "main" []
       [ForStmt (Some (VarDecl "int" [("i", Some (Literal (VInt 0)))]))
          (Some (BinaryExpr (VarRef "i") "<" (Literal (VInt 3))))
          (Some (AssignExpr "i" (BinaryExpr (VarRef "i") "+" (Literal (VInt 1)))))
          [ExprStmt (FuncCall "print" [VarRef "i"])];
        ReturnStmt (Some (Literal (VInt 0)))]].

End Samples.

(** * Properties of the C code generator *)

Module CodegenFacts.
Import Ast CodegenC Lowering.

(** ** Induction over the nested syntax *)

Section ExprInduction.
Variable P : expr -> Prop.
Hypothesis HBinary : forall l op r, P l -> P r -> P (BinaryExpr l op r).
Hypothesis HUnary : forall op x, P x -> P (UnaryExpr op x).
Hypothesis HLiteral : forall v, P (Literal v).
Hypothesis HVarRef : forall n, P (VarRef n).
Hypothesis HAssign : forall n v, P v -> P (AssignExpr n v).
Hypothesis HCall : forall n args, Forall P args -> P (FuncCall n args).
Hypothesis HOther : P OtherExpr.

Fixpoint expr_nested_ind (e : expr) : P e :=
  match e with
  | BinaryExpr l op r => HBinary l op r (expr_nested_ind l) (expr_nested_ind r)
  | UnaryExpr op x => HUnary op x (expr_nested_ind x)
  | Literal v => HLiteral v
  | VarRef n => HVarRef n
  | AssignExpr n v => HAssign n v (expr_nested_ind v)
  | FuncCall n args =>
      HCall n args
        ((fix all (l : list expr) : Forall P l :=
            match l with
            | [] => Forall_nil P
            | a :: l' => Forall_cons a (expr_nested_ind a) (all l')
            end) args)
  | OtherExpr => HOther
  end.
End ExprInduction.

Section StmtInduction.
Variable P : stmt -> Prop.
Hypothesis HVarDecl : forall t names, P (VarDecl t names).
Hypothesis HExprStmt : forall e, P (ExprStmt e).
Hypothesis HIf : forall c t e,
  Forall P t -> match e with Some b => Forall P b | None => True end ->
  P (IfStmt c t e).
Hypothesis HWhile : forall c b, Forall P b -> P (WhileStmt c b).
Hypothesis HFor : forall i c p b, Forall P b -> P (ForStmt i c p b).
Hypothesis HReturn : forall e, P (ReturnStmt e).
Hypothesis HOther : P OtherStmt.

Fixpoint stmt_nested_ind (s : stmt) : P s :=
  let all := fix all (l : list stmt) : Forall P l :=
               match l with
               | [] => Forall_nil P
               | a :: l' => Forall_cons a (stmt_nested_ind a) (all l')
               end in
  match s with
  | VarDecl t names => HVarDecl t names
  | ExprStmt e => HExprStmt e
  | IfStmt c t e =>
      HIf c t e (all t)
        (match e as e0 return match e0 with Some b => Forall P b | None => True end with
         | Some b0 => all b0
         | None => I
         end)
  | WhileStmt c b => HWhile c b (all b)
  | ForStmt i c p b => HFor i c p b (all b)
  | ReturnStmt e => HReturn e
  | OtherStmt => HOther
  end.
End StmtInduction.


(** ** Expressions *)

Lemma string_app_assoc (a b c : string) : (a ++ b) ++ c = a ++ (b ++ c).
Proof. induction a; simpl; congruence. Qed.

Lemma strs_of_map (strs : list string) : strs_of (map PStr strs) = Ok strs.
Proof.
  induction strs as [|s strs IH]; simpl; [reflexivity|].
  rewrite IH. reflexivity.
Qed.

Lemma map_result_known (args : list expr) :
  Forall (fun a => exists s, gen_expr a = Ok (PStr s)) args ->
  exists strs, map_result gen_expr args = Ok (map PStr strs).
Proof.
  induction 1 as [|a args [s Ha] _ [strs IH]].
  - exists []. reflexivity.
  - exists (s :: strs).
    change (map_result gen_expr (a :: args))
      with (rbind (gen_expr a) (fun b =>
            rbind (map_result gen_expr args) (fun bs => Ok (b :: bs)))).
    rewrite Ha, IH. reflexivity.
Qed.

Lemma gen_expr_known (e : expr) :
  known_expr e = true -> exists s, gen_expr e = Ok (PStr s).
Proof.
  induction e as [l op r IHl IHr|op x IH|v|n|n v IH|n args IH|]
    using expr_nested_ind; simpl; intros K.
  - apply andb_true_iff in K as [Kl Kr].
    destruct (IHl Kl) as [sl ->], (IHr Kr) as [sr ->]. simpl. eauto.
  - destruct (IH K) as [s ->]. simpl. eauto.
  - destruct v; eauto.
  - eauto.
  - destruct (IH K) as [s ->]. simpl. eauto.
  - assert (Hargs : Forall (fun a => exists s, gen_expr a = Ok (PStr s)) args).
    { rewrite forallb_forall in K. rewrite Forall_forall in IH |- *.
      intros a Ha. apply IH; auto. }
    destruct (n =? "print").
    + destruct args as [|arg rest]; [eauto|].
      inversion Hargs as [|? ? [s Hs] _]; subst. rewrite Hs. simpl.
      destruct arg as [| |[]| | | |]; eauto.
    + destruct (n =? "input"); [eauto|].
      destruct (map_result_known args Hargs) as [strs ->]. simpl.
      rewrite strs_of_map. simpl. eauto.
  - discriminate.
Qed.

Lemma expr_str_known (e : expr) :
  known_expr e = true -> gen_expr e = Ok (PStr (expr_str e)).
Proof.
  intros K. destruct (gen_expr_known e K) as [s H].
  unfold expr_str. rewrite H. reflexivity.
Qed.

(** ** The emission state *)

Lemma appended_nil st : appended st [] = st.
Proof. destruct st. unfold appended. simpl. rewrite app_nil_r. reflexivity. Qed.

Lemma appended_app st l1 l2 : appended (appended st l1) l2 = appended st (l1 ++ l2).
Proof. unfold appended. simpl. rewrite app_assoc. reflexivity. Qed.

Lemma for_each_lines {A} (f : A -> gen unit) (lines : Z -> A -> list string)
    (l : list A) :
  Forall (fun x => forall st,
            f x st = Ok (tt, appended st (lines (indent_level st) x))) l ->
  forall st,
    for_each f l st = Ok (tt, appended st (flat_map (lines (indent_level st)) l)).
Proof.
  induction 1 as [|x l Hx _ IH]; intros st; simpl.
  - unfold ret. rewrite appended_nil. reflexivity.
  - unfold bind. rewrite Hx. rewrite IH. simpl.
    rewrite appended_app. reflexivity.
Qed.

(** A block between [indent_level += 1] and [indent_level -= 1], followed
    by the rest [k] of the method. *)
Lemma indented_block {A} (b : list stmt) (k : gen A) :
  Forall (fun s => forall st,
            gen_stmt s st = Ok (tt, appended st (stmt_lines (indent_level st) s))) b ->
  forall st,
    (indent_incr ;; for_each gen_stmt b ;; indent_decr ;; k) st =
    k (appended st (block_lines (indent_level st + 1) b)).
Proof.
  intros H st. unfold bind at 1. unfold indent_incr at 1.
  unfold bind at 1. rewrite (for_each_lines gen_stmt stmt_lines b H).
  unfold bind, indent_decr, appended, block_lines. cbn [out_lines indent_level].
  replace (indent_level st + 1 - 1)%Z with (indent_level st) by lia.
  reflexivity.
Qed.

Lemma indented_block_end (b : list stmt) :
  Forall (fun s => forall st,
            gen_stmt s st = Ok (tt, appended st (stmt_lines (indent_level st) s))) b ->
  forall st,
    (indent_incr ;; for_each gen_stmt b ;; indent_decr) st =
    Ok (tt, appended st (block_lines (indent_level st + 1) b)).
Proof.
  intros H st. unfold bind at 1. unfold indent_incr at 1.
  unfold bind at 1. rewrite (for_each_lines gen_stmt stmt_lines b H).
  unfold indent_decr, appended, block_lines. cbn [out_lines indent_level].
  replace (indent_level st + 1 - 1)%Z with (indent_level st) by lia.
  reflexivity.
Qed.

(** ** Statements *)

Lemma flat_map_singleton {A B} (f : A -> B) (l : list A) :
  flat_map (fun x => [f x]) l = map f l.
Proof. induction l; simpl; congruence. Qed.

Lemma emit_eq (line : string) (st : gen_state) :
  emit line st = Ok (tt, appended st [indent (indent_level st) line]).
Proof. reflexivity. Qed.

Lemma hoist_decls_known (c_type : string) (names : list (string * option expr)) :
  forallb known_declarator names = true ->
  forall acc st,
    hoist_decls c_type names acc st =
    Ok ((acc ++ flat_map init_assignment names)%list,
        appended st (map (hoisted_line (indent_level st) c_type) names)).
Proof.
  induction names as [|[n i] names IH]; intros K acc st.
  - cbn. unfold ret. rewrite appended_nil, app_nil_r. reflexivity.
  - cbn [forallb] in K. apply andb_true_iff in K as [Ki K].
    cbn [hoist_decls]. unfold bind at 1. rewrite emit_eq.
    destruct i as [e|].
    + unfold bind, lift. rewrite (expr_str_known e Ki), (IH K), appended_app.
      cbn [indent_level appended]. rewrite <- app_assoc. reflexivity.
    + rewrite (IH K), appended_app. reflexivity.
Qed.

Lemma known_block (P : stmt -> Prop) (b : list stmt) :
  Forall (fun s => known_stmt s = true -> P s) b ->
  forallb known_stmt b = true -> Forall P b.
Proof.
  intros H K. rewrite forallb_forall in K. rewrite Forall_forall in H |- *.
  auto.
Qed.

Lemma gen_opt_expr_known (o : option expr) (dflt : string) :
  known_opt_expr o = true ->
  gen_opt_expr o dflt = Ok (PStr (opt_expr_str o dflt)).
Proof.
  destruct o as [e|]; simpl; intros K; [apply expr_str_known, K|reflexivity].
Qed.

Lemma gen_stmt_known (s : stmt) :
  known_stmt s = true ->
  forall st,
    gen_stmt s st = Ok (tt, appended st (stmt_lines (indent_level st) s)).
Proof.
  induction s as [t names|e|c t e IHt IHe|c b IHb|i c p b IHb|e|]
    using stmt_nested_ind; intros K st.
  - simpl in K. cbn [gen_stmt stmt_lines].
    rewrite <- flat_map_singleton.
    apply (for_each_lines _ (fun lvl d => [decl_line lvl (map_type t) d])).
    rewrite forallb_forall in K. apply Forall_forall. intros [n i] Hd st'.
    specialize (K _ Hd). unfold known_declarator in K. simpl in K.
    unfold decl_line. destruct i as [init|]; simpl.
    + unfold bind, lift. rewrite (expr_str_known init K). reflexivity.
    + reflexivity.
  - simpl in K. cbn [gen_stmt stmt_lines]. unfold bind, lift.
    rewrite (expr_str_known e K). reflexivity.
  - simpl in K. apply andb_true_iff in K as [K Ke]. apply andb_true_iff in K as [Kc Kt].
    cbn [gen_stmt stmt_lines]. unfold bind at 1, lift.
    rewrite (expr_str_known c Kc). unfold bind at 1. rewrite emit_eq.
    rewrite (indented_block t _ (known_block _ t IHt Kt)).
    destruct e as [b|].
    + unfold bind at 1. unfold bind at 1. rewrite emit_eq.
      rewrite (indented_block_end b (known_block _ b IHe Ke)).
      rewrite emit_eq, !appended_app.
      cbn [appended indent_level]. rewrite <- ?app_assoc. reflexivity.
    + unfold ret, bind. rewrite emit_eq, !appended_app.
      cbn [appended indent_level]. rewrite <- ?app_assoc. reflexivity.
  - simpl in K. apply andb_true_iff in K as [Kc Kb].
    cbn [gen_stmt stmt_lines]. unfold bind at 1, lift.
    rewrite (expr_str_known c Kc). unfold bind at 1. rewrite emit_eq.
    rewrite (indented_block b _ (known_block _ b IHb Kb)).
    rewrite emit_eq, !appended_app.
    cbn [appended indent_level]. rewrite <- ?app_assoc. reflexivity.
  - simpl in K. apply andb_true_iff in K as [K Kb].
    apply andb_true_iff in K as [K Kp]. apply andb_true_iff in K as [Ki Kc].
    cbn [gen_stmt stmt_lines].
    match goal with
    | |- bind ?m1 (fun iv => bind (@?m2 iv) ?k) st = _ =>
        assert (Hinit : forall A (k' : pyval -> gen A),
          bind m1 (fun iv => bind (m2 iv) k') st =
          k' (PStr (for_init_str i))
             (appended st (hoisted_lines (indent_level st) i)))
    end.
    { intros A k'. unfold bind at 1.
      destruct i as [[t names|e| | | | |]|]; unfold ret, hoisted_lines;
        rewrite ?appended_nil; try reflexivity.
      - simpl in Ki. rewrite (hoist_decls_known _ _ Ki). cbn [app for_init_str].
        destruct (flat_map init_assignment names); reflexivity.
      - simpl in Ki. unfold bind, lift, for_init_str.
        rewrite (expr_str_known e Ki). reflexivity. }
    rewrite Hinit. clear Hinit.
    unfold bind at 1, lift. rewrite (gen_opt_expr_known c "1" Kc).
    unfold bind at 1. rewrite (gen_opt_expr_known p EmptyString Kp).
    unfold bind at 1. rewrite emit_eq.
    rewrite (indented_block b _ (known_block _ b IHb Kb)).
    rewrite emit_eq, !appended_app.
    cbn [appended indent_level fstr]. rewrite <- ?app_assoc. reflexivity.
  - destruct e as [e|]; cbn [gen_stmt stmt_lines].
    + simpl in K. unfold bind, lift. rewrite (expr_str_known e K). apply emit_eq.
    + apply emit_eq.
  - discriminate.
Qed.


(** ** Functions and the module *)

Lemma gen_function_known (f : func_decl) :
  known_func f = true ->
  forall st,
    gen_function f st = Ok (tt, appended st (function_lines (indent_level st) f)).
Proof.
  intros K st. unfold gen_function, function_lines.
  unfold bind at 1. rewrite emit_eq.
  unfold bind at 1. unfold indent_incr at 1.
  unfold bind at 1.
  rewrite (for_each_lines gen_stmt stmt_lines (body f)).
  2:{ apply Forall_forall. intros s Hs.
      apply gen_stmt_known. unfold known_func in K.
      rewrite forallb_forall in K. auto. }
  fold (needs_fallback f). cbn [indent_level appended out_lines].
  destruct (needs_fallback f).
  - unfold bind at 1. rewrite emit_eq. unfold bind, indent_decr.
    rewrite emit_eq. unfold appended, block_lines. cbn [indent_level out_lines].
    replace (indent_level st + 1 - 1)%Z with (indent_level st) by lia.
    rewrite <- ?app_assoc. reflexivity.
  - unfold bind, ret, indent_decr.
    rewrite emit_eq. unfold appended, block_lines. cbn [indent_level out_lines].
    replace (indent_level st + 1 - 1)%Z with (indent_level st) by lia.
    rewrite <- ?app_assoc. reflexivity.
Qed.

Lemma indent_zero (line : string) : indent 0 line = line.
Proof. reflexivity. Qed.

Lemma generate_known (p : program) :
  known_program p = true ->
  compile_program p = Ok (String.concat NL (module_lines p)).
Proof.
  intros K. unfold compile_program, generate.
  repeat (unfold bind at 1; rewrite emit_eq; rewrite ?appended_app).
  unfold bind at 1.
  rewrite (for_each_lines _ (fun lvl f => [indent lvl (signature f ++ ";")])).
  2:{ apply Forall_forall. intros f _ st. apply emit_eq. }
  rewrite appended_app. unfold bind at 1. rewrite emit_eq, appended_app.
  unfold bind at 1.
  rewrite (for_each_lines _ (fun lvl f => (function_lines lvl f ++ [indent lvl EmptyString])%list)).
  2:{ apply Forall_forall. intros f Hf st. unfold bind.
      unfold known_program in K. rewrite forallb_forall in K.
      rewrite (gen_function_known f (K f Hf)), emit_eq, appended_app. reflexivity. }
  rewrite appended_app. cbn [appended init_state out_lines indent_level].
  rewrite flat_map_singleton, <- ?app_assoc. reflexivity.
Qed.

(** ** What the generator returns on any syntax tree

    Whenever a method returns, on nodes of the known classes or not, the
    lines it has appended are the ones [Lowering] describes. *)

Lemma expr_str_ok (e : expr) (v : pyval) : gen_expr e = Ok v -> fstr v = expr_str e.
Proof. intros H. unfold expr_str. rewrite H. reflexivity. Qed.

Lemma bind_ok {A B} (m : gen A) (k : A -> gen B) (st : gen_state) (r : B * gen_state) :
  bind m k st = Ok r -> exists a st1, m st = Ok (a, st1) /\ k a st1 = Ok r.
Proof. unfold bind. destruct (m st) as [[a st1]|]; [eauto|discriminate]. Qed.

Lemma lift_ok {A} (r : result A) (st : gen_state) (a : A) (st1 : gen_state) :
  lift r st = Ok (a, st1) -> r = Ok a /\ st1 = st.
Proof. unfold lift. destruct r; [|discriminate]. intros H. injection H as -> ->. auto. Qed.

Lemma emit_ok (line : string) (st : gen_state) (u : unit) (st1 : gen_state) :
  emit line st = Ok (u, st1) -> st1 = appended st [indent (indent_level st) line].
Proof. rewrite emit_eq. intros H. injection H as _ <-. reflexivity. Qed.

Ltac gen_step H H1 :=
  let a := fresh "a" in
  let st1 := fresh "st" in
  apply bind_ok in H as (a & st1 & H1 & H);
  first [ apply emit_ok in H1; subst st1
        | apply lift_ok in H1 as [H1 ->]
        | idtac ].

Lemma for_each_returns {A} (f : A -> gen unit) (lines : Z -> A -> list string)
    (l : list A) :
  Forall (fun x => forall st st',
            f x st = Ok (tt, st') -> st' = appended st (lines (indent_level st) x)) l ->
  forall st st',
    for_each f l st = Ok (tt, st') ->
    st' = appended st (flat_map (lines (indent_level st)) l).
Proof.
  induction 1 as [|x l Hx _ IH]; intros st st' H; simpl in H.
  - unfold ret in H. injection H as <-. symmetry. apply appended_nil.
  - apply bind_ok in H as ([] & st1 & H1 & H2).
    apply Hx in H1. subst st1. apply IH in H2. subst st'.
    rewrite appended_app. reflexivity.
Qed.

Lemma indented_block_end_returns (b : list stmt) :
  Forall (fun s => forall st st',
            gen_stmt s st = Ok (tt, st') ->
            st' = appended st (stmt_lines (indent_level st) s)) b ->
  forall st st',
    (indent_incr ;; for_each gen_stmt b ;; indent_decr) st = Ok (tt, st') ->
    st' = appended st (block_lines (indent_level st + 1) b).
Proof.
  intros Hb st st' H.
  apply bind_ok in H as ([] & st1 & H1 & H).
  unfold indent_incr in H1. injection H1 as <-.
  apply bind_ok in H as ([] & st2 & H2 & H).
  apply (for_each_returns gen_stmt stmt_lines b Hb) in H2. subst st2.
  unfold indent_decr in H. injection H as <-.
  unfold appended, block_lines. cbn [out_lines indent_level].
  replace (indent_level st + 1 - 1)%Z with (indent_level st) by lia.
  reflexivity.
Qed.

Lemma indented_block_returns {A} (b : list stmt) (k : gen A) :
  Forall (fun s => forall st st',
            gen_stmt s st = Ok (tt, st') ->
            st' = appended st (stmt_lines (indent_level st) s)) b ->
  forall st r,
    (indent_incr ;; for_each gen_stmt b ;; indent_decr ;; k) st = Ok r ->
    k (appended st (block_lines (indent_level st + 1) b)) = Ok r.
Proof.
  intros Hb st r H.
  apply bind_ok in H as ([] & st1 & H1 & H).
  unfold indent_incr in H1. injection H1 as <-.
  apply bind_ok in H as ([] & st2 & H2 & H).
  apply (for_each_returns gen_stmt stmt_lines b Hb) in H2. subst st2.
  apply bind_ok in H as ([] & st3 & H3 & H).
  unfold indent_decr in H3. injection H3 as <-.
  unfold appended, block_lines in *. cbn [out_lines indent_level] in *.
  replace (indent_level st + 1 - 1)%Z with (indent_level st) in H by lia.
  exact H.
Qed.

Lemma hoist_decls_returns (c_type : string) (names : list (string * option expr)) :
  forall acc st vars st',
    hoist_decls c_type names acc st = Ok (vars, st') ->
    vars = (acc ++ flat_map init_assignment names)%list /\
    st' = appended st (map (hoisted_line (indent_level st) c_type) names).
Proof.
  induction names as [|[n i] names IH]; intros acc st vars st' H.
  - cbn in H. unfold ret in H. injection H as <- <-.
    rewrite appended_nil, app_nil_r. auto.
  - cbn [hoist_decls] in H. gen_step H He.
    destruct i as [e|].
    + gen_step H H1. apply expr_str_ok in H1. apply IH in H as [-> ->].
      rewrite appended_app. cbn [indent_level appended flat_map init_assignment snd fst map].
      rewrite H1, <- app_assoc. auto.
    + apply IH in H as [-> ->]. rewrite appended_app. auto.
Qed.

Lemma gen_opt_expr_ok (o : option expr) (dflt : string) (v : pyval) :
  gen_opt_expr o dflt = Ok v -> fstr v = opt_expr_str o dflt.
Proof.
  destruct o as [e|]; simpl; intros H; [apply expr_str_ok, H|].
  injection H as <-. reflexivity.
Qed.

Lemma gen_stmt_returns (s : stmt) :
  forall st st',
    gen_stmt s st = Ok (tt, st') ->
    st' = appended st (stmt_lines (indent_level st) s).
Proof.
  induction s as [t names|e|c t e IHt IHe|c b IHb|i c p b IHb|e|]
    using stmt_nested_ind; intros st st' H.
  - cbn [gen_stmt stmt_lines] in *.
    rewrite <- flat_map_singleton.
    apply (for_each_returns _ (fun lvl d => [decl_line lvl (map_type t) d]) names) in H;
      [exact H|].
    apply Forall_forall. intros [n i] _ st0 st0' H0. unfold decl_line.
    destruct i as [init|]; cbn [snd fst] in *.
    + gen_step H0 H1. apply expr_str_ok in H1. apply emit_ok in H0.
      rewrite <- H1. exact H0.
    + apply emit_ok in H0. exact H0.
  - cbn [gen_stmt stmt_lines] in *. gen_step H H0. apply emit_ok in H. subst st'.
    unfold expr_str. destruct (gen_expr e) as [[|s]|]; try discriminate.
    injection H0 as <-. reflexivity.
  - cbn [gen_stmt stmt_lines] in *. gen_step H H0. apply expr_str_ok in H0.
    gen_step H He. apply (indented_block_returns t _ IHt) in H.
    destruct e as [b|].
    + apply bind_ok in H as ([] & st1 & H1 & H).
      apply bind_ok in H1 as ([] & st2 & H2 & H1).
      apply emit_ok in H2. subst st2.
      apply (indented_block_end_returns b IHe) in H1. subst st1.
      apply emit_ok in H. subst st'. rewrite !appended_app.
      cbn [appended indent_level]. rewrite <- ?app_assoc, H0. reflexivity.
    + apply bind_ok in H as ([] & st1 & H1 & H).
      unfold ret in H1. injection H1 as <-.
      apply emit_ok in H. subst st'. rewrite !appended_app.
      cbn [appended indent_level]. rewrite <- ?app_assoc, H0. reflexivity.
  - cbn [gen_stmt stmt_lines] in *. gen_step H H0. apply expr_str_ok in H0.
    gen_step H He. apply (indented_block_returns b _ IHb) in H.
    apply emit_ok in H. subst st'. rewrite !appended_app.
    cbn [appended indent_level]. rewrite <- ?app_assoc, H0. reflexivity.
  - cbn [gen_stmt stmt_lines] in *.
    apply bind_ok in H as (init_vars & st1 & H1 & H).
    apply bind_ok in H as (init_str & st2 & H2 & H).
    assert (Hinit : fstr init_str = for_init_str i /\
                    st2 = appended st (hoisted_lines (indent_level st) i)).
    { destruct i as [[t names|e| | | | |]|]; unfold hoisted_lines;
        try (unfold ret in H1; injection H1 as <- <-;
             unfold ret in H2; injection H2 as <- <-;
             rewrite appended_nil; split; reflexivity).
      - apply hoist_decls_returns in H1 as [-> ->]. cbn [app for_init_str] in *.
        destruct (flat_map init_assignment names);
          unfold ret in H2; injection H2 as <- <-; split; reflexivity.
      - unfold ret in H1. injection H1 as <- <-.
        apply lift_ok in H2 as [H2 ->]. apply expr_str_ok in H2.
        rewrite appended_nil. split; [exact H2|reflexivity]. }
    destruct Hinit as [Hi ->].
    gen_step H H0. apply gen_opt_expr_ok in H0.
    gen_step H H3. apply gen_opt_expr_ok in H3.
    gen_step H He. apply (indented_block_returns b _ IHb) in H.
    apply emit_ok in H. subst st'. rewrite !appended_app.
    cbn [appended indent_level]. rewrite <- ?app_assoc, Hi, H0, H3. reflexivity.
  - destruct e as [e|]; cbn [gen_stmt stmt_lines] in *.
    + gen_step H H0. apply expr_str_ok in H0. apply emit_ok in H.
      rewrite <- H0. exact H.
    + apply emit_ok in H. exact H.
  - cbn in H. unfold ret in H. injection H as <-. symmetry. apply appended_nil.
Qed.

Lemma gen_function_returns (f : func_decl) :
  forall st st',
    gen_function f st = Ok (tt, st') ->
    st' = appended st (function_lines (indent_level st) f).
Proof.
  intros st st' H. unfold gen_function in H. fold (needs_fallback f) in H.
  gen_step H He.
  apply bind_ok in H as ([] & st1 & H1 & H).
  unfold indent_incr in H1. injection H1 as <-.
  apply bind_ok in H as ([] & st2 & H2 & H).
  apply (for_each_returns gen_stmt stmt_lines (body f)) in H2.
  2:{ apply Forall_forall. intros s _. apply gen_stmt_returns. }
  subst st2. unfold function_lines.
  destruct (needs_fallback f).
  - gen_step H He'.
    apply bind_ok in H as ([] & st3 & H3 & H).
    unfold indent_decr in H3. injection H3 as <-.
    apply emit_ok in H. subst st'.
    unfold appended, block_lines. cbn [indent_level out_lines].
    replace (indent_level st + 1 - 1)%Z with (indent_level st) by lia.
    rewrite <- ?app_assoc. reflexivity.
  - apply bind_ok in H as ([] & st3 & H3 & H).
    unfold ret in H3. injection H3 as <-.
    apply bind_ok in H as ([] & st4 & H4 & H).
    unfold indent_decr in H4. injection H4 as <-.
    apply emit_ok in H. subst st'.
    unfold appended, block_lines. cbn [indent_level out_lines].
    replace (indent_level st + 1 - 1)%Z with (indent_level st) by lia.
    rewrite <- ?app_assoc. reflexivity.
Qed.

Lemma generate_returns (p : program) (text : string) :
  compile_program p = Ok text -> text = String.concat NL (module_lines p).
Proof.
  unfold compile_program.
  destruct (generate p init_state) as [[text' st']|] eqn:H; [|discriminate].
  intros E. injection E as ->. unfold generate in H.
  do 5 (let He := fresh "He" in gen_step H He).
  apply bind_ok in H as ([] & st1 & H1 & H).
  apply (for_each_returns _ (fun lvl f => [indent lvl (signature f ++ ";")])) in H1.
  2:{ apply Forall_forall. intros f _ st0 st0' H0. apply emit_ok in H0. exact H0. }
  subst st1. gen_step H He.
  apply bind_ok in H as ([] & st2 & H2 & H).
  apply (for_each_returns _
           (fun lvl f => (function_lines lvl f ++ [indent lvl EmptyString])%list)) in H2.
  2:{ apply Forall_forall. intros f _ st0 st0' H0.
      apply bind_ok in H0 as ([] & st3 & H3 & H0).
      apply gen_function_returns in H3. subst st3.
      apply emit_ok in H0. subst st0'. rewrite appended_app. reflexivity. }
  subst st2. injection H as <- _.
  cbn [appended init_state out_lines indent_level].
  rewrite flat_map_singleton, <- ?app_assoc. reflexivity.
Qed.

(** ** Claims about the generator *)

(** C1.  A function whose return type is not [void] and whose immediate
    body list holds no [ReturnStmt] gets exactly one [return 0;] after its
    lowered body, at the body's level; a function that is [void], or that
    has a [ReturnStmt] directly in its body, gets none.  Only the elements
    of the body list are looked at, so a return nested in an [if] or a
    [while] does not count. *)
Theorem C1_fallback_return (f : func_decl) (st : gen_state) :
  known_func f = true ->
  (return_type f <> "void" ->
   (forall e, ~ In (ReturnStmt e) (body f)) ->
   gen_function f st =
     Ok (tt, appended st
               ([indent (indent_level st) (signature f ++ " {")] ++
                block_lines (indent_level st + 1) (body f) ++
                [indent (indent_level st + 1) "return 0;";
                 indent (indent_level st) "}"]))) /\
  (return_type f = "void" \/ (exists e, In (ReturnStmt e) (body f)) ->
   gen_function f st =
     Ok (tt, appended st
               ([indent (indent_level st) (signature f ++ " {")] ++
                block_lines (indent_level st + 1) (body f) ++
                [indent (indent_level st) "}"]))).
Proof.
  intros K. rewrite (gen_function_known f K). unfold function_lines, needs_fallback.
  split.
  - intros Hvoid Hbody.
    destruct (String.eqb_spec (return_type f) "void") as [E|_]; [contradiction|].
    assert (E : existsb is_return (body f) = false).
    { apply not_true_is_false. intros H. apply existsb_exists in H as [s [Hs Hr]].
      destruct s; try discriminate. apply (Hbody _ Hs). }
    rewrite E. reflexivity.
  - intros [Hvoid|[e Hret]].
    + rewrite Hvoid. reflexivity.
    + assert (E : existsb is_return (body f) = true).
      { apply existsb_exists. exists (ReturnStmt e). split; [exact Hret|reflexivity]. }
      rewrite E, andb_false_r. reflexivity.
Qed.

(** Three functions: one whose only return sits inside an [if], which
    still gets the fallback; one with a return directly in its body and
    one that is [void], which get none. *)
Lemma C1_fallback_return_witness :
  let nested := FuncDecl "int" "sign" [("int", "x")]
                  [IfStmt (BinaryExpr (VarRef "x") "<" (Literal (VInt 0)))
                     [ReturnStmt (Some (Literal (VInt 1)))] None] in
  let direct := FuncDecl "int" "one" []
                  [ExprStmt (FuncCall "print" [Literal (VInt 1)]);
                   ReturnStmt (Some (Literal (VInt 1)));
                   ExprStmt (FuncCall "print" [Literal (VInt 2)])] in
  let bare := FuncDecl "float" "stop" [] [ReturnStmt None] in
  let void := FuncDecl "void" "hello" [] [ExprStmt (FuncCall "print" [])] in
  (existsb contains_return (body nested) = true /\
   gen_function nested init_state =
     Ok (tt, appended init_state
               ["int sign(int x) {"; "    if ((x < 0)) {"; "        return 1;";
                "    }"; "    return 0;"; "}"])) /\
  gen_function direct init_state =
    Ok (tt, appended init_state
              ["int one(void) {"; "    printf(" ++ DQ ++ "%d\n" ++ DQ ++ ", 1);";
               "    return 1;"; "    printf(" ++ DQ ++ "%d\n" ++ DQ ++ ", 2);"; "}"]) /\
  gen_function bare init_state =
    Ok (tt, appended init_state ["double stop(void) {"; "    return;"; "}"]) /\
  gen_function void init_state =
    Ok (tt, appended init_state
              ["void hello(void) {"; "    printf(" ++ DQ ++ "\n" ++ DQ ++ ");"; "}"]).
Proof.
  intros nested direct bare void. split; [split; [reflexivity|]|split; [|split]].
  - apply (proj1 (C1_fallback_return nested init_state eq_refl)); [discriminate|].
    intros e [H|[]]. discriminate H.
  - apply (proj2 (C1_fallback_return direct init_state eq_refl)).
    right. exists (Some (Literal (VInt 1))). simpl. auto.
  - apply (proj2 (C1_fallback_return bare init_state eq_refl)).
    right. exists None. simpl. auto.
  - apply (proj2 (C1_fallback_return void init_state eq_refl)).
    left. reflexivity.
Defined.

(** C3.  Lowering of a call to [print]: no argument gives a bare newline;
    one literal argument picks the format from the kind of the literal
    ([%s] for a string, [%f] for a float, [%s] with the true/false
    selection for a boolean, else [%d]); one argument that is not a literal
    always gets [%d]. *)
Theorem C3_print_format :
  gen_expr (FuncCall "print" []) = Ok (PStr ("printf(" ++ DQ ++ "\n" ++ DQ ++ ")")) /\
  (forall s, gen_expr (FuncCall "print" [Literal (VStr s)]) =
             Ok (PStr ("printf(" ++ DQ ++ "%s\n" ++ DQ ++ ", " ++
                       DQ ++ escape_c s ++ DQ ++ ")"))) /\
  (forall r, gen_expr (FuncCall "print" [Literal (VFloat r)]) =
             Ok (PStr ("printf(" ++ DQ ++ "%f\n" ++ DQ ++ ", " ++ r ++ ")"))) /\
  (forall b, gen_expr (FuncCall "print" [Literal (VBool b)]) =
             Ok (PStr ("printf(" ++ DQ ++ "%s\n" ++ DQ ++ ", " ++
                       (if b then "true" else "false") ++
                       " ? " ++ DQ ++ "true" ++ DQ ++
                       " : " ++ DQ ++ "false" ++ DQ ++ ")"))) /\
  (forall z, gen_expr (FuncCall "print" [Literal (VInt z)]) =
             Ok (PStr ("printf(" ++ DQ ++ "%d\n" ++ DQ ++ ", " ++ str_int z ++ ")"))) /\
  (forall arg s,
     (forall v, arg <> Literal v) ->
     gen_expr arg = Ok (PStr s) ->
     gen_expr (FuncCall "print" [arg]) =
       Ok (PStr ("printf(" ++ DQ ++ "%d\n" ++ DQ ++ ", " ++ s ++ ")"))).
Proof.
  split; [reflexivity|].
  split.
  { intros s. cbn [gen_expr]. change ("print" =? "print") with true. cbn iota.
    unfold rbind, printf, fstr. rewrite !string_app_assoc. reflexivity. }
  split; [intros r; reflexivity|].
  split; [intros []; reflexivity|].
  split; [intros z; reflexivity|].
  intros arg s Hlit Harg.
  cbn [gen_expr]. change ("print" =? "print") with true. cbn iota.
  rewrite Harg. destruct arg; try reflexivity. destruct (Hlit v eq_refl).
Qed.

(** [print] of a literal of each kind, of a variable and of a sum. *)
Lemma C3_print_format_witness :
  gen_expr (FuncCall "print" [Literal (VStr "hi")]) =
    Ok (PStr ("printf(" ++ DQ ++ "%s\n" ++ DQ ++ ", " ++ DQ ++ "hi" ++ DQ ++ ")")) /\
  gen_expr (FuncCall "print" [Literal (VFloat "1.5")]) =
    Ok (PStr ("printf(" ++ DQ ++ "%f\n" ++ DQ ++ ", 1.5)")) /\
  gen_expr (FuncCall "print" [Literal (VBool true)]) =
    Ok (PStr ("printf(" ++ DQ ++ "%s\n" ++ DQ ++ ", true ? " ++ DQ ++ "true" ++ DQ ++
              " : " ++ DQ ++ "false" ++ DQ ++ ")")) /\
  gen_expr (FuncCall "print" [Literal (VInt 3)]) =
    Ok (PStr ("printf(" ++ DQ ++ "%d\n" ++ DQ ++ ", 3)")) /\
  gen_expr (FuncCall "print" [VarRef "x"]) =
    Ok (PStr ("printf(" ++ DQ ++ "%d\n" ++ DQ ++ ", x)")) /\
  gen_expr (FuncCall "print"
              [BinaryExpr (FuncCall "f" [VarRef "x"]) "+" (Literal (VFloat "1.5"))]) =
    Ok (PStr ("printf(" ++ DQ ++ "%d\n" ++ DQ ++ ", (f(x) + 1.5))")).
Proof.
  destruct C3_print_format as [_ [Hs [Hf [Hb [Hi Hother]]]]].
  split; [exact (Hs "hi")|].
  split; [exact (Hf "1.5")|].
  split; [exact (Hb true)|].
  split; [exact (Hi 3%Z)|].
  split.
  - apply (Hother (VarRef "x") "x"); [discriminate|reflexivity].
  - apply (Hother (BinaryExpr (FuncCall "f" [VarRef "x"]) "+" (Literal (VFloat "1.5")))
                  "(f(x) + 1.5)"); [discriminate|reflexivity].
Defined.

(** C6.  The module is the four include lines, an empty line, one forward
    declaration per function, an empty line, then for each function in
    source order its definition followed by an empty line.  Declaration
    and definition share the signature, whose parameter list is [void]
    when the function has no parameter. *)
Theorem C6_module_structure (p : program) :
  known_program p = true ->
  compile_program p =
    Ok (String.concat NL
          (INCLUDES ++ [EmptyString] ++
           map (fun f => signature f ++ ";") (funcs p) ++ [EmptyString] ++
           flat_map (fun f => (function_lines 0 f ++ [EmptyString])%list) (funcs p))) /\
  (forall f, exists rest, function_lines 0 f = (signature f ++ " {") :: rest) /\
  (forall f, params f = [] ->
     signature f = map_type (return_type f) ++ " " ++ name f ++ "(void)").
Proof.
  intros K. split; [apply (generate_known p K)|]. split.
  - intros f. eexists. unfold function_lines. rewrite indent_zero. reflexivity.
  - intros f Hp. unfold signature. rewrite Hp. reflexivity.
Qed.

Lemma C6_module_structure_witness :
  let p := Program [FuncDecl "void" "main" [] [ExprStmt (FuncCall "helper" [Literal (VInt 2)])];
                    FuncDecl "int" "helper" [("int", "n")] [ReturnStmt (Some (VarRef "n"))]] in
  known_program p = true /\
  compile_program p =
    Ok (String.concat NL
          ["#include <stdio.h>"; "#include <stdlib.h>"; "#include <string.h>";
           "#include <stdbool.h>"; EmptyString;
           "void main(void);"; "int helper(int n);"; EmptyString;
           "void main(void) {"; "    helper(2);"; "}"; EmptyString;
           "int helper(int n) {"; "    return n;"; "}"; EmptyString]).
Proof.
  intros p. split; [reflexivity|].
  exact (proj1 (C6_module_structure p eq_refl)).
Defined.

(** C7.  A variable declaration lowers to one line per declarator, in
    declarator order: [T name;] without an initializer, [T name = expr;]
    with one. *)
Theorem C7_vardecl_lowering (vtype : string) (names : list (string * option expr))
    (st : gen_state) :
  forallb known_declarator names = true ->
  gen_stmt (VarDecl vtype names) st =
    Ok (tt, appended st (map (decl_line (indent_level st) (map_type vtype)) names)) /\
  (forall lvl c n, decl_line lvl c (n, None) = indent lvl (c ++ " " ++ n ++ ";")) /\
  (forall lvl c n e,
     decl_line lvl c (n, Some e) = indent lvl (c ++ " " ++ n ++ " = " ++ expr_str e ++ ";")).
Proof.
  intros K. split; [|split; reflexivity].
  apply (gen_stmt_known (VarDecl vtype names) K).
Qed.

Lemma C7_vardecl_lowering_witness :
  let names := [("a", None); ("b", Some (BinaryExpr (Literal (VInt 3)) "+" (VarRef "a")));
                ("c", Some (FuncCall "input" []))] in
  forallb known_declarator names = true /\
  gen_stmt (VarDecl "float" names) init_state =
    Ok (tt, appended init_state ["double a;"; "double b = (3 + a);"; "double c = getchar();"]).
Proof.
  intros names. split; [reflexivity|].
  exact (proj1 (C7_vardecl_lowering "float" names init_state eq_refl)).
Defined.

(** The lowering of a [for] statement in general: the declarations of a
    declaring init clause go before the loop, its initializers are joined
    with [; ] in front of the condition; an expression init clause is put
    there as it is; a missing condition is [1], a missing post-expression
    is empty. *)
Lemma for_stmt_lowering (init : option stmt) (c post : option expr)
    (b : list stmt) (st : gen_state) :
  known_stmt (ForStmt init c post b) = true ->
  gen_stmt (ForStmt init c post b) st =
    Ok (tt, appended st
              (hoisted_lines (indent_level st) init ++
               [indent (indent_level st)
                  (for_header (for_init_str init) (opt_expr_str c "1")
                              (opt_expr_str post EmptyString))] ++
               block_lines (indent_level st + 1) b ++
               [indent (indent_level st) "}"])).
Proof. intros K. apply (gen_stmt_known _ K). Qed.

(** C2.  [for (int i = 0, j = 1; i < j; i = i + 1) { }]: both variables are
    declared before the loop, but the two initializers are joined with
    [; ], so the emitted header has four clauses: read as a header of
    three, its condition slot holds the second initializer. *)
Theorem C2_for_two_initializers :
  let s := ForStmt
             (Some (VarDecl "int" [("i", Some (Literal (VInt 0)));
                                   ("j", Some (Literal (VInt 1)))]))
             (Some (BinaryExpr (VarRef "i") "<" (VarRef "j")))
             (Some (AssignExpr "i" (BinaryExpr (VarRef "i") "+" (Literal (VInt 1)))))
             [] in
  gen_stmt s init_state =
    Ok (tt, appended init_state
              ["int i;"; "int j;";
               "for (i = 0; j = 1; (i < j); i = (i + 1)) {"; "}"]) /\
  "for (i = 0; j = 1; (i < j); i = (i + 1)) {" =
    for_header "i = 0" "j = 1" "(i < j); i = (i + 1)".
Proof. split; reflexivity. Qed.






End CodegenFacts.

(** * Properties of the tokenizer *)

Module LexerFacts.
Import Lexer.

(** ** The rules consume a non-empty prefix *)

Lemma span_split (p : ascii -> bool) (s a b : string) :
  span p s = (a, b) -> s = a ++ b.
Proof.
  revert a b. induction s as [|c s IH]; simpl; intros a b H.
  - inversion H. reflexivity.
  - destruct (p c).
    + destruct (span p s) as [a' b'] eqn:E. inversion H; subst.
      simpl. f_equal. apply IH. reflexivity.
    + inversion H. reflexivity.
Qed.

Lemma append_assoc (a b c : string) : (a ++ b) ++ c = a ++ (b ++ c).
Proof. induction a; simpl; congruence. Qed.

Lemma match_comment_consumes s val rest :
  match_comment s = Some (val, rest) -> consumes s val rest.
Proof.
  unfold match_comment. destruct s as [|c1 [|c2 s]]; try discriminate.
  - destruct c1 as [[] [] [] [] [] [] [] []]; discriminate.
  - destruct (Ascii.eqb_spec c1 "/") as [->|N1].
    2:{ destruct c1 as [[] [] [] [] [] [] [] []]; try discriminate. contradiction. }
    destruct (Ascii.eqb_spec c2 "/") as [->|N2].
    2:{ destruct c2 as [[] [] [] [] [] [] [] []]; try discriminate. contradiction. }
    destruct (span _ s) as [a b] eqn:E. intros H. inversion H; subst.
    apply span_split in E. subst. split; [reflexivity|discriminate].
Qed.

Lemma match_whitespace_consumes s val rest :
  match_whitespace s = Some (val, rest) -> consumes s val rest.
Proof.
  unfold match_whitespace. destruct (span is_space s) as [a b] eqn:E.
  apply span_split in E. destruct a; [discriminate|].
  intros H. inversion H; subst. split; [reflexivity|discriminate].
Qed.

Lemma match_number_consumes s val rest :
  match_number s = Some (val, rest) -> consumes s val rest.
Proof.
  unfold match_number. destruct (span is_digit s) as [ds b] eqn:E.
  apply span_split in E. destruct ds as [|d ds]; [discriminate|].
  assert (Hplain : Some (String d ds, b) = Some (val, rest) -> consumes s val rest).
  { intros H. inversion H; subst. split; [reflexivity|discriminate]. }
  destruct b as [|c b]; [exact Hplain|].
  destruct (Ascii.eqb_spec c ".") as [->|N].
  2:{ destruct c as [[] [] [] [] [] [] [] []]; try exact Hplain. contradiction. }
  destruct (span is_digit b) as [fs r] eqn:F. apply span_split in F.
  destruct fs as [|f fs]; [exact Hplain|].
  intros H. inversion H; subst. split; [|discriminate].
  simpl. f_equal. rewrite append_assoc. reflexivity.
Qed.

Lemma string_body_split s a b :
  string_body s = Some (a, b) -> s = a ++ b.
Proof.
  revert a b. induction s as [s IH] using (well_founded_induction
    (Wf_nat.well_founded_ltof _ String.length)).
  intros a b. destruct s as [|c s]; [discriminate|].
  destruct (Ascii.eqb_spec c "034") as [->|Nq].
  { simpl. intros H. inversion H. reflexivity. }
  destruct (Ascii.eqb_spec c "092") as [->|Nb].
  - destruct s as [|c2 s]; [discriminate|].
    cbn [string_body]. destruct (is_newline c2); [discriminate|].
    destruct (string_body s) as [[a' b']|] eqn:E; [|discriminate].
    intros H. inversion H; subst. simpl. do 2 f_equal.
    apply IH; [unfold ltof; simpl; lia|exact E].
  - assert (H : string_body (String c s) =
                match string_body s with
                | Some (a, b) => Some (String c a, b)
                | None => None
                end).
    { destruct c as [[] [] [] [] [] [] [] []]; try reflexivity; contradiction. }
    rewrite H. destruct (string_body s) as [[a' b']|] eqn:E; [|discriminate].
    intros H'. inversion H'; subst. simpl. f_equal.
    apply IH; [unfold ltof; simpl; lia|exact E].
Qed.

Lemma match_string_quote c s :
  c <> "034"%char -> match_string (String c s) = None.
Proof.
  intros N. destruct c as [[] [] [] [] [] [] [] []]; try reflexivity; contradiction.
Qed.

Lemma match_string_consumes s val rest :
  match_string s = Some (val, rest) -> consumes s val rest.
Proof.
  destruct s as [|c s]; [discriminate|].
  destruct (Ascii.eqb_spec c "034") as [->|N].
  - simpl. destruct (string_body s) as [[a b]|] eqn:E; [|discriminate].
    apply string_body_split in E. intros H. inversion H; subst.
    split; [reflexivity|discriminate].
  - rewrite (match_string_quote c s N). discriminate.
Qed.

Lemma match_id_consumes s val rest :
  match_id s = Some (val, rest) -> consumes s val rest.
Proof.
  unfold match_id. destruct s as [|c s]; [discriminate|].
  destruct (is_id_start c); [|discriminate].
  destruct (span is_id_char s) as [a b] eqn:E. apply span_split in E.
  intros H. inversion H; subst. split; [reflexivity|discriminate].
Qed.

Lemma match_op_consumes s val rest :
  match_op s = Some (val, rest) -> consumes s val rest.
Proof.
  unfold match_op. destruct s as [|a [|b s]]; [discriminate| |].
  - destruct (is_op_char a); [|discriminate].
    intros H. inversion H; subst. split; [reflexivity|discriminate].
  - destruct (is_op2 a b).
    + intros H. inversion H; subst. split; [reflexivity|discriminate].
    + destruct (is_op_char a); [|discriminate].
      intros H. inversion H; subst. split; [reflexivity|discriminate].
Qed.

Lemma master_match_consumes s kind val rest :
  master_match s = Some (kind, val, rest) -> consumes s val rest.
Proof.
  unfold master_match, TOKEN_SPEC, first_match.
  destruct (match_comment s) as [[v r]|] eqn:E1.
  { intros H. inversion H; subst. apply match_comment_consumes, E1. }
  destruct (match_whitespace s) as [[v r]|] eqn:E2.
  { intros H. inversion H; subst. apply match_whitespace_consumes, E2. }
  destruct (match_number s) as [[v r]|] eqn:E3.
  { intros H. inversion H; subst. apply match_number_consumes, E3. }
  destruct (match_string s) as [[v r]|] eqn:E4.
  { intros H. inversion H; subst. apply match_string_consumes, E4. }
  destruct (match_id s) as [[v r]|] eqn:E5.
  { intros H. inversion H; subst. apply match_id_consumes, E5. }
  destruct (match_op s) as [[v r]|] eqn:E6; [|discriminate].
  intros H. inversion H; subst. apply match_op_consumes, E6.
Qed.

Lemma length_append (a b : string) :
  String.length (a ++ b) = (String.length a + String.length b)%nat.
Proof. induction a; simpl; auto. Qed.

Lemma consumes_shorter s val rest :
  consumes s val rest -> (String.length rest < String.length s)%nat.
Proof.
  intros [-> N]. rewrite length_append. destruct val; [contradiction|].
  simpl. lia.
Qed.

(** ** The loop *)

Lemma scan_enough_fuel (fuel1 : nat) :
  forall fuel2 pos s tokens,
    (String.length s <= fuel1)%nat -> (String.length s <= fuel2)%nat ->
    scan fuel1 pos s tokens = scan fuel2 pos s tokens.
Proof.
  induction fuel1 as [|fuel1 IH]; intros fuel2 pos s tokens H1 H2.
  - destruct s; [|simpl in H1; lia]. destruct fuel2; reflexivity.
  - destruct s as [|c s]; [destruct fuel2; reflexivity|].
    cbn [scan]. destruct (master_match (String c s)) as [[[kind val] rest]|] eqn:M.
    2:{ destruct fuel2; cbn [scan]; rewrite M; reflexivity. }
    pose proof (consumes_shorter _ _ _ (master_match_consumes _ _ _ _ M)) as L.
    destruct fuel2 as [|fuel2]; [simpl in H2; lia|].
    cbn [scan]. rewrite M. apply IH; lia.
Qed.

Lemma scan_total (fuel : nat) :
  forall pos s tokens,
    (String.length s <= fuel)%nat -> scan fuel pos s tokens <> None.
Proof.
  induction fuel as [|fuel IH]; intros pos s tokens H.
  - destruct s; [discriminate|simpl in H; lia].
  - destruct s as [|c s]; [discriminate|].
    cbn [scan]. destruct (master_match (String c s)) as [[[kind val] rest]|] eqn:M;
      [|discriminate].
    pose proof (consumes_shorter _ _ _ (master_match_consumes _ _ _ _ M)) as L.
    apply IH. lia.
Qed.

(** The tokenizer follows the positions [reaches] lists. *)
Lemma tokenize_from_reached (text : string) pos s tokens :
  reaches text pos s tokens ->
  tokenize text = scan (String.length s) pos s tokens.
Proof.
  induction 1 as [|pos s tokens kind val rest _ IH M]; [reflexivity|].
  rewrite IH.
  pose proof (consumes_shorter _ _ _ (master_match_consumes _ _ _ _ M)) as L.
  destruct s as [|c s]; [simpl in L; lia|].
  cbn [String.length scan]. rewrite M.
  apply scan_enough_fuel; simpl in L; lia.
Qed.

Lemma reaches_split (text : string) pos s tokens :
  reaches text pos s tokens ->
  exists pre, text = pre ++ s /\ String.length pre = pos.
Proof.
  induction 1 as [|pos s tokens kind val rest _ [pre [Ht Hl]] M].
  - exists EmptyString. split; reflexivity.
  - destruct (master_match_consumes _ _ _ _ M) as [-> _].
    exists (pre ++ val). rewrite append_assoc, length_append. split; [exact Ht|lia].
Qed.

Lemma get_after_prefix (pre : string) (c : ascii) (s : string) :
  String.get (String.length pre) (pre ++ String c s) = Some c.
Proof. induction pre; simpl; auto. Qed.

(** What the loop returns was found at a position it reached. *)
Lemma scan_result (text : string) (fuel : nat) :
  forall pos s tokens r,
    reaches text pos s tokens ->
    scan fuel pos s tokens = Some r ->
    match r with
    | Tokens ts =>
        exists pos' tokens',
          reaches text pos' EmptyString tokens' /\
          ts = (tokens' ++ [("EOF", EmptyString)])%list
    | Unexpected pos' c =>
        exists s' tokens',
          reaches text pos' (String c s') tokens' /\
          master_match (String c s') = None
    end.
Proof.
  induction fuel as [|fuel IH]; intros pos s tokens r R H.
  - destruct s as [|c s]; cbn [scan] in H.
    + inversion H; subst. eauto.
    + destruct (master_match (String c s)) as [[[kind val] rest]|] eqn:M;
        [discriminate|].
      inversion H; subst. eauto.
  - destruct s as [|c s]; cbn [scan] in H.
    + inversion H; subst. eauto.
    + destruct (master_match (String c s)) as [[[kind val] rest]|] eqn:M.
      * apply (IH _ _ _ _ (reaches_step _ _ _ _ _ _ _ R M) H).
      * inversion H; subst. eauto.
Qed.

(** ** Kinds of the tokens *)

Lemma keyword_kind (val : string) :
  is_keyword val = true -> skipped_kind (upper val) = false.
Proof.
  unfold is_keyword. intros H. apply existsb_exists in H as [k [Hin Heq]].
  apply String.eqb_eq in Heq. subst k.
  simpl in Hin.
  repeat (destruct Hin as [<-|Hin]; [reflexivity|]). contradiction.
Qed.

Lemma push_token_kinds kind val tokens :
  Forall (fun t => skipped_kind (fst t) = false) tokens ->
  Forall (fun t => skipped_kind (fst t) = false) (push_token kind val tokens).
Proof.
  intros H. unfold push_token.
  destruct (skipped_kind kind) eqn:K; [exact H|].
  destruct ((kind =? "ID") && is_keyword val) eqn:E.
  - apply andb_true_iff in E as [_ E]. apply Forall_app. split; [exact H|].
    constructor; [apply keyword_kind, E|constructor].
  - apply Forall_app. split; [exact H|]. constructor; [exact K|constructor].
Qed.

Lemma reaches_kinds (text : string) pos s tokens :
  reaches text pos s tokens ->
  Forall (fun t => skipped_kind (fst t) = false) tokens.
Proof.
  induction 1; [constructor|]. apply push_token_kinds. assumption.
Qed.

(** ** Positions where no rule matches *)

Lemma stray_no_match (c : ascii) (s : string) :
  stray c = true -> master_match (String c s) = None.
Proof.
  intros H. destruct s as [|b s];
    destruct c as [[] [] [] [] [] [] [] []]; try discriminate H; reflexivity.
Qed.

Lemma unterminated_no_match (s : string) :
  string_body s = None -> master_match (DQ ++ s) = None.
Proof.
  intros H. unfold master_match, TOKEN_SPEC, first_match.
  change (match_comment (DQ ++ s)) with (@None (string * string)).
  change (match_whitespace (DQ ++ s)) with (@None (string * string)).
  change (match_number (DQ ++ s)) with (@None (string * string)).
  change (match_id (DQ ++ s)) with (@None (string * string)).
  assert (E : match_string (DQ ++ s) = None) by (simpl; rewrite H; reflexivity).
  rewrite E. destruct s; reflexivity.
Qed.

Lemma advance_reaches (text : string) (n : nat) :
  forall pos s tokens pos' s' tokens',
    reaches text pos s tokens ->
    advance n pos s tokens = (pos', s', tokens') ->
    reaches text pos' s' tokens'.
Proof.
  induction n as [|n IH]; intros pos s tokens pos' s' tokens' R H; cbn [advance] in H.
  - inversion H; subst. exact R.
  - destruct (master_match s) as [[[kind val] rest]|] eqn:M.
    + apply (IH _ _ _ _ _ _ (reaches_step _ _ _ _ _ _ _ R M) H).
    + inversion H; subst. exact R.
Qed.

Lemma tokenize_total (text : string) : tokenize text <> None.
Proof. apply scan_total. lia. Qed.

(** ** The claim about the tokenizer *)

(** C9.  If the loop comes to a position where no rule matches, [tokenize]
    fails there, naming that position and the character at it, and gives
    no tokens.  A character that starts no rule and the opening quote of a
    string that is not closed are such positions.  Otherwise the text is
    read to its end and the result is a token list without [WHITESPACE] or
    [COMMENT] tokens that ends in the [EOF] token.  One of the two always
    happens. *)
Theorem C9_tokenize_fails_or_completes (text : string) :
  (forall pos c s tokens,
     reaches text pos (String c s) tokens ->
     master_match (String c s) = None ->
     tokenize text = Some (Unexpected pos c) /\ String.get pos text = Some c) /\
  (forall c s, stray c = true -> master_match (String c s) = None) /\
  (forall s, string_body s = None -> master_match (DQ ++ s) = None) /\
  (forall ts,
     tokenize text = Some (Tokens ts) ->
     (exists pos tokens,
        reaches text pos EmptyString tokens /\
        ts = (tokens ++ [("EOF", EmptyString)])%list) /\
     Forall (fun t => skipped_kind (fst t) = false) ts) /\
  ((exists ts, tokenize text = Some (Tokens ts)) \/
   (exists pos c s tokens,
      tokenize text = Some (Unexpected pos c) /\
      reaches text pos (String c s) tokens /\
      master_match (String c s) = None)).
Proof.
  split; [|split; [|split; [|split]]].
  - intros pos c s tokens R M. split.
    + rewrite (tokenize_from_reached _ _ _ _ R). cbn [String.length scan].
      rewrite M. reflexivity.
    + destruct (reaches_split _ _ _ _ R) as [pre [-> <-]].
      apply get_after_prefix.
  - exact stray_no_match.
  - exact unterminated_no_match.
  - intros ts H.
    pose proof (scan_result text _ _ _ _ _ (reaches_start text) H) as [pos [tokens [R ->]]].
    split; [eauto|].
    apply Forall_app. split; [apply (reaches_kinds _ _ _ _ R)|].
    constructor; [reflexivity|constructor].
  - destruct (tokenize text) as [r|] eqn:H; [|destruct (tokenize_total text H)].
    pose proof (scan_result text _ _ _ _ _ (reaches_start text) H) as R.
    destruct r as [ts|pos c].
    + left. eauto.
    + right. destruct R as [s [tokens [R M]]]. exists pos, c, s, tokens. auto.
Qed.

(** A stray [@] after three tokens, and a string that is never closed. *)
Lemma C9_tokenize_fails_or_completes_witness :
  (reaches "int x = @1;" 8 "@1;" [("INT", "int"); ("ID", "x"); ("OP", "=")] /\
   master_match "@1;" = None /\
   tokenize "int x = @1;" = Some (Unexpected 8 "@") /\
   String.get 8 "int x = @1;" = Some "@"%char) /\
  (string_body "abc;" = None /\
   master_match (DQ ++ "abc;") = None) /\
  (tokenize "if (a<=b) // c" =
     Some (Tokens [("IF", "if"); ("OP", "("); ("ID", "a"); ("OP", "<="); ("ID", "b");
                   ("OP", ")"); ("EOF", EmptyString)]) /\
   Forall (fun t => skipped_kind (fst t) = false)
     [("IF", "if"); ("OP", "("); ("ID", "a"); ("OP", "<="); ("ID", "b");
      ("OP", ")"); ("EOF", EmptyString)]).
Proof.
  assert (R : reaches "int x = @1;" 8 "@1;" [("INT", "int"); ("ID", "x"); ("OP", "=")]).
  { apply (advance_reaches "int x = @1;" 6 0 "int x = @1;" []);
      [apply reaches_start|reflexivity]. }
  split; [|split].
  - split; [exact R|]. split; [reflexivity|].
    exact (proj1 (C9_tokenize_fails_or_completes "int x = @1;") 8 "@"%char "1;"
             [("INT", "int"); ("ID", "x"); ("OP", "=")] R eq_refl).
  - split; [reflexivity|].
    apply (proj1 (proj2 (proj2 (C9_tokenize_fails_or_completes EmptyString)))).
    reflexivity.
  - split; [reflexivity|].
    apply (proj1 (proj2 (proj2 (proj2 (C9_tokenize_fails_or_completes "if (a<=b) // c"))))).
    reflexivity.
Defined.

End LexerFacts.

(** * Properties of the parser *)

Module ParserFacts.
Import Ast Parser.

(** ** More fuel never changes an answer *)

Section Fuel.
Context {B : Builtins}.
Variable tokens : list token.

Lemma approx_refl {A} (r : outcome A) : approx r r.
Proof. right. reflexivity. Qed.

Lemma approx_bind {A C} (m1 m2 : parser A) (k1 k2 : A -> parser C) (pos : nat) :
  approx (m1 pos) (m2 pos) ->
  (forall a p, approx (k1 a p) (k2 a p)) ->
  approx (bind m1 k1 pos) (bind m2 k2 pos).
Proof.
  intros [H|H] K; unfold bind.
  - rewrite H. left. reflexivity.
  - rewrite H. destruct (m2 pos); [apply K|apply approx_refl|apply approx_refl].
Qed.

Ltac approx_step IH :=
  first
    [ apply approx_refl
    | apply IH; lia
    | apply approx_bind; [|intros ? ?]
    | match goal with
      | |- approx ((if ?c then _ else _) _) _ => destruct c
      | |- approx (match ?x with Some _ => _ | None => _ end _) _ => destruct x
      end ].

Lemma fuel_monotone (n : nat) :
  forall n', (n <= n')%nat ->
    (forall m pos, approx (parse_expr tokens n m pos) (parse_expr tokens n' m pos)) /\
    (forall m l pos, approx (parse_binary tokens n m l pos) (parse_binary tokens n' m l pos)) /\
    (forall pos, approx (parse_primary tokens n pos) (parse_primary tokens n' pos)) /\
    (forall a pos, approx (parse_args tokens n a pos) (parse_args tokens n' a pos)).
Proof.
  induction n as [|n IH]; intros n' Hle.
  - repeat split; intros; left; reflexivity.
  - destruct n' as [|n']; [lia|].
    destruct (IH n' ltac:(lia)) as [IHe [IHb [IHp IHa]]].
    repeat split; intros.
    + cbn [parse_expr].
      repeat first [apply IHe | apply IHb | apply IHp | apply IHa | approx_step IH].
    + cbn [parse_binary].
      repeat first [apply IHe | apply IHb | apply IHp | apply IHa | approx_step IH].
    + cbn [parse_primary].
      repeat first [apply IHe | apply IHb | apply IHp | apply IHa | approx_step IH].
    + cbn [parse_args].
      repeat first [apply IHe | apply IHb | apply IHp | apply IHa | approx_step IH].
Qed.


(** ** Every method that returns has consumed tokens *)

Lemma bind_done {A C} (m : parser A) (k : A -> parser C) pos c pos'' :
  bind m k pos = Done c pos'' ->
  exists a pos', m pos = Done a pos' /\ k a pos' = Done c pos''.
Proof.
  unfold bind. destruct (m pos) as [a pos'| |]; try discriminate. eauto.
Qed.

Lemma advances_bind {A C} (k1 k2 k : nat) (m : parser A) (f : A -> parser C) :
  advances k1 m -> (forall a, advances k2 (f a)) -> (k <= k1 + k2)%nat ->
  advances k (bind m f).
Proof.
  intros Hm Hf Hk pos c pos'' H.
  apply bind_done in H as [a [pos' [H1 H2]]].
  apply Hm in H1. apply Hf in H2. lia.
Qed.

Lemma advances_weaken {A} (k k' : nat) (m : parser A) :
  advances k m -> (k' <= k)%nat -> advances k' m.
Proof. intros H Hk pos a pos' E. apply H in E. lia. Qed.

Lemma advances_ret {A} (a : A) : advances 0 (ret a).
Proof. intros pos b pos' H. inversion H. lia. Qed.

Lemma advances_raise {A} (k : nat) (e : exn) : advances k (@raise A e).
Proof. intros pos b pos' H. discriminate. Qed.

Lemma advances_out_of_fuel {A} (k : nat) : advances k (fun _ => @OutOfFuel A).
Proof. intros pos b pos' H. discriminate. Qed.

Lemma advances_peek : advances 0 (peek tokens).
Proof.
  intros pos t pos' H. unfold peek in H.
  destruct (nth_error tokens pos); inversion H. lia.
Qed.

Lemma advances_next : advances 1 (next tokens).
Proof.
  intros pos t pos' H. unfold next in H.
  destruct (nth_error tokens pos); inversion H. lia.
Qed.

Lemma advances_expect typ : advances 1 (expect tokens typ).
Proof.
  apply (advances_bind 1 0); [apply advances_next| |lia].
  intros t. destruct (negb _); [apply advances_raise|apply advances_ret].
Qed.

Lemma advances_expect_op s : advances 1 (expect_op tokens s).
Proof.
  apply (advances_bind 1 0); [apply advances_next| |lia].
  intros t. destruct (negb _); [apply advances_raise|apply advances_ret].
Qed.

Lemma advances_expect_type : advances 1 (expect_type tokens).
Proof.
  apply (advances_bind 0 1); [apply advances_peek| |lia].
  intros t. destruct (is_type_kind _); [apply advances_next|apply advances_raise].
Qed.

Lemma advances_convert {A} (f : string -> option A) e s : advances 0 (convert f e s).
Proof. unfold convert. destruct (f s); [apply advances_ret|apply advances_raise]. Qed.

Lemma progress (n : nat) :
  (forall m, advances 1 (parse_expr tokens n m)) /\
  (forall m l, advances 0 (parse_binary tokens n m l)) /\
  advances 1 (parse_primary tokens n) /\
  (forall a, advances 1 (parse_args tokens n a)).
Proof.
  induction n as [|n [IHe [IHb [IHp IHa]]]].
  - repeat split; intros; apply advances_out_of_fuel.
  - repeat split; intros.
    + cbn [parse_expr].
      apply (advances_bind 0 1); [apply advances_peek| |lia]. intros t.
      apply (advances_bind 1 0); [| intros; apply IHb | lia].
      destruct (is_unary_op _); [|apply IHp].
      apply (advances_bind 1 0); [apply advances_next| |lia]. intros op.
      apply (advances_bind 0 0); [|intros; apply advances_ret|lia].
      apply (advances_weaken 1); [apply IHe|lia].
    + cbn [parse_binary].
      apply (advances_bind 0 0); [apply advances_peek| |lia]. intros t.
      destruct (PRECEDENCE _); [|apply advances_ret].
      destruct (_ <? _)%Z; [apply advances_ret|].
      apply (advances_bind 1 0); [apply advances_next| |lia]. intros _.
      apply (advances_bind 1 0); [apply IHe| |lia]. intros r. apply IHb.
    + cbn [parse_primary].
      apply (advances_bind 0 1); [apply advances_peek| |lia]. intros t.
      destruct (fst t =? "NUMBER").
      { apply (advances_bind 1 0); [apply advances_next| |lia]. intros tok.
        destruct (has_dot _);
          (apply (advances_bind 0 0); [apply advances_convert| |lia]);
          intros; apply advances_ret. }
      destruct (fst t =? "STRING").
      { apply (advances_bind 1 0); [apply advances_next| |lia]. intros tok.
        apply (advances_bind 0 0); [apply advances_convert| |lia].
        intros; apply advances_ret. }
      destruct ((fst t =? "TRUE") || (fst t =? "FALSE")).
      { apply (advances_bind 1 0); [apply advances_next| |lia]. intros tok.
        apply advances_ret. }
      destruct (fst t =? "ID").
      { apply (advances_bind 1 0); [apply advances_next| |lia]. intros name.
        apply (advances_bind 0 0); [apply advances_peek| |lia]. intros t1.
        destruct (snd t1 =? "(").
        - apply (advances_bind 0 0); [apply (advances_weaken 1);
            [apply advances_next|lia]| |lia]. intros _.
          apply (advances_bind 0 0); [apply advances_peek| |lia]. intros t2.
          apply (advances_bind 0 0); [| |lia].
          + destruct (negb _); [apply (advances_weaken 1); [apply IHa|lia]
                               |apply advances_ret].
          + intros args.
            apply (advances_bind 0 0); [apply (advances_weaken 1);
              [apply advances_expect_op|lia]| |lia].
            intros; apply advances_ret.
        - apply (advances_bind 0 0); [apply advances_peek| |lia]. intros t3.
          destruct (snd t3 =? "="); [|apply advances_ret].
          apply (advances_bind 0 0); [apply (advances_weaken 1);
            [apply advances_next|lia]| |lia]. intros _.
          apply (advances_bind 0 0); [apply (advances_weaken 1); [apply IHe|lia]| |lia].
          intros; apply advances_ret. }
      destruct (snd t =? "("); [|apply advances_raise].
      apply (advances_bind 1 0); [apply advances_next| |lia]. intros _.
      apply (advances_bind 0 0); [apply (advances_weaken 1); [apply IHe|lia]| |lia].
      intros e.
      apply (advances_bind 0 0); [apply (advances_weaken 1);
        [apply advances_expect_op|lia]| |lia].
      intros; apply advances_ret.
    + cbn [parse_args].
      apply (advances_bind 1 0); [apply IHe| |lia]. intros e.
      apply (advances_bind 0 0); [apply advances_peek| |lia]. intros t.
      destruct (snd t =? ","); [|apply advances_ret].
      apply (advances_bind 0 0); [apply (advances_weaken 1);
        [apply advances_next|lia]| |lia]. intros _.
      apply (advances_weaken 1); [apply IHa|lia].
Qed.

(** ** Fuel that is enough *)

Lemma bind_finishes {A C} (m : parser A) (k : A -> parser C) pos :
  m pos <> OutOfFuel ->
  (forall a pos', m pos = Done a pos' -> k a pos' <> OutOfFuel) ->
  bind m k pos <> OutOfFuel.
Proof.
  unfold bind. intros Hm Hk. destruct (m pos) as [a pos'| |];
    [apply Hk; reflexivity|discriminate|contradiction].
Qed.

Lemma peek_done pos t pos' :
  peek tokens pos = Done t pos' ->
  pos' = pos /\ nth_error tokens pos = Some t /\ (pos < List.length tokens)%nat.
Proof.
  unfold peek. destruct (nth_error tokens pos) eqn:E; intros H; inversion H; subst.
  repeat split. apply nth_error_Some. congruence.
Qed.

Lemma next_done pos t pos' :
  next tokens pos = Done t pos' ->
  pos' = S pos /\ nth_error tokens pos = Some t /\ (pos < List.length tokens)%nat.
Proof.
  unfold next. destruct (nth_error tokens pos) eqn:E; intros H; inversion H; subst.
  repeat split. apply nth_error_Some. congruence.
Qed.

Lemma peek_finishes pos : peek tokens pos <> OutOfFuel.
Proof. unfold peek. destruct (nth_error tokens pos); discriminate. Qed.

Lemma next_finishes pos : next tokens pos <> OutOfFuel.
Proof. unfold next. destruct (nth_error tokens pos); discriminate. Qed.

Lemma ret_finishes {A} (a : A) pos : ret a pos <> OutOfFuel.
Proof. discriminate. Qed.

Lemma raise_finishes {A} e pos : @raise A e pos <> OutOfFuel.
Proof. discriminate. Qed.

Lemma expect_finishes typ pos : expect tokens typ pos <> OutOfFuel.
Proof.
  apply bind_finishes; [apply next_finishes|]. intros t p _.
  destruct (negb _); discriminate.
Qed.

Lemma expect_op_finishes s pos : expect_op tokens s pos <> OutOfFuel.
Proof.
  apply bind_finishes; [apply next_finishes|]. intros t p _.
  destruct (negb _); discriminate.
Qed.

Lemma expect_type_finishes pos : expect_type tokens pos <> OutOfFuel.
Proof.
  apply bind_finishes; [apply peek_finishes|]. intros t p _.
  destruct (is_type_kind _); [apply next_finishes|discriminate].
Qed.

Lemma convert_finishes {A} (f : string -> option A) e s pos :
  convert f e s pos <> OutOfFuel.
Proof. unfold convert. destruct (f s); discriminate. Qed.

Lemma enough_fuel (n : nat) :
  (forall m pos, (2 * (List.length tokens - pos) + 2 <= n)%nat ->
     parse_expr tokens n m pos <> OutOfFuel) /\
  (forall m l pos, (2 * (List.length tokens - pos) + 1 <= n)%nat ->
     parse_binary tokens n m l pos <> OutOfFuel) /\
  (forall pos, (2 * (List.length tokens - pos) + 1 <= n)%nat ->
     parse_primary tokens n pos <> OutOfFuel) /\
  (forall a pos, (2 * (List.length tokens - pos) + 3 <= n)%nat ->
     parse_args tokens n a pos <> OutOfFuel).
Proof.
  induction n as [|n [IHe [IHb [IHp IHa]]]].
  - repeat split; intros; lia.
  - destruct (progress n) as [Pe [Pb [Pp Pa]]].
    repeat split; intros.
    + cbn [parse_expr].
      apply bind_finishes; [apply peek_finishes|]. intros t p Ht.
      apply peek_done in Ht as [-> [_ Hlt]].
      apply bind_finishes.
      * destruct (is_unary_op _); [|apply IHp; lia].
        apply bind_finishes; [apply next_finishes|]. intros op p Hop.
        apply next_done in Hop as [-> [_ ?]].
        apply bind_finishes; [apply IHe; lia|]. intros; apply ret_finishes.
      * intros left p Hleft. apply IHb.
        assert (pos + 1 <= p)%nat; [|lia].
        destruct (is_unary_op _); [|apply (Pp _ _ _ Hleft)].
        apply bind_done in Hleft as [op [p1 [H1 H2]]].
        apply next_done in H1 as [-> [_ ?]].
        apply bind_done in H2 as [e [p2 [H2 H3]]].
        apply Pe in H2. inversion H3. lia.
    + cbn [parse_binary].
      apply bind_finishes; [apply peek_finishes|]. intros t p Ht.
      apply peek_done in Ht as [-> [_ Hlt]].
      destruct (PRECEDENCE _); [|apply ret_finishes].
      destruct (_ <? _)%Z; [apply ret_finishes|].
      apply bind_finishes; [apply next_finishes|]. intros op p Hop.
      apply next_done in Hop as [-> [_ ?]].
      apply bind_finishes; [apply IHe; lia|]. intros r p Hr.
      apply Pe in Hr. apply IHb. lia.
    + cbn [parse_primary].
      apply bind_finishes; [apply peek_finishes|]. intros t p Ht.
      apply peek_done in Ht as [-> [_ Hlt]].
      destruct (fst t =? "NUMBER").
      { apply bind_finishes; [apply next_finishes|]. intros tok p _.
        destruct (has_dot _);
          (apply bind_finishes; [apply convert_finishes|]);
          intros; apply ret_finishes. }
      destruct (fst t =? "STRING").
      { apply bind_finishes; [apply next_finishes|]. intros tok p _.
        apply bind_finishes; [apply convert_finishes|].
        intros; apply ret_finishes. }
      destruct ((fst t =? "TRUE") || (fst t =? "FALSE")).
      { apply bind_finishes; [apply next_finishes|]. intros; apply ret_finishes. }
      destruct (fst t =? "ID").
      { apply bind_finishes; [apply next_finishes|]. intros name p Hn.
        apply next_done in Hn as [-> [_ ?]].
        apply bind_finishes; [apply peek_finishes|]. intros t1 p Hp1.
        apply peek_done in Hp1 as [-> [_ ?]].
        destruct (snd t1 =? "(").
        - apply bind_finishes; [apply next_finishes|]. intros x p Hx.
          apply next_done in Hx as [-> [_ ?]].
          apply bind_finishes; [apply peek_finishes|]. intros t2 p Hp2.
          apply peek_done in Hp2 as [-> [_ ?]].
          apply bind_finishes.
          + destruct (negb _); [apply IHa; lia|apply ret_finishes].
          + intros args p _.
            apply bind_finishes; [apply expect_op_finishes|].
            intros; apply ret_finishes.
        - apply bind_finishes; [apply peek_finishes|]. intros t3 p Hp3.
          destruct (snd t3 =? "="); [|apply ret_finishes].
          apply peek_done in Hp3 as [-> [_ ?]].
          apply bind_finishes; [apply next_finishes|]. intros x p Hx.
          apply next_done in Hx as [-> [_ ?]].
          apply bind_finishes; [apply IHe; lia|]. intros; apply ret_finishes. }
      destruct (snd t =? "("); [|apply raise_finishes].
      apply bind_finishes; [apply next_finishes|]. intros x p Hx.
      apply next_done in Hx as [-> [_ ?]].
      apply bind_finishes; [apply IHe; lia|]. intros e p _.
      apply bind_finishes; [apply expect_op_finishes|].
      intros; apply ret_finishes.
    + cbn [parse_args].
      apply bind_finishes; [apply IHe; lia|]. intros e p He. apply Pe in He.
      apply bind_finishes; [apply peek_finishes|]. intros t p' Ht.
      apply peek_done in Ht as [-> [_ Hlt]].
      destruct (snd t =? ","); [|apply ret_finishes].
      apply bind_finishes; [apply next_finishes|]. intros x p' Hx.
      apply next_done in Hx as [-> [_ ?]].
      apply IHa. lia.
Qed.

Lemma stable_answer {A} (r r' : outcome A) :
  approx r r' -> r <> OutOfFuel -> r' = r.
Proof. intros [H|H] N; [contradiction|congruence]. Qed.

(** With fuel for twice the tokens and two, [parse_expr] answers, and the
    answer is the same for all fuel from there on. *)
Lemma parse_expr_answers (fuel : nat) (m : Z) (pos : nat) :
  (2 * List.length tokens + 2 <= fuel)%nat ->
  parse_expr tokens fuel m pos <> OutOfFuel /\
  parse_expr tokens fuel m pos = parse_expr tokens (2 * List.length tokens + 2) m pos.
Proof.
  intros H.
  assert (N : parse_expr tokens (2 * List.length tokens + 2) m pos <> OutOfFuel)
    by (apply enough_fuel; lia).
  pose proof (proj1 (fuel_monotone _ _ H) m pos) as Happ.
  rewrite (stable_answer _ _ Happ N). split; [exact N|reflexivity].
Qed.

(** ** The two declaration loops *)

Lemma bind_ext {A C} (m : parser A) (k1 k2 : A -> parser C) pos :
  (forall a p, k1 a p = k2 a p) -> bind m k1 pos = bind m k2 pos.
Proof. intros H. unfold bind. destruct (m pos); auto. Qed.

Lemma vardecl_loops_agree (fuel : nat) :
  forall names pos,
    vardecl_for_loop tokens fuel names pos = vardecl_loop tokens fuel names pos.
Proof.
  induction fuel as [|fuel IH]; intros names pos; [reflexivity|].
  cbn [vardecl_for_loop vardecl_loop].
  apply bind_ext. intros name p1.
  apply bind_ext. intros t p2.
  apply bind_ext. intros init p3.
  apply bind_ext. intros t' p4.
  destruct (snd t' =? ","); [|reflexivity].
  apply bind_ext. intros _ p5. apply IH.
Qed.

Lemma vardecl_loop_monotone (n : nat) :
  forall n' names pos, (n <= n')%nat ->
    approx (vardecl_loop tokens n names pos) (vardecl_loop tokens n' names pos).
Proof.
  induction n as [|n IH]; intros n' names pos Hle; [left; reflexivity|].
  destruct n' as [|n']; [lia|].
  destruct (fuel_monotone n n' ltac:(lia)) as [IHe _].
  cbn [vardecl_loop].
  repeat first [apply IHe | approx_step IH].
Qed.

Lemma vardecl_loop_advances (n : nat) :
  forall names, advances 1 (vardecl_loop tokens n names).
Proof.
  induction n as [|n IH]; intros names; [apply advances_out_of_fuel|].
  cbn [vardecl_loop].
  apply (advances_bind 1 0); [apply advances_expect| |lia]. intros name.
  apply (advances_bind 0 0); [apply advances_peek| |lia]. intros t.
  apply (advances_bind 0 0); [| |lia].
  - destruct (snd t =? "="); [|apply advances_ret].
    apply (advances_bind 0 0); [apply (advances_weaken 1);
      [apply advances_next|lia]| |lia]. intros _.
    apply (advances_bind 0 0); [apply (advances_weaken 1);
      [apply (proj1 (progress n))|lia]| |lia].
    intros; apply advances_ret.
  - intros init.
    apply (advances_bind 0 0); [apply advances_peek| |lia]. intros t'.
    destruct (snd t' =? ","); [|apply advances_ret].
    apply (advances_bind 0 0); [apply (advances_weaken 1);
      [apply advances_next|lia]| |lia]. intros _.
    apply (advances_weaken 1); [apply IH|lia].
Qed.

Lemma expect_done typ pos t pos' :
  expect tokens typ pos = Done t pos' -> pos' = S pos /\ (pos < List.length tokens)%nat.
Proof.
  intros H. apply bind_done in H as [t0 [p [H1 H2]]].
  apply next_done in H1 as [-> [_ Hlt]].
  destruct (negb _); inversion H2. auto.
Qed.

Lemma vardecl_loop_enough (n : nat) :
  forall names pos,
    (2 * (List.length tokens - pos) + 1 <= n)%nat ->
    vardecl_loop tokens n names pos <> OutOfFuel.
Proof.
  induction n as [|n IH]; intros names pos Hn; [lia|].
  cbn [vardecl_loop].
  apply bind_finishes; [apply expect_finishes|]. intros name p Hname.
  apply expect_done in Hname as [-> Hlt].
  apply bind_finishes; [apply peek_finishes|]. intros t p Ht.
  apply peek_done in Ht as [-> [_ Hlt1]].
  apply bind_finishes.
  - destruct (snd t =? "="); [|apply ret_finishes].
    apply bind_finishes; [apply next_finishes|]. intros x p Hx.
    apply next_done in Hx as [-> _].
    apply bind_finishes; [apply enough_fuel; lia|]. intros; apply ret_finishes.
  - intros init p Hinit.
    assert (Hp : (S pos <= p)%nat).
    { destruct (snd t =? "="); [|inversion Hinit; lia].
      apply bind_done in Hinit as [x [p1 [H1 H2]]].
      apply next_done in H1 as [-> _].
      apply bind_done in H2 as [e [p2 [H2 H3]]].
      apply (proj1 (progress n)) in H2. inversion H3. lia. }
    apply bind_finishes; [apply peek_finishes|]. intros t' p' Ht'.
    apply peek_done in Ht' as [-> [_ Hlt2]].
    destruct (snd t' =? ","); [|apply ret_finishes].
    apply bind_finishes; [apply next_finishes|]. intros x p' Hx.
    apply next_done in Hx as [-> _].
    apply IH. lia.
Qed.

Lemma expect_op_done s pos u pos' :
  expect_op tokens s pos = Done u pos' ->
  pos' = S pos /\ exists t, nth_error tokens pos = Some t /\ snd t = s.
Proof.
  intros H. apply bind_done in H as [t [p [H1 H2]]].
  apply next_done in H1 as [-> [Hn _]].
  destruct (String.eqb_spec (snd t) s) as [E|N]; simpl in H2; inversion H2.
  split; [reflexivity|]. exists t. auto.
Qed.

(** ** Operands and the operator loop *)

Lemma skipn_cons {A} (l : list A) (pos : nat) (a : A) (r : list A) :
  skipn pos l = a :: r -> nth_error l pos = Some a /\ skipn (S pos) l = r.
Proof.
  revert l. induction pos as [|pos IH]; intros l H.
  - destruct l; inversion H. split; reflexivity.
  - destruct l as [|b l]; [discriminate|]. apply IH. exact H.
Qed.

Lemma parse_expr_eq (fuel : nat) (m : Z) :
  parse_expr tokens (S fuel) m =
    (t <- peek tokens ;;
     left <- (if is_unary_op (snd t) then
                op <- next tokens ;;
                operand <- parse_expr tokens fuel 7 ;;
                ret (UnaryExpr (snd op) operand)
              else parse_primary tokens fuel) ;;
     parse_binary tokens fuel m left).
Proof. reflexivity. Qed.

Lemma primary_identifier (fuel : nat) (pos : nat) (x : string) (t : token) :
  nth_error tokens pos = Some ("ID", x) ->
  nth_error tokens (S pos) = Some t ->
  (snd t =? "(") = false ->
  (snd t =? "=") = false ->
  parse_primary tokens (S fuel) pos = Done (VarRef x) (S pos).
Proof.
  intros H0 H1 E1 E2.
  cbn [parse_primary]. unfold bind at 1. unfold peek at 1. rewrite H0.
  cbn [fst snd]. change ("ID" =? "NUMBER") with false.
  change ("ID" =? "STRING") with false.
  change (("ID" =? "TRUE") || ("ID" =? "FALSE")) with false.
  change ("ID" =? "ID") with true. cbn iota.
  unfold bind at 1. unfold next at 1. rewrite H0.
  unfold bind at 1. unfold peek at 1. rewrite H1, E1.
  unfold bind at 1. unfold peek at 1. rewrite H1, E2. reflexivity.
Qed.

Lemma binary_loop_step (fuel : nat) (m : Z) (left : expr) (pos : nat) (t : token) :
  nth_error tokens pos = Some t ->
  parse_binary tokens (S fuel) m left pos =
    match PRECEDENCE (snd t) with
    | Some p =>
        if (p <? m)%Z then Done left pos
        else bind (parse_expr tokens fuel (p + 1))
                  (fun right => parse_binary tokens fuel m (BinaryExpr left (snd t) right))
                  (S pos)
    | None => Done left pos
    end.
Proof.
  intros H. cbn [parse_binary]. unfold bind at 1. unfold peek. rewrite H.
  destruct (PRECEDENCE (snd t)) as [p|]; [|reflexivity].
  destruct (p <? m)%Z; [reflexivity|].
  unfold bind at 1. unfold next. rewrite H. reflexivity.
Qed.

Lemma binary_loop_stops (fuel : nat) (m : Z) (left : expr) (pos : nat) (t : token) :
  nth_error tokens pos = Some t ->
  ends_operand m t = true ->
  parse_binary tokens (S fuel) m left pos = Done left pos.
Proof.
  intros H E. rewrite (binary_loop_step _ _ _ _ _ H).
  unfold ends_operand in E. apply andb_true_iff in E as [_ E].
  destruct (PRECEDENCE (snd t)) as [p|]; [|reflexivity]. rewrite E. reflexivity.
Qed.

Lemma ends_operand_weaken (m m' : Z) (t : token) :
  (m <= m')%Z -> ends_operand m t = true -> ends_operand m' t = true.
Proof.
  unfold ends_operand. intros Hm E.
  apply andb_true_iff in E as [E1 E2]. rewrite E1. simpl.
  destruct (PRECEDENCE (snd t)) as [q|]; [|reflexivity].
  apply Z.ltb_lt in E2. apply Z.ltb_lt. lia.
Qed.

Lemma operator_ends_operand (lvl p : Z) (k op : string) :
  PRECEDENCE op = Some p -> (p < lvl)%Z -> ends_operand lvl (k, op) = true.
Proof.
  intros H Hp. unfold ends_operand. cbn [snd]. rewrite H.
  destruct (String.eqb_spec op "(") as [->|_]; [discriminate|].
  destruct (String.eqb_spec op "=") as [->|_]; [discriminate|].
  apply Z.ltb_lt in Hp. rewrite Hp. reflexivity.
Qed.

(** An identifier that is followed by a token ending the operand parses,
    at that level, to a variable reference. *)
Lemma operand_identifier (fuel : nat) (lvl : Z) (pos : nat) (x : string)
    (t : token) (r : list token) :
  skipn pos tokens = ("ID", x) :: t :: r ->
  is_unary_op x = false ->
  ends_operand lvl t = true ->
  parse_expr tokens (S (S fuel)) lvl pos = Done (VarRef x) (S pos).
Proof.
  intros H Hx E. apply skipn_cons in H as [H0 H]. apply skipn_cons in H as [H1 _].
  rewrite parse_expr_eq. unfold bind at 1. unfold peek at 1. rewrite H0.
  cbn [snd]. rewrite Hx. unfold bind.
  pose proof E as E'. unfold ends_operand in E'.
  apply andb_true_iff in E' as [E' _]. apply andb_true_iff in E' as [E1 E2].
  apply negb_true_iff in E1, E2.
  rewrite (primary_identifier _ _ _ _ H0 H1 E1 E2).
  apply (binary_loop_stops _ _ _ _ _ H1 E).
Qed.

Lemma chain_head (rest : list (string * string)) (p : Z) (term : token)
    (suffix : list token) :
  Forall (fun ox => PRECEDENCE (fst ox) = Some p /\ is_unary_op (snd ox) = false) rest ->
  ends_operand (p + 1) term = true ->
  exists t r, (chain_tokens rest ++ term :: suffix)%list = t :: r /\
              ends_operand (p + 1) t = true.
Proof.
  intros Hrest Hterm. destruct rest as [|[op x] rest]; simpl.
  - eauto.
  - inversion Hrest as [|? ? [Hop _] _]; subst. cbn [fst] in Hop.
    eexists _, _. split; [reflexivity|].
    apply (operator_ends_operand _ p); [exact Hop|lia].
Qed.

Lemma chain_loop (m p : Z) (term : token) (suffix : list token) :
  (m <= p)%Z ->
  ends_operand m term = true ->
  forall rest left pos fuel,
    skipn pos tokens = (chain_tokens rest ++ term :: suffix)%list ->
    Forall (fun ox => PRECEDENCE (fst ox) = Some p /\ is_unary_op (snd ox) = false) rest ->
    (List.length rest + 2 <= fuel)%nat ->
    parse_binary tokens fuel m left pos =
      Done (chain_tree left rest) (pos + 2 * List.length rest).
Proof.
  intros Hm Hterm. induction rest as [|[op x] rest IH]; intros left pos fuel H Hrest Hf.
  - destruct fuel as [|fuel]; [simpl in Hf; lia|].
    simpl in H. apply skipn_cons in H as [H _].
    rewrite (binary_loop_stops _ _ _ _ _ H Hterm). cbn. f_equal. lia.
  - destruct fuel as [|[|[|fuel]]]; try (simpl in Hf; lia).
    inversion Hrest as [|? ? [Hop Hx] Hrest']; subst. cbn [fst snd] in Hop, Hx.
    change (chain_tokens ((op, x) :: rest))
      with (("OP", op) :: ("ID", x) :: chain_tokens rest) in H.
    cbn [app] in H.
    apply skipn_cons in H as [H0 H1].
    rewrite (binary_loop_step _ _ _ _ _ H0). cbn [snd]. rewrite Hop.
    assert (E : (p <? m)%Z = false) by (apply Z.ltb_ge; lia). rewrite E.
    destruct (chain_head rest p term suffix Hrest'
                (ends_operand_weaken m (p + 1) term ltac:(lia) Hterm))
      as [t [r [Ht Et]]].
    unfold bind.
    rewrite (operand_identifier _ (p + 1) (S pos) x t r);
      [|rewrite H1; cbn [app]; rewrite <- Ht; reflexivity|exact Hx|exact Et].
    rewrite (IH _ (S (S pos)) _).
    + cbn [chain_tree fold_left fst snd List.length]. f_equal. lia.
    + apply skipn_cons in H1 as [_ H2]. exact H2.
    + exact Hrest'.
    + simpl in Hf |- *. lia.
Qed.

Lemma precedence_range (op : string) (p : Z) :
  PRECEDENCE op = Some p -> (1 <= p <= 6)%Z.
Proof.
  unfold PRECEDENCE. intros H.
  repeat match type of H with
         | (if ?c then _ else _) = _ => destruct c
         end; inversion H; lia.
Qed.

(** ** Chains of identifiers *)

Lemma identifier_chain (m p : Z) (x0 : string) (rest : list (string * string))
    (term : token) (suffix : list token) (pos fuel : nat) :
  skipn pos tokens = (("ID", x0) :: chain_tokens rest ++ term :: suffix)%list ->
  is_unary_op x0 = false ->
  Forall (fun ox => PRECEDENCE (fst ox) = Some p /\ is_unary_op (snd ox) = false) rest ->
  (m <= p)%Z ->
  ends_operand m term = true ->
  (List.length rest + 3 <= fuel)%nat ->
  parse_expr tokens fuel m pos =
    Done (chain_tree (VarRef x0) rest) (pos + 1 + 2 * List.length rest).
Proof.
  intros H Hx0 Hrest Hm Hterm Hf.
  destruct fuel as [|[|fuel]]; try lia.
  apply skipn_cons in H as [H0 H1].
  assert (Hnext : exists t r, skipn (S pos) tokens = t :: r /\
                              (snd t =? "(") = false /\ (snd t =? "=") = false).
  { destruct (chain_head rest p term suffix Hrest
                (ends_operand_weaken m (p + 1) term ltac:(lia) Hterm))
      as [t [r [Ht Et]]].
    exists t, r. rewrite H1. split; [exact Ht|].
    unfold ends_operand in Et. apply andb_true_iff in Et as [Et _].
    apply andb_true_iff in Et as [E1 E2]. apply negb_true_iff in E1, E2. auto. }
  destruct Hnext as [t [r [Ht [E1 E2]]]]. apply skipn_cons in Ht as [Ht _].
  rewrite parse_expr_eq. unfold bind at 1. unfold peek at 1. rewrite H0.
  cbn [snd]. rewrite Hx0. unfold bind.
  rewrite (primary_identifier _ _ _ _ H0 Ht E1 E2).
  rewrite (chain_loop m p term suffix Hm Hterm rest _ (S pos) (S fuel) H1 Hrest
             ltac:(lia)).
  f_equal. lia.
Qed.

Lemma unary_step (fuel : nat) (m : Z) (pos : nat) (t : token) :
  nth_error tokens pos = Some t ->
  is_unary_op (snd t) = true ->
  parse_expr tokens (S fuel) m pos =
    bind (parse_expr tokens fuel 7)
         (fun operand => parse_binary tokens fuel m (UnaryExpr (snd t) operand))
         (S pos).
Proof.
  intros H Hu. rewrite parse_expr_eq.
  unfold bind at 1. unfold peek at 1. rewrite H, Hu.
  unfold bind at 1. unfold bind at 1. unfold next at 1. rewrite H.
  unfold bind. destruct (parse_expr tokens fuel 7 (S pos)); reflexivity.
Qed.

Lemma unary_identifiers (m : Z) (u : token) (a : string) (bop : token) (p : Z)
    (b : string) (term : token) (suffix : list token) (pos fuel : nat) :
  skipn pos tokens = u :: ("ID", a) :: bop :: ("ID", b) :: term :: suffix ->
  is_unary_op (snd u) = true ->
  is_unary_op a = false ->
  is_unary_op b = false ->
  PRECEDENCE (snd bop) = Some p ->
  (m <= p)%Z ->
  ends_operand m term = true ->
  (4 <= fuel)%nat ->
  parse_expr tokens fuel m pos =
    Done (BinaryExpr (UnaryExpr (snd u) (VarRef a)) (snd bop) (VarRef b)) (pos + 4).
Proof.
  intros H Hu Ha Hb Hp Hm Hterm Hf.
  destruct fuel as [|[|[|[|fuel]]]]; try lia.
  pose proof (precedence_range _ _ Hp) as Hr.
  pose proof H as H'. apply skipn_cons in H' as [H0 H1].
  pose proof H1 as H1'. apply skipn_cons in H1' as [_ H2].
  pose proof H2 as H2'. apply skipn_cons in H2' as [Hbop H3].
  pose proof H3 as H3'. apply skipn_cons in H3' as [_ H4].
  apply skipn_cons in H4 as [H4 _].
  rewrite (unary_step _ _ _ _ H0 Hu). unfold bind.
  rewrite (operand_identifier _ 7 (S pos) a bop _ H1 Ha).
  2:{ destruct bop as [k op]. apply (operator_ends_operand _ p); [exact Hp|lia]. }
  rewrite (binary_loop_step _ _ _ _ _ Hbop), Hp.
  assert (E : (p <? m)%Z = false) by (apply Z.ltb_ge; lia). rewrite E.
  unfold bind.
  rewrite (operand_identifier _ (p + 1) (S (S (S pos))) b term _ H3 Hb
             (ends_operand_weaken m (p + 1) term ltac:(lia) Hterm)).
  rewrite (binary_loop_stops _ _ _ _ _ H4 Hterm). f_equal. lia.
Qed.

(** ** The methods with enough fuel *)

Lemma answer_at_any_fuel {A} (f : nat -> outcome A) (bound n n' : nat) :
  (forall a b, (a <= b)%nat -> approx (f a) (f b)) ->
  (forall a, (bound <= a)%nat -> f a <> OutOfFuel) ->
  (bound <= n)%nat -> (bound <= n')%nat -> f n = f n'.
Proof.
  intros Hmono Hen Hn Hn'.
  rewrite (stable_answer _ _ (Hmono bound n Hn) (Hen bound (Nat.le_refl _))).
  rewrite (stable_answer _ _ (Hmono bound n' Hn') (Hen bound (Nat.le_refl _))).
  reflexivity.
Qed.

Lemma answer_is_run {A} (f : nat -> outcome A) (bound n N : nat) (r : outcome A) :
  (forall a b, (a <= b)%nat -> approx (f a) (f b)) ->
  (forall a, (bound <= a)%nat -> f a <> OutOfFuel) ->
  (bound <= N)%nat -> f n = r -> r <> OutOfFuel -> f N = r.
Proof.
  intros Hmono Hen HN Hr Hnot. subst r.
  destruct (Nat.le_ge_cases n N) as [L|L].
  - apply (stable_answer _ _ (Hmono n N L) Hnot).
  - symmetry. apply (stable_answer _ _ (Hmono N n L) (Hen N HN)).
Qed.

Lemma fuel_for_bound (pos : nat) :
  (2 * (List.length tokens - pos) + 3 <= fuel_for tokens - 1)%nat.
Proof. unfold fuel_for. lia. Qed.

Lemma expr_is_run (n : nat) (m : Z) (pos : nat) :
  (2 * (List.length tokens - pos) + 2 <= n)%nat ->
  parse_expr tokens n m pos = run_expr tokens m pos.
Proof.
  intros H. unfold run_expr.
  apply (answer_at_any_fuel (fun k => parse_expr tokens k m pos)
           (2 * (List.length tokens - pos) + 2)).
  - intros a b L. apply (fuel_monotone a b L).
  - intros a L. apply enough_fuel, L.
  - exact H.
  - unfold fuel_for. lia.
Qed.

Lemma binary_is_run (n : nat) (m : Z) (left : expr) (pos : nat) :
  (2 * (List.length tokens - pos) + 1 <= n)%nat ->
  parse_binary tokens n m left pos = run_binary tokens m left pos.
Proof.
  intros H. unfold run_binary.
  apply (answer_at_any_fuel (fun k => parse_binary tokens k m left pos)
           (2 * (List.length tokens - pos) + 1)).
  - intros a b L. apply (fuel_monotone a b L).
  - intros a L. apply enough_fuel, L.
  - exact H.
  - unfold fuel_for. lia.
Qed.

Lemma primary_is_run (n : nat) (pos : nat) :
  (2 * (List.length tokens - pos) + 1 <= n)%nat ->
  parse_primary tokens n pos = run_primary tokens pos.
Proof.
  intros H. unfold run_primary.
  apply (answer_at_any_fuel (fun k => parse_primary tokens k pos)
           (2 * (List.length tokens - pos) + 1)).
  - intros a b L. apply (fuel_monotone a b L).
  - intros a L. apply enough_fuel, L.
  - exact H.
  - unfold fuel_for. lia.
Qed.

(** An answer at some fuel is the answer of the method. *)
Lemma expr_answer (n : nat) (m : Z) (pos : nat) (e : expr) (pos' : nat) :
  parse_expr tokens n m pos = Done e pos' -> run_expr tokens m pos = Done e pos'.
Proof.
  intros H. unfold run_expr.
  apply (answer_is_run (fun k => parse_expr tokens k m pos)
           (2 * (List.length tokens - pos) + 2) n).
  - intros a b L. apply (fuel_monotone a b L).
  - intros a L. apply enough_fuel, L.
  - unfold fuel_for. lia.
  - exact H.
  - discriminate.
Qed.

Lemma bind_cong {A C} (m1 m2 : parser A) (k1 k2 : A -> parser C) pos :
  m1 pos = m2 pos -> (forall a p, k1 a p = k2 a p) ->
  bind m1 k1 pos = bind m2 k2 pos.
Proof. intros Hm Hk. unfold bind. rewrite Hm. destruct (m2 pos); auto. Qed.

(** The methods, with the fuel out of sight. *)
Lemma run_expr_eq (m : Z) (pos : nat) :
  run_expr tokens m pos =
    (t <- peek tokens ;;
     left <- (if is_unary_op (snd t) then
                op <- next tokens ;;
                operand <- run_expr tokens 7 ;;
                ret (UnaryExpr (snd op) operand)
              else run_primary tokens) ;;
     run_binary tokens m left) pos.
Proof.
  unfold run_expr at 1.
  replace (fuel_for tokens) with (S (fuel_for tokens - 1)) by (unfold fuel_for; lia).
  rewrite parse_expr_eq.
  pose proof fuel_for_bound as Hb.
  apply bind_ext. intros t p1.
  apply bind_cong.
  - destruct (is_unary_op (snd t)).
    + apply bind_ext. intros op p2. unfold bind.
      rewrite expr_is_run by (specialize (Hb p2); lia). reflexivity.
    + apply primary_is_run. specialize (Hb p1). lia.
  - intros left p2. apply binary_is_run. specialize (Hb p2). lia.
Qed.

Lemma run_binary_eq (m : Z) (left : expr) (pos : nat) (t : token) :
  nth_error tokens pos = Some t ->
  run_binary tokens m left pos =
    match PRECEDENCE (snd t) with
    | Some p =>
        if (p <? m)%Z then Done left pos
        else bind (run_expr tokens (p + 1))
                  (fun right => run_binary tokens m (BinaryExpr left (snd t) right))
                  (S pos)
    | None => Done left pos
    end.
Proof.
  intros H. unfold run_binary at 1.
  replace (fuel_for tokens) with (S (fuel_for tokens - 1)) by (unfold fuel_for; lia).
  rewrite (binary_loop_step _ _ _ _ _ H).
  pose proof fuel_for_bound as Hb.
  destruct (PRECEDENCE (snd t)) as [p|]; [|reflexivity].
  destruct (p <? m)%Z; [reflexivity|].
  unfold bind. rewrite expr_is_run by (specialize (Hb (S pos)); lia).
  destruct (run_expr tokens (p + 1) (S pos)) as [right p2| |]; try reflexivity.
  apply binary_is_run. specialize (Hb p2). lia.
Qed.

(** ** Chains in general *)

(** What the loop of a higher threshold has built, the loop of a lower
    threshold builds too, and goes on from there. *)
Lemma loop_split (m lvl : Z) :
  (m <= lvl)%Z ->
  forall n left pos e pos',
    parse_binary tokens n lvl left pos = Done e pos' ->
    run_binary tokens m left pos = run_binary tokens m e pos'.
Proof.
  intros Hm. induction n as [|n IH]; intros left pos e pos' H; [discriminate|].
  assert (Ht : exists t, nth_error tokens pos = Some t).
  { cbn [parse_binary] in H. apply bind_done in H as [t [p [H _]]].
    apply peek_done in H as [_ [H _]]. eauto. }
  destruct Ht as [t Ht]. rewrite (binary_loop_step _ _ _ _ _ Ht) in H.
  destruct (PRECEDENCE (snd t)) as [q|] eqn:Hq.
  2:{ inversion H; subst. reflexivity. }
  destruct (q <? lvl)%Z eqn:Hlt.
  { inversion H; subst. reflexivity. }
  apply Z.ltb_ge in Hlt.
  apply bind_done in H as [r [p1 [H1 H2]]].
  rewrite (run_binary_eq m left pos t Ht), Hq.
  assert (E : (q <? m)%Z = false) by (apply Z.ltb_ge; lia). rewrite E.
  unfold bind. rewrite (expr_answer _ _ _ _ _ H1).
  apply (IH _ _ _ _ H2).
Qed.

Lemma bind_of_done {A C} (m : parser A) (k : A -> parser C) pos a pos' :
  m pos = Done a pos' -> bind m k pos = k a pos'.
Proof. intros H. unfold bind. rewrite H. reflexivity. Qed.

Lemma chain_binary (m p : Z) (pos : nat) (rest : list (string * expr)) (pos' : nat) :
  (m <= p)%Z ->
  chain tokens m p pos rest pos' ->
  forall left, run_binary tokens m left pos = Done (left_tree left rest) pos'.
Proof.
  intros Hm. induction 1 as [pos t Ht Hs|pos t e pos1 rest pos2 Ht Hp He _ IH];
    intros left.
  - rewrite (run_binary_eq m left pos t Ht). unfold stops_loop in Hs.
    destruct (PRECEDENCE (snd t)); [rewrite Hs|]; reflexivity.
  - rewrite (run_binary_eq m left pos t Ht), Hp.
    assert (E : (p <? m)%Z = false) by (apply Z.ltb_ge; lia). rewrite E.
    unfold bind. rewrite He. apply IH.
Qed.

Lemma chain_left_associated (m p : Z) (pos : nat) (e0 : expr) (pos0 : nat)
    (rest : list (string * expr)) (pos' : nat) :
  (m <= p)%Z ->
  run_expr tokens (p + 1) pos = Done e0 pos0 ->
  chain tokens m p pos0 rest pos' ->
  run_expr tokens m pos = Done (left_tree e0 rest) pos'.
Proof.
  intros Hm H Hc. rewrite run_expr_eq in H |- *.
  apply bind_done in H as [t [p1 [H1 H]]].
  apply bind_done in H as [left [p2 [H2 H3]]].
  rewrite (bind_of_done _ _ _ _ _ H1). rewrite (bind_of_done _ _ _ _ _ H2).
  rewrite (loop_split m (p + 1) ltac:(lia) _ _ _ _ _ H3).
  apply (chain_binary m p _ _ _ Hm Hc).
Qed.

Lemma stops_at_level_7 (t : token) : stops_loop 7 t = true.
Proof.
  unfold stops_loop. destruct (PRECEDENCE (snd t)) as [q|] eqn:E; [|reflexivity].
  apply precedence_range in E. apply Z.ltb_lt. lia.
Qed.

Lemma run_unary_step (m : Z) (pos : nat) (t : token) :
  nth_error tokens pos = Some t ->
  is_unary_op (snd t) = true ->
  run_expr tokens m pos =
    bind (run_expr tokens 7)
         (fun operand => run_binary tokens m (UnaryExpr (snd t) operand))
         (S pos).
Proof.
  intros H Hu. rewrite run_expr_eq.
  unfold bind at 1. unfold peek at 1. rewrite H, Hu.
  unfold bind at 1. unfold bind at 1. unfold next at 1. rewrite H.
  unfold bind. destruct (run_expr tokens 7 (S pos)); reflexivity.
Qed.

(** ** The claim about the two declaration parsers *)

(** C10.  [parse_vardecl_for] and [parse_vardecl] are the same function of
    the token list and the starting position: the same exception or the
    same [VarDecl] and the same final position.  They answer at all (the
    fuel of the model is enough from twice the number of tokens plus one,
    and the answer does not change above that), and when they return, the
    last token consumed is the terminator [;]. *)
Theorem C10_vardecl_paths_agree (pos : nat) :
  (forall fuel, parse_vardecl_for tokens fuel pos = parse_vardecl tokens fuel pos) /\
  run_vardecl_for tokens pos = run_vardecl tokens pos /\
  run_vardecl tokens pos <> OutOfFuel /\
  (forall fuel,
     (2 * List.length tokens + 1 <= fuel)%nat ->
     parse_vardecl tokens fuel pos = run_vardecl tokens pos) /\
  (forall v pos',
     run_vardecl tokens pos = Done v pos' ->
     (exists typ names, v = VarDecl typ names) /\
     exists p t, pos' = S p /\ (pos < p)%nat /\
                 nth_error tokens p = Some t /\ snd t = ";").
Proof.
  assert (Hagree : forall fuel,
            parse_vardecl_for tokens fuel pos = parse_vardecl tokens fuel pos).
  { intros fuel. unfold parse_vardecl_for, parse_vardecl.
    apply bind_ext. intros typ p. unfold bind.
    rewrite vardecl_loops_agree. reflexivity. }
  assert (N : forall fuel, (2 * List.length tokens + 1 <= fuel)%nat ->
              parse_vardecl tokens fuel pos <> OutOfFuel).
  { intros fuel Hf. unfold parse_vardecl.
    apply bind_finishes; [apply expect_type_finishes|]. intros typ p Htyp.
    apply bind_finishes; [apply vardecl_loop_enough; lia|]. intros names p' _.
    apply bind_finishes; [apply expect_op_finishes|]. intros; apply ret_finishes. }
  assert (M : forall a b, (a <= b)%nat ->
              approx (parse_vardecl tokens a pos) (parse_vardecl tokens b pos)).
  { intros a b L. unfold parse_vardecl.
    apply approx_bind; [apply approx_refl|]. intros typ p.
    apply approx_bind; [apply vardecl_loop_monotone, L|]. intros; apply approx_refl. }
  split; [exact Hagree|]. split; [apply Hagree|].
  split; [apply N; unfold fuel_for; lia|]. split.
  - intros fuel Hf. unfold run_vardecl.
    apply (answer_at_any_fuel (fun k => parse_vardecl tokens k pos)
             (2 * List.length tokens + 1)); auto.
    unfold fuel_for. lia.
  - intros v pos' H. unfold run_vardecl, parse_vardecl in H.
    apply bind_done in H as [typ [p1 [H1 H2]]].
    apply advances_expect_type in H1.
    apply bind_done in H2 as [names [p2 [H2 H3]]].
    apply vardecl_loop_advances in H2.
    apply bind_done in H3 as [u [p3 [H3 H4]]].
    apply expect_op_done in H3 as [-> [t [Ht Hs]]].
    inversion H4; subst. split; [eauto|].
    exists p2, t. repeat split; auto. lia.
Qed.

(** ** The claims about expressions *)

(** C4.  The precedences are fixed, from 1 for [||] to 6 for [*], [/] and
    [%].  In a parse with threshold [m] the loop consumes the next token
    only when it is a binary operator of precedence at least [m], and then
    parses the right operand with threshold one more than that precedence.
    Hence a chain of operands joined by operators of one precedence parses
    to the tree that associates to the left; for a chain of identifiers
    this is stated on the tokens alone. *)
Theorem C4_precedence_climbing :
  map PRECEDENCE ["||"; "&&"; "=="; "!="; "<"; ">"; "<="; ">="; "+"; "-"; "*"; "/"; "%"] =
    map Some [1; 2; 3; 3; 4; 4; 4; 4; 5; 5; 6; 6; 6]%Z /\
  (forall m left pos t,
     nth_error tokens pos = Some t ->
     run_binary tokens m left pos =
       match PRECEDENCE (snd t) with
       | Some p =>
           if (p <? m)%Z then Done left pos
           else bind (run_expr tokens (p + 1))
                     (fun right =>
                        run_binary tokens m (BinaryExpr left (snd t) right))
                     (S pos)
       | None => Done left pos
       end) /\
  (forall m p pos e0 pos0 rest pos',
     (m <= p)%Z ->
     run_expr tokens (p + 1) pos = Done e0 pos0 ->
     chain tokens m p pos0 rest pos' ->
     run_expr tokens m pos = Done (left_tree e0 rest) pos') /\
  (forall m p x0 rest term suffix pos,
     skipn pos tokens = (("ID", x0) :: chain_tokens rest ++ term :: suffix)%list ->
     is_unary_op x0 = false ->
     Forall (fun ox => PRECEDENCE (fst ox) = Some p /\ is_unary_op (snd ox) = false) rest ->
     (m <= p)%Z ->
     ends_operand m term = true ->
     run_expr tokens m pos =
       Done (chain_tree (VarRef x0) rest) (pos + 1 + 2 * List.length rest)).
Proof.
  split; [reflexivity|]. split; [exact run_binary_eq|].
  split; [exact chain_left_associated|].
  intros m p x0 rest term suffix pos H Hx0 Hrest Hm Hterm.
  apply (expr_answer (List.length rest + 3)).
  apply (identifier_chain m p x0 rest term suffix pos _ H Hx0 Hrest Hm Hterm).
  lia.
Qed.

(** C5.  Every binary precedence is below 7, the level at which the
    operand of a leading [+], [-] or [!] is parsed; at that level the
    operator loop consumes nothing, and the operators that follow are
    applied to the [UnaryExpr] node.  So [-a * b] is the product of [-a]
    and [b], for operands [a] and [b] in general and, stated on the tokens
    alone, for identifiers. *)
Theorem C5_unary_binds_tighter :
  (forall op p, PRECEDENCE op = Some p -> (p < 7)%Z) /\
  (forall m pos t,
     nth_error tokens pos = Some t ->
     is_unary_op (snd t) = true ->
     run_expr tokens m pos =
       bind (run_expr tokens 7)
            (fun operand => run_binary tokens m (UnaryExpr (snd t) operand))
            (S pos)) /\
  (forall left pos t,
     nth_error tokens pos = Some t ->
     run_binary tokens 7 left pos = Done left pos) /\
  (forall m pos u a pos1 bop p b pos2 term,
     nth_error tokens pos = Some u ->
     is_unary_op (snd u) = true ->
     run_expr tokens 7 (S pos) = Done a pos1 ->
     nth_error tokens pos1 = Some bop ->
     PRECEDENCE (snd bop) = Some p ->
     (m <= p)%Z ->
     run_expr tokens (p + 1) (S pos1) = Done b pos2 ->
     nth_error tokens pos2 = Some term ->
     stops_loop m term = true ->
     run_expr tokens m pos =
       Done (BinaryExpr (UnaryExpr (snd u) a) (snd bop) b) pos2) /\
  (forall m u a bop p b term suffix pos,
     skipn pos tokens = u :: ("ID", a) :: bop :: ("ID", b) :: term :: suffix ->
     is_unary_op (snd u) = true ->
     is_unary_op a = false ->
     is_unary_op b = false ->
     PRECEDENCE (snd bop) = Some p ->
     (m <= p)%Z ->
     ends_operand m term = true ->
     run_expr tokens m pos =
       Done (BinaryExpr (UnaryExpr (snd u) (VarRef a)) (snd bop) (VarRef b)) (pos + 4)).
Proof.
  split; [intros op p H; apply precedence_range in H; lia|].
  split; [exact run_unary_step|]. split; [|split].
  - intros left pos t H. rewrite (run_binary_eq _ _ _ _ H).
    pose proof (stops_at_level_7 t) as S7. unfold stops_loop in S7.
    destruct (PRECEDENCE (snd t)); [rewrite S7|]; reflexivity.
  - intros m pos u a pos1 bop p b pos2 term Hu Hun Ha Hbop Hp Hm Hb Hterm Hstop.
    rewrite (run_unary_step _ _ _ Hu Hun).
    rewrite (bind_of_done _ _ _ _ _ Ha).
    apply (chain_binary m p pos1 [(snd bop, b)] pos2 Hm).
    apply (chain_more tokens m p pos1 bop b pos2 [] pos2 Hbop Hp Hb).
    apply (chain_end tokens m p pos2 term Hterm Hstop).
  - intros m u a bop p b term suffix pos H Hu Ha Hb Hp Hm Hterm.
    apply (expr_answer 4).
    apply (unary_identifiers m u a bop p b term suffix pos 4 H Hu Ha Hb Hp Hm Hterm).
    lia.
Qed.

End Fuel.

(** [int a, b = 3 + 1, c;] *)
Lemma C10_vardecl_paths_agree_witness :
  let tokens := [("INT", "int"); ("ID", "a"); ("OP", ","); ("ID", "b"); ("OP", "=");
                 ("NUMBER", "3"); ("OP", "+"); ("NUMBER", "1"); ("OP", ",");
                 ("ID", "c"); ("OP", ";"); ("EOF", EmptyString)] in
  let v := VarDecl "int"
             [("a", None);
              ("b", Some (BinaryExpr (Literal (VInt 3)) "+" (Literal (VInt 1))));
              ("c", None)] in
  run_vardecl tokens 0 = Done v 11 /\
  run_vardecl_for tokens 0 = Done v 11 /\
  parse_vardecl tokens 25 0 = run_vardecl tokens 0 /\
  ((exists typ names, v = VarDecl typ names) /\
   exists p t, 11%nat = S p /\ (0 < p)%nat /\
               nth_error tokens p = Some t /\ snd t = ";").
Proof.
  intros tokens v.
  assert (H : run_vardecl tokens 0 = Done v 11) by reflexivity.
  pose proof (C10_vardecl_paths_agree tokens 0) as [_ [Hfor [_ [Hfuel Hlast]]]].
  split; [exact H|]. split; [|split].
  - rewrite Hfor. exact H.
  - apply Hfuel. simpl. lia.
  - exact (Hlast v 11 H).
Defined.

(** [a - f(1) - (b * c);] and [a - b - c;], read with the default
    threshold 1. *)
Lemma C4_precedence_climbing_witness :
  (let tokens := [("ID", "a"); ("OP", "-"); ("ID", "f"); ("OP", "("); ("NUMBER", "1");
                  ("OP", ")"); ("OP", "-"); ("OP", "("); ("ID", "b"); ("OP", "*");
                  ("ID", "c"); ("OP", ")"); ("OP", ";"); ("EOF", EmptyString)] in
   run_binary tokens 6 (VarRef "a") 1 = Done (VarRef "a") 1 /\
   run_expr tokens 1 0 =
     Done (BinaryExpr
             (BinaryExpr (VarRef "a") "-" (FuncCall "f" [Literal (VInt 1)]))
             "-" (BinaryExpr (VarRef "b") "*" (VarRef "c"))) 12) /\
  (let tokens := [("ID", "a"); ("OP", "-"); ("ID", "b"); ("OP", "-"); ("ID", "c");
                  ("OP", ";"); ("EOF", EmptyString)] in
   run_expr tokens 1 0 =
     Done (BinaryExpr (BinaryExpr (VarRef "a") "-" (VarRef "b")) "-" (VarRef "c")) 5).
Proof.
  split.
  - intros tokens. split.
    + exact (proj1 (proj2 (C4_precedence_climbing tokens)) 6%Z (VarRef "a") 1
               ("OP", "-") eq_refl).
    + apply (proj1 (proj2 (proj2 (C4_precedence_climbing tokens))) 1%Z 5%Z 0
               (VarRef "a") 1
               [("-", FuncCall "f" [Literal (VInt 1)]);
                ("-", BinaryExpr (VarRef "b") "*" (VarRef "c"))] 12).
      * lia.
      * reflexivity.
      * apply (chain_more tokens 1 5 1 ("OP", "-") (FuncCall "f" [Literal (VInt 1)]) 6);
          [reflexivity|reflexivity|reflexivity|].
        apply (chain_more tokens 1 5 6 ("OP", "-")
                 (BinaryExpr (VarRef "b") "*" (VarRef "c")) 12);
          [reflexivity|reflexivity|reflexivity|].
        apply (chain_end tokens 1 5 12 ("OP", ";")); reflexivity.
  - intros tokens.
    apply (proj2 (proj2 (proj2 (C4_precedence_climbing tokens))) 1%Z 5%Z "a"
             [("-", "b"); ("-", "c")] ("OP", ";") [("EOF", EmptyString)] 0).
    + reflexivity.
    + reflexivity.
    + repeat constructor.
    + lia.
    + reflexivity.
Defined.

(** [-a * b;] and [-f(x) * (b + 1);], read with the default threshold 1. *)
Lemma C5_unary_binds_tighter_witness :
  (let tokens := [("OP", "-"); ("ID", "a"); ("OP", "*"); ("ID", "b"); ("OP", ";");
                  ("EOF", EmptyString)] in
   run_expr tokens 1 0 =
     Done (BinaryExpr (UnaryExpr "-" (VarRef "a")) "*" (VarRef "b")) 4 /\
   run_binary tokens 7 (VarRef "a") 2 = Done (VarRef "a") 2) /\
  (let tokens := [("OP", "-"); ("ID", "f"); ("OP", "("); ("ID", "x"); ("OP", ")");
                  ("OP", "*"); ("OP", "("); ("ID", "b"); ("OP", "+"); ("NUMBER", "1");
                  ("OP", ")"); ("OP", ";"); ("EOF", EmptyString)] in
   run_expr tokens 1 0 =
     Done (BinaryExpr (UnaryExpr "-" (FuncCall "f" [VarRef "x"])) "*"
             (BinaryExpr (VarRef "b") "+" (Literal (VInt 1)))) 11).
Proof.
  split.
  - intros tokens. split.
    + apply (proj2 (proj2 (proj2 (proj2 (C5_unary_binds_tighter tokens)))) 1%Z
               ("OP", "-") "a" ("OP", "*") 6%Z "b" ("OP", ";") [("EOF", EmptyString)] 0).
      * reflexivity.
      * reflexivity.
      * reflexivity.
      * reflexivity.
      * reflexivity.
      * lia.
      * reflexivity.
    + exact (proj1 (proj2 (proj2 (C5_unary_binds_tighter tokens))) (VarRef "a") 2
               ("OP", "*") eq_refl).
  - intros tokens.
    apply (proj1 (proj2 (proj2 (proj2 (C5_unary_binds_tighter tokens)))) 1%Z 0
             ("OP", "-") (FuncCall "f" [VarRef "x"]) 5 ("OP", "*") 6%Z
             (BinaryExpr (VarRef "b") "+" (Literal (VInt 1))) 11 ("OP", ";")).
    + reflexivity.
    + reflexivity.
    + reflexivity.
    + reflexivity.
    + reflexivity.
    + lia.
    + reflexivity.
    + reflexivity.
    + reflexivity.
Defined.

End ParserFacts.

(** * Properties of the statement parser *)

Module StatementFacts.
Import Ast Parser Statements ParserFacts.

Section Fuel.
Context {B : Builtins}.
Variable tokens : list token.

(** ** More fuel never changes an answer *)

Lemma vardecl_monotone (a b : nat) (pos : nat) :
  (a <= b)%nat ->
  approx (parse_vardecl tokens a pos) (parse_vardecl tokens b pos).
Proof.
  intros L. unfold parse_vardecl.
  apply approx_bind; [apply approx_refl|]. intros typ p.
  apply approx_bind; [apply vardecl_loop_monotone, L|]. intros; apply approx_refl.
Qed.

Lemma vardecl_for_agrees (n : nat) (pos : nat) :
  parse_vardecl_for tokens n pos = parse_vardecl tokens n pos.
Proof.
  unfold parse_vardecl_for, parse_vardecl.
  apply bind_ext. intros typ p. unfold bind.
  rewrite vardecl_loops_agree. reflexivity.
Qed.

Lemma expr_monotone (a b : nat) (m : Z) (pos : nat) :
  (a <= b)%nat -> approx (parse_expr tokens a m pos) (parse_expr tokens b m pos).
Proof. intros L. apply (fuel_monotone tokens a b L). Qed.

Ltac approx_auto :=
  repeat first
    [ apply approx_refl
    | apply expr_monotone; lia
    | apply vardecl_monotone; lia
    | rewrite !vardecl_for_agrees; apply vardecl_monotone; lia
    | assumption
    | apply approx_bind; [|intros ? ?]
    | match goal with
      | H : forall _, approx _ _ |- approx _ _ => apply H
      | H : forall _ _, approx _ _ |- approx _ _ => apply H
      | |- approx ((if ?c then _ else _) _) _ => destruct c
      end ].

Lemma statements_monotone (n : nat) :
  forall n', (n <= n')%nat ->
    (forall pos, approx (parse_statement tokens n pos) (parse_statement tokens n' pos)) /\
    (forall l pos, approx (parse_block tokens n l pos) (parse_block tokens n' l pos)) /\
    (forall pos, approx (parse_if tokens n pos) (parse_if tokens n' pos)) /\
    (forall pos, approx (parse_while tokens n pos) (parse_while tokens n' pos)) /\
    (forall pos, approx (parse_for tokens n pos) (parse_for tokens n' pos)).
Proof.
  induction n as [|n IH]; intros n' Hle.
  - repeat split; intros; left; reflexivity.
  - destruct n' as [|n']; [lia|].
    destruct (IH n' ltac:(lia)) as [IHs [IHb [IHi [IHw IHf]]]].
    repeat split; intros.
    + cbn [parse_statement]. approx_auto.
    + cbn [parse_block]. approx_auto.
    + cbn [parse_if]. approx_auto.
    + cbn [parse_while]. approx_auto.
    + cbn [parse_for]. approx_auto.
Qed.

Lemma params_loop_monotone (n : nat) :
  forall n' l pos, (n <= n')%nat ->
    approx (params_loop tokens n l pos) (params_loop tokens n' l pos).
Proof.
  induction n as [|n IH]; intros n' l pos L; [left; reflexivity|].
  destruct n' as [|n']; [lia|].
  cbn [params_loop].
  repeat first
    [ apply approx_refl | apply IH; lia | apply approx_bind; [|intros ? ?]
    | match goal with |- approx ((if ?c then _ else _) _) _ => destruct c end ].
Qed.

Lemma function_monotone (a b : nat) (pos : nat) :
  (a <= b)%nat ->
  approx (parse_function tokens a pos) (parse_function tokens b pos).
Proof.
  intros L. unfold parse_function.
  pose proof (proj1 (proj2 (statements_monotone a b L))) as Hb.
  repeat first
    [ apply approx_refl | apply Hb | apply params_loop_monotone; lia
    | apply approx_bind; [|intros ? ?]
    | match goal with |- approx ((if ?c then _ else _) _) _ => destruct c end ].
Qed.

Lemma parse_loop_monotone (n : nat) :
  forall n' l pos, (n <= n')%nat ->
    approx (parse_loop tokens n l pos) (parse_loop tokens n' l pos).
Proof.
  induction n as [|n IH]; intros n' l pos L; [left; reflexivity|].
  destruct n' as [|n']; [lia|].
  cbn [parse_loop].
  repeat first
    [ apply approx_refl | apply IH; lia | apply function_monotone; lia
    | apply approx_bind; [|intros ? ?]
    | match goal with |- approx ((if ?c then _ else _) _) _ => destruct c end ].
Qed.

(** ** Every method that returns has consumed tokens *)

Lemma advances_vardecl (n : nat) : advances 1 (parse_vardecl tokens n).
Proof.
  unfold parse_vardecl.
  apply (advances_bind 1 0); [apply advances_expect_type| |lia]. intros typ.
  apply (advances_bind 0 0); [apply (advances_weaken 1);
    [apply vardecl_loop_advances|lia]| |lia]. intros names.
  apply (advances_bind 0 0); [apply (advances_weaken 1);
    [apply advances_expect_op|lia]| |lia].
  intros; apply advances_ret.
Qed.

Lemma advances_vardecl_for (n : nat) : advances 1 (parse_vardecl_for tokens n).
Proof.
  intros pos a pos' H. rewrite vardecl_for_agrees in H.
  apply (advances_vardecl n _ _ _ H).
Qed.

Lemma advances_expr (n : nat) (m : Z) : advances 1 (parse_expr tokens n m).
Proof. apply (progress tokens n). Qed.

(** A sequence that starts with a consuming step. *)
Lemma advances_after {A C} (m : parser A) (f : A -> parser C) :
  advances 1 m -> (forall a, advances 0 (f a)) -> advances 1 (bind m f).
Proof. intros Hm Hf. apply (advances_bind 1 0); auto. Qed.

Lemma advances_then {A C} (m : parser A) (f : A -> parser C) :
  advances 0 m -> (forall a, advances 0 (f a)) -> advances 0 (bind m f).
Proof. intros Hm Hf. apply (advances_bind 0 0); auto. Qed.

Lemma advances_any {A} (m : parser A) : advances 1 m -> advances 0 m.
Proof. intros H. apply (advances_weaken 1); [exact H|lia]. Qed.

Ltac advances_zero :=
  repeat first
    [ apply advances_ret
    | apply advances_raise
    | apply advances_peek
    | apply advances_any; first
        [ apply advances_next | apply advances_expect | apply advances_expect_op
        | apply advances_expect_type | apply advances_expr | apply advances_vardecl
        | apply advances_vardecl_for | assumption ]
    | assumption
    | apply advances_then; [|intros ?]
    | match goal with
      | H : forall _, advances 1 _ |- advances 0 _ => apply advances_any, H
      | |- advances _ (if ?c then _ else _) => destruct c
      end ].

Lemma statements_progress (n : nat) :
  advances 1 (parse_statement tokens n) /\
  (forall l, advances 1 (parse_block tokens n l)) /\
  advances 1 (parse_if tokens n) /\
  advances 1 (parse_while tokens n) /\
  advances 1 (parse_for tokens n).
Proof.
  induction n as [|n [IHs [IHb [IHi [IHw IHf]]]]].
  - repeat split; intros; apply advances_out_of_fuel.
  - repeat split; intros.
    + cbn [parse_statement].
      apply (advances_bind 0 1); [apply advances_peek| |lia]. intros t.
      destruct (is_decl_kind _); [apply advances_vardecl|].
      destruct (fst t =? "IF"); [exact IHi|].
      destruct (fst t =? "WHILE"); [exact IHw|].
      destruct (fst t =? "FOR"); [exact IHf|].
      destruct (fst t =? "RETURN").
      * apply advances_after; [apply advances_next|]. intros _. advances_zero.
      * apply advances_after; [apply advances_expr|]. intros e. advances_zero.
    + cbn [parse_block].
      apply (advances_bind 0 1); [apply advances_peek| |lia]. intros t.
      destruct (snd t =? "}").
      * apply advances_after; [apply advances_next|]. intros _. advances_zero.
      * apply advances_after; [exact IHs|]. intros s. apply advances_any, IHb.
    + cbn [parse_if].
      apply advances_after; [apply advances_expect|]. intros _. advances_zero.
    + cbn [parse_while].
      apply advances_after; [apply advances_expect|]. intros _. advances_zero.
    + cbn [parse_for].
      apply advances_after; [apply advances_expect|]. intros _. advances_zero.
Qed.

Lemma advances_params_loop (n : nat) :
  forall l, advances 1 (params_loop tokens n l).
Proof.
  induction n as [|n IH]; intros l; [apply advances_out_of_fuel|].
  cbn [params_loop].
  apply advances_after; [apply advances_expect_type|]. intros ty. advances_zero.
Qed.

Lemma advances_expect_punct (s : string) : advances 1 (expect_punct tokens s).
Proof.
  unfold expect_punct.
  apply advances_after; [apply advances_expect|]. intros t. advances_zero.
Qed.

Lemma advances_function (n : nat) : advances 1 (parse_function tokens n).
Proof.
  unfold parse_function.
  apply advances_after; [apply advances_expect|]. intros _.
  pose proof (proj1 (proj2 (statements_progress n))) as Hb.
  pose proof (advances_params_loop n) as Hp.
  pose proof advances_expect_punct as He.
  advances_zero.
Qed.

(** ** Fuel that is enough *)

Lemma expect_type_done pos t pos' :
  expect_type tokens pos = Done t pos' ->
  pos' = S pos /\ (pos < List.length tokens)%nat.
Proof.
  intros H. apply bind_done in H as [t0 [p [H1 H2]]].
  apply peek_done in H1 as [-> _].
  destruct (is_type_kind _); [|discriminate].
  apply next_done in H2 as [-> [_ Hlt]]. auto.
Qed.

Lemma expect_op_bounds s pos u pos' :
  expect_op tokens s pos = Done u pos' ->
  pos' = S pos /\ (pos < List.length tokens)%nat.
Proof.
  intros H. apply bind_done in H as [t [p [H1 H2]]].
  apply next_done in H1 as [-> [_ Hlt]].
  destruct (negb _); inversion H2. auto.
Qed.

Lemma expect_punct_done s pos u pos' :
  expect_punct tokens s pos = Done u pos' ->
  pos' = S pos /\ (pos < List.length tokens)%nat.
Proof.
  intros H. apply bind_done in H as [t [p [H1 H2]]].
  apply expect_done in H1 as [-> Hlt].
  destruct (negb _); inversion H2. auto.
Qed.

Lemma expect_punct_finishes s pos : expect_punct tokens s pos <> OutOfFuel.
Proof.
  apply bind_finishes; [apply expect_finishes|]. intros t p _.
  destruct (negb _); discriminate.
Qed.

Lemma expr_enough (n : nat) (m : Z) (pos : nat) :
  (2 * (List.length tokens - pos) + 2 <= n)%nat ->
  parse_expr tokens n m pos <> OutOfFuel.
Proof. apply (enough_fuel tokens n). Qed.

Lemma vardecl_enough (n : nat) (pos : nat) :
  (2 * (List.length tokens - pos) + 1 <= n)%nat ->
  parse_vardecl tokens n pos <> OutOfFuel.
Proof.
  intros Hn. unfold parse_vardecl.
  apply bind_finishes; [apply expect_type_finishes|]. intros typ p Htyp.
  apply expect_type_done in Htyp as [-> Hlt].
  apply bind_finishes; [apply vardecl_loop_enough; lia|]. intros names p' _.
  apply bind_finishes; [apply expect_op_finishes|]. intros; apply ret_finishes.
Qed.

Lemma vardecl_for_enough (n : nat) (pos : nat) :
  (2 * (List.length tokens - pos) + 1 <= n)%nat ->
  parse_vardecl_for tokens n pos <> OutOfFuel.
Proof. rewrite vardecl_for_agrees. apply vardecl_enough. Qed.

(** What a step that returned says about the positions. *)
Ltac note_done H :=
  first
    [ apply peek_done in H as [-> [_ ?]]
    | apply next_done in H as [-> [_ ?]]
    | apply expect_done in H as [-> ?]
    | apply expect_op_bounds in H as [-> ?]
    | apply expect_type_done in H as [-> ?]
    | apply expect_punct_done in H as [-> ?]
    | apply advances_expr in H
    | apply advances_vardecl in H
    | apply advances_vardecl_for in H
    | match goal with
      | A : advances 1 _ |- _ => apply A in H
      | A : forall l, advances 1 _ |- _ => apply A in H
      end
    | match type of H with
      | ?m ?pos = Done _ _ =>
          let A := fresh "A" in
          assert (A : advances 0 m) by advances_zero; apply A in H
      end ].

Ltac finishes_step :=
  first
    [ apply ret_finishes
    | apply raise_finishes
    | apply peek_finishes
    | apply next_finishes
    | apply expect_finishes
    | apply expect_op_finishes
    | apply expect_type_finishes
    | apply expect_punct_finishes
    | apply expr_enough; lia
    | apply vardecl_enough; lia
    | apply vardecl_for_enough; lia
    | match goal with
      | IH : forall pos, (_ <= _)%nat -> _ <> OutOfFuel |- _ <> OutOfFuel =>
          apply IH; lia
      | IH : forall l pos, (_ <= _)%nat -> _ <> OutOfFuel |- _ <> OutOfFuel =>
          apply IH; lia
      | |- (if ?c then _ else _) _ <> OutOfFuel => destruct c
      | |- bind _ _ _ <> OutOfFuel =>
          apply bind_finishes;
          [|let a := fresh "a" in let p := fresh "p" in let H := fresh "HD" in
            intros a p H; note_done H]
      end ].

Lemma statements_enough_fuel (n : nat) :
  (forall pos, (3 * (List.length tokens - pos) + 4 <= n)%nat ->
     parse_statement tokens n pos <> OutOfFuel) /\
  (forall l pos, (3 * (List.length tokens - pos) + 5 <= n)%nat ->
     parse_block tokens n l pos <> OutOfFuel) /\
  (forall pos, (3 * (List.length tokens - pos) + 3 <= n)%nat ->
     parse_if tokens n pos <> OutOfFuel) /\
  (forall pos, (3 * (List.length tokens - pos) + 3 <= n)%nat ->
     parse_while tokens n pos <> OutOfFuel) /\
  (forall pos, (3 * (List.length tokens - pos) + 3 <= n)%nat ->
     parse_for tokens n pos <> OutOfFuel).
Proof.
  induction n as [|n [IHs [IHb [IHi [IHw IHf]]]]].
  - repeat split; intros; lia.
  - destruct (statements_progress n) as [Ps [Pb [Pi [Pw Pf]]]].
    repeat split; intros.
    + cbn [parse_statement]. repeat finishes_step.
    + cbn [parse_block]. repeat finishes_step.
    + cbn [parse_if]. repeat finishes_step.
    + cbn [parse_while]. repeat finishes_step.
    + cbn [parse_for]. repeat finishes_step.
Qed.

Lemma params_loop_enough (n : nat) :
  forall l pos, ((List.length tokens - pos) + 1 <= n)%nat ->
    params_loop tokens n l pos <> OutOfFuel.
Proof.
  induction n as [|n IH]; intros l pos H; [lia|].
  cbn [params_loop]. repeat finishes_step.
Qed.

Lemma function_enough (n : nat) (pos : nat) :
  (3 * (List.length tokens - pos) + 5 <= n)%nat ->
  parse_function tokens n pos <> OutOfFuel.
Proof.
  intros H. unfold parse_function.
  pose proof (proj1 (proj2 (statements_enough_fuel n))) as IHb.
  pose proof params_loop_enough n as IHp.
  pose proof (advances_params_loop n) as Pp.
  pose proof (proj1 (proj2 (statements_progress n))) as Pb.
  repeat finishes_step.
Qed.

Lemma parse_loop_enough (n : nat) :
  forall l pos, (3 * (List.length tokens - pos) + 6 <= n)%nat ->
    parse_loop tokens n l pos <> OutOfFuel.
Proof.
  induction n as [|n IH]; intros l pos H; [lia|].
  cbn [parse_loop].
  apply bind_finishes; [apply peek_finishes|]. intros t p Ht.
  apply peek_done in Ht as [-> [_ Hlt]].
  destruct (negb _); [|apply ret_finishes].
  apply bind_finishes; [apply function_enough; lia|]. intros f p Hf.
  apply advances_function in Hf. apply IH. lia.
Qed.

(** ** The methods with enough fuel *)

Lemma statement_answer (n : nat) (pos : nat) (r : outcome stmt) :
  parse_statement tokens n pos = r -> r <> OutOfFuel ->
  run_statement tokens pos = r.
Proof.
  unfold run_statement.
  apply (answer_is_run (fun k => parse_statement tokens k pos)
           (3 * (List.length tokens - pos) + 4) n).
  - intros a b L. apply (statements_monotone a b L).
  - intros a L. apply statements_enough_fuel, L.
  - unfold program_fuel. lia.
Qed.

Lemma block_answer (n : nat) (l : list stmt) (pos : nat) (r : outcome (list stmt)) :
  parse_block tokens n l pos = r -> r <> OutOfFuel ->
  run_block tokens l pos = r.
Proof.
  unfold run_block.
  apply (answer_is_run (fun k => parse_block tokens k l pos)
           (3 * (List.length tokens - pos) + 5) n).
  - intros a b L. apply (statements_monotone a b L).
  - intros a L. apply statements_enough_fuel, L.
  - unfold program_fuel. lia.
Qed.

Lemma function_answer (n : nat) (pos : nat) (r : outcome func_decl) :
  parse_function tokens n pos = r -> r <> OutOfFuel ->
  run_function tokens pos = r.
Proof.
  unfold run_function.
  apply (answer_is_run (fun k => parse_function tokens k pos)
           (3 * (List.length tokens - pos) + 5) n).
  - intros a b L. apply (function_monotone a b pos L).
  - intros a L. apply function_enough, L.
  - unfold program_fuel. lia.
Qed.

Lemma parse_answer (n : nat) (r : outcome program) :
  parse tokens n = r -> r <> OutOfFuel -> run_parse tokens = r.
Proof.
  unfold run_parse, parse.
  apply (answer_is_run (fun k => parse_loop tokens k [] 0)
           (3 * (List.length tokens - 0) + 6) n).
  - intros a b L. apply (parse_loop_monotone a b [] 0 L).
  - intros a L. apply parse_loop_enough, L.
  - unfold program_fuel. lia.
Qed.

(** ** What the parser builds *)

Lemma ensures_bind {A C} (Q : A -> Prop) (P : C -> Prop) (m : parser A)
    (f : A -> parser C) :
  ensures Q m -> (forall a, Q a -> ensures P (f a)) -> ensures P (bind m f).
Proof.
  intros Hm Hf pos c pos'' H. apply bind_done in H as [a [pos' [H1 H2]]].
  apply (Hf a (Hm _ _ _ H1) _ _ _ H2).
Qed.

Lemma ensures_any {A} (m : parser A) : ensures (fun _ => True) m.
Proof. intros pos a pos' _. exact I. Qed.

Lemma ensures_then {A C} (P : C -> Prop) (m : parser A) (f : A -> parser C) :
  (forall a, ensures P (f a)) -> ensures P (bind m f).
Proof.
  intros Hf. apply (ensures_bind (fun _ => True)); [apply ensures_any|auto].
Qed.

Lemma ensures_ret {A} (P : A -> Prop) (a : A) : P a -> ensures P (ret a).
Proof. intros H pos b pos' E. inversion E; subst. exact H. Qed.

Lemma ensures_raise {A} (P : A -> Prop) e : ensures P (@raise A e).
Proof. intros pos b pos' E. discriminate. Qed.

Lemma ensures_out_of_fuel {A} (P : A -> Prop) : ensures P (fun _ => @OutOfFuel A).
Proof. intros pos b pos' E. discriminate. Qed.

Lemma ensures_convert {A C} (P : C -> Prop) (f : string -> option A) e s
    (k : A -> parser C) :
  (forall a, ensures P (k a)) -> ensures P (bind (convert f e s) k).
Proof. apply ensures_then. Qed.

Lemma all_known_snoc (l : list expr) (e : expr) :
  all_known l -> known_expr e = true -> all_known (l ++ [e]).
Proof.
  unfold all_known. intros Hl He. rewrite forallb_app, Hl. simpl. rewrite He.
  reflexivity.
Qed.

Lemma expressions_known (n : nat) :
  (forall m, ensures (fun e => known_expr e = true) (parse_expr tokens n m)) /\
  (forall m l, known_expr l = true ->
     ensures (fun e => known_expr e = true) (parse_binary tokens n m l)) /\
  ensures (fun e => known_expr e = true) (parse_primary tokens n) /\
  (forall a, all_known a -> ensures all_known (parse_args tokens n a)).
Proof.
  induction n as [|n [IHe [IHb [IHp IHa]]]].
  - repeat split; intros; apply ensures_out_of_fuel.
  - repeat split; intros.
    + cbn [parse_expr]. apply ensures_then. intros t.
      apply (ensures_bind (fun e => known_expr e = true)); [|intros l Hl; apply IHb, Hl].
      destruct (is_unary_op _); [|apply IHp].
      apply ensures_then. intros op.
      apply (ensures_bind (fun e => known_expr e = true)); [apply IHe|].
      intros e He. apply ensures_ret. exact He.
    + cbn [parse_binary]. apply ensures_then. intros t.
      destruct (PRECEDENCE _); [|apply ensures_ret; assumption].
      destruct (_ <? _)%Z; [apply ensures_ret; assumption|].
      apply ensures_then. intros _.
      apply (ensures_bind (fun e => known_expr e = true)); [apply IHe|].
      intros r Hr. apply IHb. simpl. rewrite H, Hr. reflexivity.
    + cbn [parse_primary]. apply ensures_then. intros t.
      destruct (fst t =? "NUMBER").
      { apply ensures_then. intros tok.
        destruct (has_dot _); apply ensures_then; intros v;
          apply ensures_ret; reflexivity. }
      destruct (fst t =? "STRING").
      { apply ensures_then. intros tok. apply ensures_then. intros v.
        apply ensures_ret. reflexivity. }
      destruct ((fst t =? "TRUE") || (fst t =? "FALSE")).
      { apply ensures_then. intros tok. apply ensures_ret. reflexivity. }
      destruct (fst t =? "ID").
      { apply ensures_then. intros name. apply ensures_then. intros t1.
        destruct (snd t1 =? "(").
        - apply ensures_then. intros _. apply ensures_then. intros t2.
          apply (ensures_bind all_known).
          + destruct (negb _); [apply IHa; reflexivity|apply ensures_ret; reflexivity].
          + intros args Hargs. apply ensures_then. intros _.
            apply ensures_ret. exact Hargs.
        - apply ensures_then. intros t3.
          destruct (snd t3 =? "="); [|apply ensures_ret; reflexivity].
          apply ensures_then. intros _.
          apply (ensures_bind (fun e => known_expr e = true)); [apply IHe|].
          intros v Hv. apply ensures_ret. exact Hv. }
      destruct (snd t =? "("); [|apply ensures_raise].
      apply ensures_then. intros _.
      apply (ensures_bind (fun e => known_expr e = true)); [apply IHe|].
      intros e He. apply ensures_then. intros _. apply ensures_ret. exact He.
    + cbn [parse_args].
      apply (ensures_bind (fun e => known_expr e = true)); [apply IHe|].
      intros e He. apply ensures_then. intros t.
      destruct (snd t =? ",").
      * apply ensures_then. intros _. apply IHa, all_known_snoc; assumption.
      * apply ensures_ret, all_known_snoc; assumption.
Qed.

Lemma expr_known (n : nat) (m : Z) :
  ensures (fun e => known_expr e = true) (parse_expr tokens n m).
Proof. apply (expressions_known n). Qed.

Lemma vardecl_loop_known (n : nat) :
  forall names, declarators_known names ->
    ensures (fun l => parsed_decl l = true) (vardecl_loop tokens n names).
Proof.
  induction n as [|n IH]; intros names Hn; [apply ensures_out_of_fuel|].
  cbn [vardecl_loop]. apply ensures_then. intros name. apply ensures_then. intros t.
  apply (ensures_bind (fun o => known_opt_expr o = true)).
  - destruct (snd t =? "="); [|apply ensures_ret; reflexivity].
    apply ensures_then. intros _.
    apply (ensures_bind (fun e => known_expr e = true)); [apply expr_known|].
    intros e He. apply ensures_ret. exact He.
  - intros init Hinit.
    assert (Hk : declarators_known (names ++ [(snd name, init)])).
    { unfold declarators_known. rewrite forallb_app. unfold declarators_known in Hn.
      rewrite Hn. simpl. unfold known_declarator. simpl. rewrite Hinit. reflexivity. }
    apply ensures_then. intros t'.
    destruct (snd t' =? ","); [apply ensures_then; intros _; apply IH, Hk|].
    apply ensures_ret. unfold parsed_decl.
    destruct (names ++ [(snd name, init)])%list eqn:E; [|exact Hk].
    destruct names; discriminate.
Qed.

Lemma vardecl_parsed (n : nat) :
  ensures (fun s => exists t names, s = VarDecl t names /\ parsed_decl names = true)
    (parse_vardecl tokens n).
Proof.
  unfold parse_vardecl. apply ensures_then. intros typ.
  apply (ensures_bind (fun l => parsed_decl l = true));
    [apply vardecl_loop_known; reflexivity|].
  intros names Hn. apply ensures_then. intros _. apply ensures_ret. eauto.
Qed.

Lemma vardecl_for_parsed (n : nat) :
  ensures (fun s => exists t names, s = VarDecl t names /\ parsed_decl names = true)
    (parse_vardecl_for tokens n).
Proof.
  intros pos a pos' H. rewrite vardecl_for_agrees in H.
  apply (vardecl_parsed n _ _ _ H).
Qed.

Lemma all_parsed_snoc (l : list stmt) (s : stmt) :
  all_parsed l -> parsed_stmt s = true -> all_parsed (l ++ [s]).
Proof.
  unfold all_parsed. intros Hl Hs. rewrite forallb_app, Hl. simpl. rewrite Hs.
  reflexivity.
Qed.

Lemma statements_parsed (n : nat) :
  ensures (fun s => parsed_stmt s = true) (parse_statement tokens n) /\
  (forall l, all_parsed l -> ensures all_parsed (parse_block tokens n l)) /\
  ensures (fun s => parsed_stmt s = true) (parse_if tokens n) /\
  ensures (fun s => parsed_stmt s = true) (parse_while tokens n) /\
  ensures (fun s => parsed_stmt s = true) (parse_for tokens n).
Proof.
  induction n as [|n [IHs [IHb [IHi [IHw IHf]]]]].
  - repeat split; intros; apply ensures_out_of_fuel.
  - repeat split; intros.
    + cbn [parse_statement]. apply ensures_then. intros t.
      destruct (is_decl_kind _).
      { intros pos s pos' H. apply vardecl_parsed in H as [ty [names [-> Hn]]].
        exact Hn. }
      destruct (fst t =? "IF"); [exact IHi|].
      destruct (fst t =? "WHILE"); [exact IHw|].
      destruct (fst t =? "FOR"); [exact IHf|].
      destruct (fst t =? "RETURN").
      * apply ensures_then. intros _. apply ensures_then. intros t'.
        destruct (snd t' =? ";").
        { apply ensures_then. intros _. apply ensures_ret. reflexivity. }
        apply (ensures_bind (fun e => known_expr e = true)); [apply expr_known|].
        intros e He. apply ensures_then. intros _. apply ensures_ret. exact He.
      * apply (ensures_bind (fun e => known_expr e = true)); [apply expr_known|].
        intros e He. apply ensures_then. intros _. apply ensures_ret. exact He.
    + cbn [parse_block]. apply ensures_then. intros t.
      destruct (snd t =? "}").
      * apply ensures_then. intros _. apply ensures_ret. assumption.
      * apply (ensures_bind (fun s => parsed_stmt s = true)); [exact IHs|].
        intros s Hs. apply IHb, all_parsed_snoc; assumption.
    + cbn [parse_if]. apply ensures_then. intros _. apply ensures_then. intros _.
      apply (ensures_bind (fun e => known_expr e = true)); [apply expr_known|].
      intros c Hc. apply ensures_then. intros _. apply ensures_then. intros _.
      apply (ensures_bind all_parsed); [apply IHb; reflexivity|].
      intros tb Htb. apply ensures_then. intros t.
      apply (ensures_bind (fun o => match o with
                                    | Some b => all_parsed b
                                    | None => True
                                    end)).
      * destruct (fst t =? "ELSE"); [|apply ensures_ret; exact I].
        apply ensures_then. intros _. apply ensures_then. intros _.
        apply (ensures_bind all_parsed); [apply IHb; reflexivity|].
        intros b Hb. apply ensures_ret. exact Hb.
      * intros eb Heb. apply ensures_ret. simpl. rewrite Hc. unfold all_parsed in Htb.
        rewrite Htb. destruct eb; [exact Heb|reflexivity].
    + cbn [parse_while]. apply ensures_then. intros _. apply ensures_then. intros _.
      apply (ensures_bind (fun e => known_expr e = true)); [apply expr_known|].
      intros c Hc. apply ensures_then. intros _. apply ensures_then. intros _.
      apply (ensures_bind all_parsed); [apply IHb; reflexivity|].
      intros b Hb. apply ensures_ret. simpl. rewrite Hc. exact Hb.
    + cbn [parse_for]. apply ensures_then. intros _. apply ensures_then. intros _.
      apply ensures_then. intros t.
      apply (ensures_bind (fun i => match i with
                                    | None => True
                                    | Some (VarDecl _ names) => parsed_decl names = true
                                    | Some (ExprStmt e) => known_expr e = true
                                    | Some _ => False
                                    end)).
      * destruct (negb _).
        { apply ensures_then. intros t1. destruct (is_decl_kind _).
          - apply (ensures_bind _ _ _ _ (vardecl_for_parsed n)).
            intros d [ty [names [-> Hn]]]. apply ensures_ret. exact Hn.
          - apply (ensures_bind (fun e => known_expr e = true)); [apply expr_known|].
            intros e He. apply ensures_then. intros _. apply ensures_ret. exact He. }
        apply ensures_then. intros _. apply ensures_ret. exact I.
      * intros i Hi. apply ensures_then. intros t2.
        apply (ensures_bind (fun o => known_opt_expr o = true)).
        { destruct (negb _); [|apply ensures_ret; reflexivity].
          apply (ensures_bind (fun e => known_expr e = true)); [apply expr_known|].
          intros e He. apply ensures_ret. exact He. }
        intros c Hc. apply ensures_then. intros _. apply ensures_then. intros t3.
        apply (ensures_bind (fun o => known_opt_expr o = true)).
        { destruct (negb _); [|apply ensures_ret; reflexivity].
          apply (ensures_bind (fun e => known_expr e = true)); [apply expr_known|].
          intros e He. apply ensures_ret. exact He. }
        intros p Hp. apply ensures_then. intros _. apply ensures_then. intros _.
        apply (ensures_bind all_parsed); [apply IHb; reflexivity|].
        intros b Hb. apply ensures_ret. cbn [parsed_stmt].
        rewrite Hc, Hp. unfold all_parsed in Hb. rewrite Hb.
        destruct i as [[ty names|e| | | | |]|]; try contradiction;
          try rewrite Hi; reflexivity.
Qed.

Lemma function_parsed (n : nat) :
  ensures (fun f => parsed_func f = true) (parse_function tokens n).
Proof.
  unfold parse_function.
  do 7 (apply ensures_then; intros ?).
  apply ensures_then. intros _.
  apply (ensures_bind all_parsed);
    [apply (proj1 (proj2 (statements_parsed n))); reflexivity|].
  intros b Hb. apply ensures_ret. exact Hb.
Qed.

Lemma parse_loop_parsed (n : nat) :
  forall l, forallb parsed_func l = true ->
    ensures (fun p => parsed_program p = true) (parse_loop tokens n l).
Proof.
  induction n as [|n IH]; intros l Hl; [apply ensures_out_of_fuel|].
  cbn [parse_loop]. apply ensures_then. intros t.
  destruct (negb _); [|apply ensures_ret; exact Hl].
  apply (ensures_bind _ _ _ _ (function_parsed n)). intros f Hf.
  apply IH. rewrite forallb_app, Hl. simpl. rewrite Hf. reflexivity.
Qed.

Lemma parsed_stmt_known (s : stmt) : parsed_stmt s = true -> known_stmt s = true.
Proof.
  induction s as [t names|e|c t e IHt IHe|c b IHb|i c p b IHb|e|]
    using CodegenFacts.stmt_nested_ind; cbn [parsed_stmt known_stmt]; intros H.
  - unfold parsed_decl in H. destruct names; [discriminate|exact H].
  - exact H.
  - apply andb_true_iff in H as [H He']. apply andb_true_iff in H as [Hc Ht].
    rewrite Hc. cbn [andb]. apply andb_true_iff. split.
    + apply forallb_forall. intros s Hs. rewrite Forall_forall in IHt.
      rewrite forallb_forall in Ht. auto.
    + destruct e as [b|]; [|reflexivity].
      apply forallb_forall. intros s Hs. rewrite Forall_forall in IHe.
      rewrite forallb_forall in He'. auto.
  - apply andb_true_iff in H as [Hc Hb]. rewrite Hc. cbn [andb].
    apply forallb_forall. intros s Hs. rewrite Forall_forall in IHb.
    rewrite forallb_forall in Hb. auto.
  - apply andb_true_iff in H as [H Hb]. apply andb_true_iff in H as [H Hp].
    apply andb_true_iff in H as [Hi Hc]. rewrite Hc, Hp.
    assert (Ki : match i with Some s' => known_stmt s' | None => true end = true).
    { destruct i as [[ty names|e| | | | |]|]; try discriminate; try reflexivity.
      - cbn [known_stmt]. unfold parsed_decl in Hi.
        destruct names; [discriminate|exact Hi].
      - exact Hi. }
    rewrite Ki. cbn [andb].
    apply forallb_forall. intros s Hs. rewrite Forall_forall in IHb.
    rewrite forallb_forall in Hb. auto.
  - exact H.
  - discriminate.
Qed.

Lemma parsed_program_known (p : program) :
  parsed_program p = true -> known_program p = true.
Proof.
  unfold parsed_program, known_program, parsed_func, known_func. intros H.
  apply forallb_forall. intros f Hf. rewrite forallb_forall in H.
  specialize (H f Hf). apply forallb_forall. intros s Hs.
  rewrite forallb_forall in H. apply parsed_stmt_known. auto.
Qed.

(** ** Where the program ends *)

Lemma parse_loop_stops_at_eof (n : nat) :
  forall l pos p pos',
    parse_loop tokens n l pos = Done p pos' ->
    (exists t, nth_error tokens pos' = Some t /\ fst t = "EOF") /\
    (exists added, funcs p = (l ++ added)%list) /\
    (pos <= pos')%nat.
Proof.
  induction n as [|n IH]; intros l pos p pos' H; [discriminate|].
  cbn [parse_loop] in H. apply bind_done in H as [t [p1 [Ht H]]].
  apply peek_done in Ht as [-> [Ht _]].
  destruct (String.eqb_spec (fst t) "EOF") as [E|N]; cbn [negb] in H.
  - inversion H; subst. split; [eauto|]. split; [|lia].
    exists []. cbn. rewrite app_nil_r. reflexivity.
  - apply bind_done in H as [f [p2 [Hf H]]]. apply advances_function in Hf.
    apply IH in H as [He [[added Ha] Hp]]. split; [exact He|]. split; [|lia].
    exists (f :: added). rewrite Ha, <- app_assoc. reflexivity.
Qed.

(** ** Tokens that start nothing *)

Lemma starts_nothing_spec (t : token) :
  starts_nothing t = true ->
  is_decl_kind (fst t) = false /\
  (fst t =? "IF") = false /\ (fst t =? "WHILE") = false /\
  (fst t =? "FOR") = false /\ (fst t =? "RETURN") = false /\
  is_unary_op (snd t) = false /\
  (fst t =? "NUMBER") = false /\ (fst t =? "STRING") = false /\
  ((fst t =? "TRUE") || (fst t =? "FALSE")) = false /\
  (fst t =? "ID") = false /\ (snd t =? "(") = false.
Proof.
  unfold starts_nothing. intros H.
  repeat match type of H with
         | (_ && _) = true => apply andb_true_iff in H as [H ?]
         end.
  repeat match goal with
         | H : negb _ = true |- _ => apply negb_true_iff in H
         | H : (_ || _) = false |- _ => apply orb_false_iff in H as [? ?]
         end.
  repeat split; try assumption.
  apply orb_false_iff. split; assumption.
Qed.

Lemma primary_unexpected (n : nat) (pos : nat) (t : token) :
  nth_error tokens pos = Some t -> starts_nothing t = true ->
  parse_primary tokens (S n) pos = Raise (UnexpectedToken t).
Proof.
  intros Ht Hs. apply starts_nothing_spec in Hs
    as [_ [_ [_ [_ [_ [_ [H1 [H2 [H3 [H4 H5]]]]]]]]]].
  cbn [parse_primary]. unfold bind at 1. unfold peek at 1. rewrite Ht.
  rewrite H1, H2, H3, H4, H5. reflexivity.
Qed.

Lemma expr_unexpected (n : nat) (m : Z) (pos : nat) (t : token) :
  nth_error tokens pos = Some t -> starts_nothing t = true ->
  parse_expr tokens (S (S n)) m pos = Raise (UnexpectedToken t).
Proof.
  intros Ht Hs. rewrite parse_expr_eq. unfold bind at 1. unfold peek at 1.
  rewrite Ht. pose proof (starts_nothing_spec t Hs) as [_ [_ [_ [_ [_ [Hu _]]]]]].
  rewrite Hu. unfold bind. rewrite (primary_unexpected _ _ _ Ht Hs). reflexivity.
Qed.

Lemma parse_statement_eq (n : nat) :
  parse_statement tokens (S n) =
    (t <- peek tokens ;;
     if is_decl_kind (fst t) then parse_vardecl tokens n
     else if fst t =? "IF" then parse_if tokens n
     else if fst t =? "WHILE" then parse_while tokens n
     else if fst t =? "FOR" then parse_for tokens n
     else if fst t =? "RETURN" then
       next tokens ;;
       t' <- peek tokens ;;
       if snd t' =? ";" then next tokens ;; ret (ReturnStmt None)
       else
         e <- parse_expr tokens n 1 ;;
         expect_op tokens ";" ;;
         ret (ReturnStmt (Some e))
     else
       e <- parse_expr tokens n 1 ;;
       expect_op tokens ";" ;;
       ret (ExprStmt e)).
Proof. reflexivity. Qed.

Lemma parse_block_eq (n : nat) (stmts : list stmt) :
  parse_block tokens (S n) stmts =
    (t <- peek tokens ;;
     if snd t =? "}" then next tokens ;; ret stmts
     else
       s <- parse_statement tokens n ;;
       parse_block tokens n (stmts ++ [s])%list).
Proof. reflexivity. Qed.

Lemma statement_unexpected (n : nat) (pos : nat) (t : token) :
  nth_error tokens pos = Some t -> starts_nothing t = true ->
  parse_statement tokens (S (S (S n))) pos = Raise (UnexpectedToken t).
Proof.
  intros Ht Hs. rewrite parse_statement_eq. unfold bind at 1. unfold peek at 1.
  rewrite Ht. pose proof (starts_nothing_spec t Hs) as [H1 [H2 [H3 [H4 [H5 _]]]]].
  rewrite H1, H2, H3, H4, H5. unfold bind.
  rewrite (expr_unexpected _ _ _ _ Ht Hs). reflexivity.
Qed.

Lemma block_unexpected (n : nat) (l : list stmt) (pos : nat) (t : token) :
  nth_error tokens pos = Some t -> starts_nothing t = true ->
  (snd t =? "}") = false ->
  parse_block tokens (S (S (S (S n)))) l pos = Raise (UnexpectedToken t).
Proof.
  intros Ht Hs Hb. rewrite parse_block_eq. unfold bind at 1. unfold peek at 1.
  rewrite Ht, Hb. unfold bind.
  rewrite (statement_unexpected _ _ _ Ht Hs). reflexivity.
Qed.

Lemma expr_answer_any (n : nat) (m : Z) (pos : nat) (r : outcome expr) :
  parse_expr tokens n m pos = r -> r <> OutOfFuel -> run_expr tokens m pos = r.
Proof.
  unfold run_expr.
  apply (answer_is_run (fun k => parse_expr tokens k m pos)
           (2 * (List.length tokens - pos) + 2) n).
  - intros a b L. apply (fuel_monotone tokens a b L).
  - intros a L. apply enough_fuel, L.
  - unfold fuel_for. lia.
Qed.

Lemma vardecl_answer (n : nat) (pos : nat) (r : outcome stmt) :
  parse_vardecl tokens n pos = r -> r <> OutOfFuel -> run_vardecl tokens pos = r.
Proof.
  unfold run_vardecl.
  apply (answer_is_run (fun k => parse_vardecl tokens k pos)
           (2 * (List.length tokens - pos) + 1) n).
  - intros a b L. apply (vardecl_monotone a b pos L).
  - intros a L. apply vardecl_enough, L.
  - unfold fuel_for. lia.
Qed.

Lemma parse_block_closes (n : nat) :
  forall l pos b pos',
    parse_block tokens n l pos = Done b pos' ->
    (exists added, b = (l ++ added)%list /\ all_parsed added) /\
    exists p t, pos' = S p /\ (pos <= p)%nat /\
                nth_error tokens p = Some t /\ snd t = "}".
Proof.
  induction n as [|n IH]; intros l pos b pos' H; [discriminate|].
  rewrite parse_block_eq in H. apply bind_done in H as [t [p1 [Ht H]]].
  apply peek_done in Ht as [-> [Ht _]].
  destruct (String.eqb_spec (snd t) "}") as [E|N].
  - apply bind_done in H as [t' [p2 [Hn H]]].
    apply next_done in Hn as [-> _]. inversion H; subst.
    split; [exists []; rewrite app_nil_r; split; reflexivity|].
    exists pos, t. auto.
  - apply bind_done in H as [s [p2 [Hs H]]].
    pose proof (proj1 (statements_parsed n) _ _ _ Hs) as Hparsed.
    apply (proj1 (statements_progress n)) in Hs.
    apply IH in H as [[added [Ha Hadd]] [p [t' [Hp [Hle [Hn Hb]]]]]].
    split.
    + exists (s :: added). rewrite Ha, <- app_assoc. split; [reflexivity|].
      unfold all_parsed in *. cbn [forallb]. rewrite Hparsed, Hadd. reflexivity.
    + exists p, t'. repeat split; auto. lia.
Qed.

(** ** Properties of the statement parser *)

(** X1.  [parse] terminates on every token list: the fuel of the model is
    enough from three times the number of tokens plus six, and the answer
    is the same for all fuel above that. *)
Theorem parse_terminates :
  run_parse tokens <> OutOfFuel /\
  (forall fuel,
     (3 * List.length tokens + 6 <= fuel)%nat ->
     parse tokens fuel = run_parse tokens).
Proof.
  split.
  - unfold run_parse, parse. apply parse_loop_enough. unfold program_fuel. lia.
  - intros fuel H. unfold run_parse, parse.
    apply (answer_at_any_fuel (fun k => parse_loop tokens k [] 0)
             (3 * List.length tokens + 6)).
    + intros a b L. apply (parse_loop_monotone a b [] 0 L).
    + intros a L. apply parse_loop_enough. lia.
    + exact H.
    + unfold program_fuel. lia.
Qed.

(** X2.  [parse] returns a program only in front of a token of type [EOF],
    which it leaves unread; on a token list without such a token (the
    empty list among them) it raises. *)
Theorem parse_stops_at_eof :
  (forall p pos,
     run_parse tokens = Done p pos ->
     exists t, nth_error tokens pos = Some t /\ fst t = "EOF") /\
  (Forall (fun t => fst t <> "EOF") tokens ->
   exists e, run_parse tokens = Raise e).
Proof.
  assert (Hdone : forall p pos,
            run_parse tokens = Done p pos ->
            exists t, nth_error tokens pos = Some t /\ fst t = "EOF").
  { intros p pos H. unfold run_parse, parse in H.
    apply parse_loop_stops_at_eof in H as [He _]. exact He. }
  split; [exact Hdone|].
  intros Hall. destruct (run_parse tokens) as [p pos|e|] eqn:E.
  - destruct (Hdone p pos eq_refl) as [t [Ht He]].
    rewrite Forall_forall in Hall. apply nth_error_In in Ht.
    destruct (Hall t Ht He).
  - eauto.
  - unfold run_parse, parse in E.
    destruct (parse_loop_enough (program_fuel tokens) [] 0); [|exact E].
    unfold program_fuel. lia.
Qed.

(** X3.  Whatever [parse] returns is made of nodes of the known classes
    only; every declaration in it has at least one declarator, and the
    init clause of every [for] is absent, a declaration or an expression
    statement. *)
Theorem parse_builds_known_nodes :
  forall p pos,
    run_parse tokens = Done p pos ->
    parsed_program p = true /\ known_program p = true.
Proof.
  intros p pos H. unfold run_parse, parse in H.
  apply (parse_loop_parsed (program_fuel tokens) []) in H; [|reflexivity].
  split; [exact H|apply parsed_program_known, H].
Qed.

(** X4.  A token that starts neither a statement nor an expression (the
    [EOF] token, the keywords [input], [else], [func] and [void], a
    closing parenthesis, ...) makes an expression, a statement and, unless
    it is the closing brace, a block raise the error that names it. *)
Theorem unexpected_token_raises :
  forall pos t,
    nth_error tokens pos = Some t ->
    starts_nothing t = true ->
    (forall m, run_expr tokens m pos = Raise (UnexpectedToken t)) /\
    run_statement tokens pos = Raise (UnexpectedToken t) /\
    ((snd t =? "}") = false ->
     forall stmts, run_block tokens stmts pos = Raise (UnexpectedToken t)).
Proof.
  intros pos t Ht Hs. split; [|split].
  - intros m. apply (expr_answer_any 2); [|discriminate].
    apply (expr_unexpected _ _ _ _ Ht Hs).
  - apply (statement_answer 3); [|discriminate].
    apply (statement_unexpected _ _ _ Ht Hs).
  - intros Hb stmts. apply (block_answer 4); [|discriminate].
    apply (block_unexpected _ _ _ _ Ht Hs Hb).
Qed.

(** X5.  A statement whose first token has one of the types [INT],
    [FLOAT], [STRING] and [BOOL] is read as a declaration, and the text of
    that token becomes the declared type.  A string literal has the type
    [STRING] as the keyword [string] has: a statement that starts with a
    string literal raises for the missing identifier, or declares a
    variable whose type is the literal. *)
Theorem declaration_by_token_type :
  forall pos t t',
    nth_error tokens pos = Some t ->
    is_decl_kind (fst t) = true ->
    nth_error tokens (S pos) = Some t' ->
    ((fst t' =? "ID") = false ->
     run_statement tokens pos = Raise (Expected "ID" t')) /\
    (forall t'',
       (fst t' =? "ID") = true ->
       nth_error tokens (S (S pos)) = Some t'' ->
       snd t'' = ";" ->
       run_statement tokens pos =
         Done (VarDecl (snd t) [(snd t', None)]) (S (S (S pos)))).
Proof.
  intros pos t t' Ht Hk Ht'.
  assert (Htype : is_type_kind (fst t) = true).
  { unfold is_decl_kind in Hk. unfold is_type_kind.
    apply orb_true_iff in Hk as [Hk|Hk]; [rewrite Hk; reflexivity|].
    rewrite Hk, !orb_true_r. reflexivity. }
  assert (Hstart : forall n,
            parse_statement tokens (S n) pos =
            bind (vardecl_loop tokens n [])
                 (fun names => expect_op tokens ";" ;; ret (VarDecl (snd t) names))
                 (S pos)).
  { intros n. rewrite parse_statement_eq. unfold bind at 1. unfold peek at 1.
    rewrite Ht, Hk. unfold parse_vardecl. unfold bind at 1.
    unfold expect_type. unfold bind at 1. unfold peek at 1. rewrite Ht, Htype.
    unfold next at 1. rewrite Ht. reflexivity. }
  assert (Hloop : forall n names,
            vardecl_loop tokens (S n) names (S pos) =
            bind (peek tokens)
                 (fun t0 =>
                    init <- (if snd t0 =? "=" then
                               next tokens ;; e <- parse_expr tokens n 1 ;; ret (Some e)
                             else ret None) ;;
                    t1 <- peek tokens ;;
                    if snd t1 =? "," then
                      next tokens ;;
                      vardecl_loop tokens n (names ++ [(snd t', init)])%list
                    else ret (names ++ [(snd t', init)])%list) (S (S pos)) \/
            (fst t' =? "ID") = false).
  { intros n names. destruct (fst t' =? "ID") eqn:Hid; [left|right; reflexivity].
    cbn [vardecl_loop]. unfold bind at 1. unfold expect. unfold bind at 1.
    unfold next at 1. rewrite Ht', Hid. reflexivity. }
  split.
  - intros Hid. apply (statement_answer 2); [|discriminate].
    rewrite Hstart. unfold bind at 1. cbn [vardecl_loop].
    unfold bind at 1. unfold expect. unfold bind at 1.
    unfold next at 1. rewrite Ht', Hid. reflexivity.
  - intros t'' Hid Ht'' Hsemi. apply (statement_answer 2); [|discriminate].
    rewrite Hstart. unfold bind at 1.
    destruct (Hloop 0%nat []) as [E|E]; [|congruence]. rewrite E.
    unfold bind at 1. unfold peek at 1. rewrite Ht'', Hsemi.
    change (";" =? "=") with false. cbn iota.
    unfold bind at 1. cbn [ret app]. unfold bind at 1.
    unfold peek at 1. rewrite Ht'', Hsemi. change (";" =? ",") with false. cbn iota.
    cbn [ret]. unfold bind at 1. unfold expect_op. unfold bind at 1.
    unfold next at 1. rewrite Ht'', Hsemi. reflexivity.
Qed.

Lemma parse_block_reads (n : nat) :
  forall l pos b pos',
    parse_block tokens n l pos = Done b pos' ->
    exists added p t,
      b = (l ++ added)%list /\ reads_statements tokens pos added p /\
      nth_error tokens p = Some t /\ snd t = "}" /\ pos' = S p.
Proof.
  induction n as [|n IH]; intros l pos b pos' H; [discriminate|].
  rewrite parse_block_eq in H. apply bind_done in H as [t [p1 [Ht H]]].
  apply peek_done in Ht as [-> [Ht _]].
  destruct (String.eqb_spec (snd t) "}") as [E|N].
  - apply bind_done in H as [t' [p2 [Hn H]]].
    apply next_done in Hn as [-> _]. inversion H; subst.
    exists [], pos, t. rewrite app_nil_r. repeat split; auto. constructor.
  - apply bind_done in H as [s [p2 [Hs H]]].
    apply IH in H as [added [p [t' [-> [Hr [Ht' [Hb ->]]]]]]].
    exists (s :: added), p, t'. rewrite <- app_assoc. repeat split; auto.
    apply (reads_more tokens pos t s p2 added p Ht N); [|exact Hr].
    apply (statement_answer n); [exact Hs|discriminate].
Qed.

Lemma reads_block_returns (pos : nat) (added : list stmt) (p : nat) :
  reads_statements tokens pos added p ->
  forall t, nth_error tokens p = Some t -> snd t = "}" ->
  forall l, run_block tokens l pos = Done (l ++ added)%list (S p).
Proof.
  induction 1 as [pos|pos t0 s p1 rest p2 Ht0 N Hs _ IH]; intros t Ht Hb l.
  - apply (block_answer 1); [|discriminate].
    rewrite parse_block_eq. unfold bind, peek, next, ret. rewrite Ht.
    apply String.eqb_eq in Hb. rewrite Hb, Ht, app_nil_r. reflexivity.
  - unfold run_block.
    replace (program_fuel tokens) with (S (3 * List.length tokens + 5))
      by (unfold program_fuel; lia).
    rewrite parse_block_eq. unfold bind at 1. unfold peek at 1. rewrite Ht0.
    apply String.eqb_neq in N. rewrite N.
    assert (Es : parse_statement tokens (3 * List.length tokens + 5) pos = Done s p1).
    { rewrite <- Hs. unfold run_statement.
      apply (answer_at_any_fuel (fun k => parse_statement tokens k pos)
               (3 * (List.length tokens - pos) + 4)).
      - intros a b L. apply (statements_monotone a b L).
      - intros a L. apply statements_enough_fuel, L.
      - lia.
      - unfold program_fuel. lia. }
    rewrite (bind_of_done _ _ _ _ _ Es).
    specialize (IH t Ht Hb (l ++ [s])%list). rewrite <- app_assoc in IH.
    cbn [app] in IH. rewrite <- IH. unfold run_block.
    apply (answer_at_any_fuel (fun k => parse_block tokens k (l ++ [s])%list p1)
             (3 * (List.length tokens - p1) + 5)).
    + intros a b L. apply (statements_monotone a b L).
    + intros a L. apply statements_enough_fuel, L.
    + lia.
    + unfold program_fuel. lia.
Qed.

(** X6.  A block returns exactly when, read one after the other from
    where it starts, some statements are followed by a closing brace: it
    then returns, after the statements it was given, those statements in
    the order read, and stops just behind that brace. *)
Theorem block_ends_at_closing_brace :
  forall stmts pos b pos',
    run_block tokens stmts pos = Done b pos' <->
    exists added p t,
      b = (stmts ++ added)%list /\
      reads_statements tokens pos added p /\
      all_parsed added /\
      (pos <= p)%nat /\
      nth_error tokens p = Some t /\ snd t = "}" /\
      pos' = S p.
Proof.
  intros stmts pos b pos'. split.
  - intros H. unfold run_block in H.
    destruct (parse_block_reads _ _ _ _ _ H) as [added [p [t [Hb [Hr [Ht [Hs Hp]]]]]]].
    destruct (parse_block_closes _ _ _ _ _ H)
      as [[added' [Hb' Hparsed]] [p' [t' [Hp' [Hle _]]]]].
    assert (added' = added) by (apply (app_inv_head stmts); congruence).
    assert (p' = p) by congruence. subst added' p'.
    exists added, p, t. repeat split; assumption.
  - intros [added [p [t [-> [Hr [_ [_ [Ht [Hs ->]]]]]]]]].
    apply (reads_block_returns _ _ _ Hr t Ht Hs).
Qed.

(** ** The names of the functions the parser makes calls of *)

Lemma named_by_nil : named_by tokens [].
Proof. intros n []. Qed.

Lemma named_by_app (a b : list string) :
  named_by tokens a -> named_by tokens b -> named_by tokens (a ++ b).
Proof. intros Ha Hb n Hn. apply in_app_or in Hn as [H|H]; auto. Qed.

Lemma named_by_cons (n : string) (a : list string) :
  In ("ID", n) tokens -> named_by tokens a -> named_by tokens (n :: a).
Proof. intros Hn Ha m [<-|H]; auto. Qed.

(** What follows a [peek] runs at the position of the token peeked. *)
Lemma peek_ensures {C} (P : C -> Prop) (k : token -> parser C) :
  (forall t pos, nth_error tokens pos = Some t ->
     forall c pos', k t pos = Done c pos' -> P c) ->
  ensures P (bind (peek tokens) k).
Proof.
  intros H pos c pos' E. apply bind_done in E as [t [p [Ht E]]].
  apply peek_done in Ht as [-> [Ht _]]. apply (H t pos Ht c pos' E).
Qed.

Ltac by_ensures H :=
  refine ((_ : ensures (fun e => named_by tokens (called_expr e)) _) _ _ _ H).

Lemma expressions_named (n : nat) :
  (forall m, ensures (fun e => named_by tokens (called_expr e)) (parse_expr tokens n m)) /\
  (forall m l, named_by tokens (called_expr l) ->
     ensures (fun e => named_by tokens (called_expr e)) (parse_binary tokens n m l)) /\
  ensures (fun e => named_by tokens (called_expr e)) (parse_primary tokens n) /\
  (forall a, named_by tokens (flat_map called_expr a) ->
     ensures (fun l => named_by tokens (flat_map called_expr l)) (parse_args tokens n a)).
Proof.
  induction n as [|n [IHe [IHb [IHp IHa]]]].
  - repeat split; intros; apply ensures_out_of_fuel.
  - repeat split; intros.
    + cbn [parse_expr]. apply ensures_then. intros t.
      apply (ensures_bind (fun e => named_by tokens (called_expr e)));
        [|intros l Hl; apply IHb, Hl].
      destruct (is_unary_op _); [|apply IHp].
      apply ensures_then. intros op.
      apply (ensures_bind (fun e => named_by tokens (called_expr e))); [apply IHe|].
      intros e He. apply ensures_ret. exact He.
    + cbn [parse_binary]. apply ensures_then. intros t.
      destruct (PRECEDENCE _); [|apply ensures_ret; assumption].
      destruct (_ <? _)%Z; [apply ensures_ret; assumption|].
      apply ensures_then. intros _.
      apply (ensures_bind (fun e => named_by tokens (called_expr e))); [apply IHe|].
      intros r Hr. apply IHb. cbn [called_expr]. apply named_by_app; assumption.
    + cbn [parse_primary]. apply peek_ensures. intros t pos Ht c pos' H.
      destruct (fst t =? "NUMBER").
      { by_ensures H. apply ensures_then. intros tok.
        destruct (has_dot _); apply ensures_then; intros v;
          apply ensures_ret; apply named_by_nil. }
      destruct (fst t =? "STRING").
      { by_ensures H. apply ensures_then. intros tok. apply ensures_then. intros v.
        apply ensures_ret. apply named_by_nil. }
      destruct ((fst t =? "TRUE") || (fst t =? "FALSE")).
      { by_ensures H. apply ensures_then. intros tok. apply ensures_ret.
        apply named_by_nil. }
      destruct (String.eqb_spec (fst t) "ID") as [Eid|_].
      { apply bind_done in H as [name [p1 [Hn H]]].
        apply next_done in Hn as [-> [Hn _]].
        rewrite Ht in Hn. injection Hn as <-.
        assert (Hin : In ("ID", snd t) tokens).
        { rewrite <- Eid, <- surjective_pairing. apply (nth_error_In _ _ Ht). }
        by_ensures H. apply ensures_then. intros t1.
        destruct (snd t1 =? "(").
        - apply ensures_then. intros _. apply ensures_then. intros t2.
          apply (ensures_bind (fun l => named_by tokens (flat_map called_expr l))).
          + destruct (negb _); [apply IHa|apply ensures_ret]; apply named_by_nil.
          + intros args Hargs. apply ensures_then. intros _.
            apply ensures_ret. cbn [called_expr]. apply named_by_cons; assumption.
        - apply ensures_then. intros t3.
          destruct (snd t3 =? "="); [|apply ensures_ret; apply named_by_nil].
          apply ensures_then. intros _.
          apply (ensures_bind (fun e => named_by tokens (called_expr e))); [apply IHe|].
          intros v Hv. apply ensures_ret. exact Hv. }
      destruct (snd t =? "("); [|discriminate H].
      by_ensures H. apply ensures_then. intros _.
      apply (ensures_bind (fun e => named_by tokens (called_expr e))); [apply IHe|].
      intros e He. apply ensures_then. intros _. apply ensures_ret. exact He.
    + cbn [parse_args].
      apply (ensures_bind (fun e => named_by tokens (called_expr e))); [apply IHe|].
      intros e He. apply ensures_then. intros t.
      assert (Hs : named_by tokens (flat_map called_expr (a ++ [e]))).
      { rewrite flat_map_app. apply named_by_app; [assumption|].
        cbn [flat_map]. rewrite app_nil_r. exact He. }
      destruct (snd t =? ",").
      * apply ensures_then. intros _. apply IHa, Hs.
      * apply ensures_ret, Hs.
Qed.

Lemma expr_named (n : nat) (m : Z) :
  ensures (fun e => named_by tokens (called_expr e)) (parse_expr tokens n m).
Proof. apply (expressions_named n). Qed.

Lemma vardecl_loop_named (n : nat) :
  forall names, named_by tokens (called_decl names) ->
    ensures (fun l => named_by tokens (called_decl l)) (vardecl_loop tokens n names).
Proof.
  induction n as [|n IH]; intros names Hn; [apply ensures_out_of_fuel|].
  cbn [vardecl_loop]. apply ensures_then. intros name. apply ensures_then. intros t.
  apply (ensures_bind (fun o => named_by tokens (called_opt o))).
  - destruct (snd t =? "="); [|apply ensures_ret; apply named_by_nil].
    apply ensures_then. intros _.
    apply (ensures_bind (fun e => named_by tokens (called_expr e))); [apply expr_named|].
    intros e He. apply ensures_ret. exact He.
  - intros init Hinit.
    assert (Hk : named_by tokens (called_decl (names ++ [(snd name, init)]))).
    { unfold called_decl. rewrite flat_map_app. apply named_by_app; [exact Hn|].
      cbn [flat_map snd]. rewrite app_nil_r. exact Hinit. }
    apply ensures_then. intros t'.
    destruct (snd t' =? ","); [apply ensures_then; intros _; apply IH, Hk|].
    apply ensures_ret, Hk.
Qed.

Lemma vardecl_named (n : nat) :
  ensures (fun s => named_by tokens (called_stmt s)) (parse_vardecl tokens n).
Proof.
  unfold parse_vardecl. apply ensures_then. intros typ.
  apply (ensures_bind (fun l => named_by tokens (called_decl l)));
    [apply vardecl_loop_named, named_by_nil|].
  intros names Hn. apply ensures_then. intros _. apply ensures_ret. exact Hn.
Qed.

Lemma vardecl_for_named (n : nat) :
  ensures (fun s => named_by tokens (called_stmt s)) (parse_vardecl_for tokens n).
Proof.
  intros pos a pos' H. rewrite vardecl_for_agrees in H.
  apply (vardecl_named n _ _ _ H).
Qed.

Lemma block_named_snoc (l : list stmt) (s : stmt) :
  named_by tokens (flat_map called_stmt l) -> named_by tokens (called_stmt s) ->
  named_by tokens (flat_map called_stmt (l ++ [s])).
Proof.
  intros Hl Hs. rewrite flat_map_app. apply named_by_app; [exact Hl|].
  cbn [flat_map]. rewrite app_nil_r. exact Hs.
Qed.

Lemma statements_named (n : nat) :
  ensures (fun s => named_by tokens (called_stmt s)) (parse_statement tokens n) /\
  (forall l, named_by tokens (flat_map called_stmt l) ->
     ensures (fun b => named_by tokens (flat_map called_stmt b))
       (parse_block tokens n l)) /\
  ensures (fun s => named_by tokens (called_stmt s)) (parse_if tokens n) /\
  ensures (fun s => named_by tokens (called_stmt s)) (parse_while tokens n) /\
  ensures (fun s => named_by tokens (called_stmt s)) (parse_for tokens n).
Proof.
  induction n as [|n [IHs [IHb [IHi [IHw IHf]]]]].
  - repeat split; intros; apply ensures_out_of_fuel.
  - repeat split; intros.
    + cbn [parse_statement]. apply ensures_then. intros t.
      destruct (is_decl_kind _); [apply vardecl_named|].
      destruct (fst t =? "IF"); [exact IHi|].
      destruct (fst t =? "WHILE"); [exact IHw|].
      destruct (fst t =? "FOR"); [exact IHf|].
      destruct (fst t =? "RETURN").
      * apply ensures_then. intros _. apply ensures_then. intros t'.
        destruct (snd t' =? ";").
        { apply ensures_then. intros _. apply ensures_ret. apply named_by_nil. }
        apply (ensures_bind (fun e => named_by tokens (called_expr e)));
          [apply expr_named|].
        intros e He. apply ensures_then. intros _. apply ensures_ret. exact He.
      * apply (ensures_bind (fun e => named_by tokens (called_expr e)));
          [apply expr_named|].
        intros e He. apply ensures_then. intros _. apply ensures_ret. exact He.
    + cbn [parse_block]. apply ensures_then. intros t.
      destruct (snd t =? "}").
      * apply ensures_then. intros _. apply ensures_ret. assumption.
      * apply (ensures_bind (fun s => named_by tokens (called_stmt s))); [exact IHs|].
        intros s Hs. apply IHb, block_named_snoc; assumption.
    + cbn [parse_if]. apply ensures_then. intros _. apply ensures_then. intros _.
      apply (ensures_bind (fun e => named_by tokens (called_expr e)));
        [apply expr_named|].
      intros c Hc. apply ensures_then. intros _. apply ensures_then. intros _.
      apply (ensures_bind (fun b => named_by tokens (flat_map called_stmt b)));
        [apply IHb, named_by_nil|].
      intros tb Htb. apply ensures_then. intros t.
      apply (ensures_bind (fun o => named_by tokens
                                      match o with
                                      | Some b => flat_map called_stmt b
                                      | None => []
                                      end)).
      * destruct (fst t =? "ELSE"); [|apply ensures_ret; apply named_by_nil].
        apply ensures_then. intros _. apply ensures_then. intros _.
        apply (ensures_bind (fun b => named_by tokens (flat_map called_stmt b)));
          [apply IHb, named_by_nil|].
        intros b Hb. apply ensures_ret. exact Hb.
      * intros eb Heb. apply ensures_ret. cbn [called_stmt].
        repeat apply named_by_app; assumption.
    + cbn [parse_while]. apply ensures_then. intros _. apply ensures_then. intros _.
      apply (ensures_bind (fun e => named_by tokens (called_expr e)));
        [apply expr_named|].
      intros c Hc. apply ensures_then. intros _. apply ensures_then. intros _.
      apply (ensures_bind (fun b => named_by tokens (flat_map called_stmt b)));
        [apply IHb, named_by_nil|].
      intros b Hb. apply ensures_ret. cbn [called_stmt].
      apply named_by_app; assumption.
    + cbn [parse_for]. apply ensures_then. intros _. apply ensures_then. intros _.
      apply ensures_then. intros t.
      apply (ensures_bind (fun i => named_by tokens
                                      match i with
                                      | Some s' => called_stmt s'
                                      | None => []
                                      end)).
      * destruct (negb _).
        { apply ensures_then. intros t1. destruct (is_decl_kind _).
          - apply (ensures_bind _ _ _ _ (vardecl_for_named n)).
            intros d Hd. apply ensures_ret. exact Hd.
          - apply (ensures_bind (fun e => named_by tokens (called_expr e)));
              [apply expr_named|].
            intros e He. apply ensures_then. intros _. apply ensures_ret. exact He. }
        apply ensures_then. intros _. apply ensures_ret. apply named_by_nil.
      * intros i Hi. apply ensures_then. intros t2.
        apply (ensures_bind (fun o => named_by tokens (called_opt o))).
        { destruct (negb _); [|apply ensures_ret; apply named_by_nil].
          apply (ensures_bind (fun e => named_by tokens (called_expr e)));
            [apply expr_named|].
          intros e He. apply ensures_ret. exact He. }
        intros c Hc. apply ensures_then. intros _. apply ensures_then. intros t3.
        apply (ensures_bind (fun o => named_by tokens (called_opt o))).
        { destruct (negb _); [|apply ensures_ret; apply named_by_nil].
          apply (ensures_bind (fun e => named_by tokens (called_expr e)));
            [apply expr_named|].
          intros e He. apply ensures_ret. exact He. }
        intros p Hp. apply ensures_then. intros _. apply ensures_then. intros _.
        apply (ensures_bind (fun b => named_by tokens (flat_map called_stmt b)));
          [apply IHb, named_by_nil|].
        intros b Hb. apply ensures_ret. cbn [called_stmt].
        repeat apply named_by_app; assumption.
Qed.

Lemma function_named (n : nat) :
  ensures (fun f => named_by tokens (called_func f)) (parse_function tokens n).
Proof.
  unfold parse_function.
  do 7 (apply ensures_then; intros ?).
  apply ensures_then. intros _.
  apply (ensures_bind (fun b => named_by tokens (flat_map called_stmt b)));
    [apply (proj1 (proj2 (statements_named n))), named_by_nil|].
  intros b Hb. apply ensures_ret. exact Hb.
Qed.

Lemma parse_loop_named (n : nat) :
  forall l, named_by tokens (flat_map called_func l) ->
    ensures (fun p => named_by tokens (called_program p)) (parse_loop tokens n l).
Proof.
  induction n as [|n IH]; intros l Hl; [apply ensures_out_of_fuel|].
  cbn [parse_loop]. apply ensures_then. intros t.
  destruct (negb _); [|apply ensures_ret; exact Hl].
  apply (ensures_bind _ _ _ _ (function_named n)). intros f Hf.
  apply IH. rewrite flat_map_app. apply named_by_app; [exact Hl|].
  cbn [flat_map]. rewrite app_nil_r. exact Hf.
Qed.

Lemma program_named (p : program) (pos : nat) :
  run_parse tokens = Done p pos -> named_by tokens (called_program p).
Proof.
  unfold run_parse, parse. intros H.
  apply (parse_loop_named (program_fuel tokens) [] named_by_nil _ _ _ H).
Qed.

End Fuel.

Lemma parse_terminates_witness :
  run_parse Samples.sample_tokens = Done Samples.sample_program 34 /\
  parse Samples.sample_tokens 200 = run_parse Samples.sample_tokens.
Proof.
  split; [reflexivity|].
  apply (proj2 (parse_terminates Samples.sample_tokens) 200). simpl. lia.
Defined.

Lemma parse_stops_at_eof_witness :
  (exists t, nth_error Samples.sample_tokens 34 = Some t /\ fst t = "EOF") /\
  (exists e, run_parse (removelast Samples.sample_tokens) = Raise e) /\
  (exists e, @run_parse lexeme_builtins [] = Raise e).
Proof.
  split; [|split].
  - apply (proj1 (parse_stops_at_eof Samples.sample_tokens) Samples.sample_program 34). reflexivity.
  - apply (proj2 (parse_stops_at_eof (removelast Samples.sample_tokens))).
    repeat constructor; discriminate.
  - apply (proj2 (parse_stops_at_eof [])). constructor.
Defined.

Lemma parse_builds_known_nodes_witness :
  run_parse Samples.sample_tokens = Done Samples.sample_program 34 /\
  parsed_program Samples.sample_program = true /\ known_program Samples.sample_program = true.
Proof.
  split; [reflexivity|].
  apply (parse_builds_known_nodes Samples.sample_tokens Samples.sample_program 34). reflexivity.
Defined.

(** [func int main() { return 0;] with the closing brace missing. *)
Lemma unexpected_token_raises_witness :
  let tokens := [("FUNC", "func"); ("INT", "int"); ("ID", "main"); ("OP", "(");
                 ("OP", ")"); ("OP", "{"); ("RETURN", "return"); ("NUMBER", "0");
                 ("OP", ";"); ("EOF", EmptyString)] in
  run_block tokens [ReturnStmt (Some (Literal (VInt 0)))] 9 =
    Raise (UnexpectedToken ("EOF", EmptyString)) /\
  run_parse tokens = Raise (UnexpectedToken ("EOF", EmptyString)).
Proof.
  intros tokens. split; [|reflexivity].
  apply (proj2 (proj2 (unexpected_token_raises tokens 9 ("EOF", EmptyString)
                         eq_refl eq_refl))).
  reflexivity.
Defined.

(** Two statements that start with a string literal. *)
Lemma declaration_by_token_type_witness :
  let hi := DQ ++ "hi" ++ DQ in
  let T := DQ ++ "T" ++ DQ in
  let tokens := [("STRING", hi); ("OP", ";"); ("STRING", T); ("ID", "x");
                 ("OP", ";"); ("OP", "}"); ("EOF", EmptyString)] in
  run_statement tokens 0 = Raise (Expected "ID" ("OP", ";")) /\
  run_statement tokens 2 = Done (VarDecl T [("x", None)]) 5.
Proof.
  intros hi T tokens. split.
  - apply (proj1 (declaration_by_token_type tokens 0 ("STRING", hi) ("OP", ";")
                    eq_refl eq_refl eq_refl)).
    reflexivity.
  - apply (proj2 (declaration_by_token_type tokens 2 ("STRING", T) ("ID", "x")
                    eq_refl eq_refl eq_refl) ("OP", ";")); reflexivity.
Defined.

(** The body of the loop in the sample program, and a block of two
    statements. *)
Lemma block_ends_at_closing_brace_witness :
  run_block Samples.sample_tokens [] 24 =
    Done [ExprStmt (FuncCall "print" [VarRef "i"])] 30 /\
  (exists added p t,
     [ExprStmt (FuncCall "print" [VarRef "i"])] = ([] ++ added)%list /\
     reads_statements Samples.sample_tokens 24 added p /\
     all_parsed added /\ (24 <= p)%nat /\
     nth_error Samples.sample_tokens p = Some t /\ snd t = "}" /\ 30%nat = S p) /\
  let tokens := [("OP", "{"); ("ID", "a"); ("OP", ";"); ("RETURN", "return");
                 ("OP", ";"); ("OP", "}"); ("EOF", EmptyString)] in
  run_block tokens [] 1 = Done [ExprStmt (VarRef "a"); ReturnStmt None] 6.
Proof.
  split; [reflexivity|]. split.
  - apply (proj1 (block_ends_at_closing_brace Samples.sample_tokens [] 24 _ 30)).
    reflexivity.
  - intros tokens.
    apply (proj2 (block_ends_at_closing_brace tokens [] 1
                    [ExprStmt (VarRef "a"); ReturnStmt None] 6)).
    exists [ExprStmt (VarRef "a"); ReturnStmt None], 5%nat, ("OP", "}").
    split; [reflexivity|]. split.
    + apply (reads_more tokens 1 ("ID", "a") (ExprStmt (VarRef "a")) 3);
        [reflexivity|discriminate|reflexivity|].
      apply (reads_more tokens 3 ("RETURN", "return") (ReturnStmt None) 5);
        [reflexivity|discriminate|reflexivity|].
      constructor.
    + repeat split; try reflexivity. lia.
Defined.

End StatementFacts.

(** * More properties of the tokenizer *)

Module TokenFacts.
Import Lexer Tokens LexerFacts.

Lemma span_head (p : ascii -> bool) (s : string) (c : ascii) (a b : string) :
  span p s = (String c a, b) -> p c = true.
Proof.
  destruct s as [|c' s]; simpl; [discriminate|].
  destruct (p c') eqn:E; [|discriminate].
  destruct (span p s). intros H. inversion H; subst. exact E.
Qed.

Lemma match_number_start s val rest :
  match_number s = Some (val, rest) ->
  exists c v, val = String c v /\ is_digit c = true.
Proof.
  unfold match_number. destruct (span is_digit s) as [ds b] eqn:E.
  destruct ds as [|d ds]; [discriminate|].
  pose proof (span_head _ _ _ _ _ E) as Hd.
  assert (Hplain : Some (String d ds, b) = Some (val, rest) ->
                   exists c v, val = String c v /\ is_digit c = true).
  { intros H. inversion H; subst. eauto. }
  destruct b as [|c b]; [exact Hplain|].
  destruct (Ascii.eqb_spec c ".") as [->|N].
  2:{ destruct c as [[] [] [] [] [] [] [] []]; try exact Hplain. contradiction. }
  destruct (span is_digit b) as [fs r].
  destruct fs as [|f fs]; [exact Hplain|].
  intros H. inversion H; subst. simpl. eauto.
Qed.

Lemma match_string_start s val rest :
  match_string s = Some (val, rest) -> exists v, val = String "034" v.
Proof.
  destruct s as [|c s]; [discriminate|].
  destruct (Ascii.eqb_spec c "034") as [->|N].
  - simpl. destruct (string_body s) as [[a b]|]; [|discriminate].
    intros H. inversion H; subst. eauto.
  - rewrite (match_string_quote c s N). discriminate.
Qed.

Lemma match_id_start s val rest :
  match_id s = Some (val, rest) ->
  exists c v, val = String c v /\ is_id_start c = true.
Proof.
  unfold match_id. destruct s as [|c s]; [discriminate|].
  destruct (is_id_start c) eqn:E; [|discriminate].
  destruct (span is_id_char s). intros H. inversion H; subst. eauto.
Qed.

Lemma op2_start (a b : ascii) :
  is_op2 a b = true -> (is_op_char a || Ascii.eqb a "&" || Ascii.eqb a "|") = true.
Proof.
  destruct a as [[] [] [] [] [] [] [] []]; intros H; try reflexivity;
    discriminate H.
Qed.

Lemma match_op_start s val rest :
  match_op s = Some (val, rest) ->
  exists c v, val = String c v /\
              (is_op_char c || Ascii.eqb c "&" || Ascii.eqb c "|") = true.
Proof.
  unfold match_op. destruct s as [|a [|b s]]; [discriminate| |].
  - destruct (is_op_char a) eqn:E; [|discriminate].
    intros H. inversion H; subst. exists a, EmptyString. rewrite E. auto.
  - destruct (is_op2 a b) eqn:E2.
    + intros H. inversion H; subst. eexists _, _. split; [reflexivity|].
      apply (op2_start _ _ E2).
    + destruct (is_op_char a) eqn:E; [|discriminate].
      intros H. inversion H; subst. exists a, EmptyString. rewrite E. auto.
Qed.

Lemma master_match_start s kind val rest :
  master_match s = Some (kind, val, rest) ->
  exists c v, val = String c v /\ rule_start kind c.
Proof.
  intros H. pose proof (master_match_consumes _ _ _ _ H) as [_ Hne].
  revert H. unfold master_match, TOKEN_SPEC, first_match, rule_start.
  destruct (match_comment s) as [[v r]|] eqn:E1.
  { intros H. inversion H; subst. destruct val; [contradiction|]. eauto 7. }
  destruct (match_whitespace s) as [[v r]|] eqn:E2.
  { intros H. inversion H; subst. destruct val; [contradiction|]. eauto 7. }
  destruct (match_number s) as [[v r]|] eqn:E3.
  { intros H. inversion H; subst.
    apply match_number_start in E3 as [c [v' [-> Hc]]]. eauto 9. }
  destruct (match_string s) as [[v r]|] eqn:E4.
  { intros H. inversion H; subst.
    apply match_string_start in E4 as [v' ->]. eauto 10. }
  destruct (match_id s) as [[v r]|] eqn:E5.
  { intros H. inversion H; subst.
    apply match_id_start in E5 as [c [v' [-> Hc]]]. eauto 11. }
  destruct (match_op s) as [[v r]|] eqn:E6; [|discriminate].
  intros H. inversion H; subst.
  apply match_op_start in E6 as [c [v' [-> Hc]]]. eauto 12.
Qed.

Lemma keyword_start (val : string) :
  is_keyword val = true ->
  exists c v, val = String c v /\ in_range "a" "z" c = true /\
              (upper val =? "ID") = false /\ (upper val =? "EOF") = false.
Proof.
  unfold is_keyword. intros H. apply existsb_exists in H as [k [Hin Heq]].
  apply String.eqb_eq in Heq. subst k. simpl in Hin.
  repeat (destruct Hin as [<-|Hin];
          [eexists _, _; repeat split; reflexivity|]).
  contradiction.
Qed.

Lemma lowercase_not_other (c : ascii) :
  in_range "a" "z" c = true ->
  is_digit c = false /\ Ascii.eqb c "034" = false /\
  (is_op_char c || Ascii.eqb c "&" || Ascii.eqb c "|") = false.
Proof.
  destruct c as [[] [] [] [] [] [] [] []]; intros H; try discriminate H;
    repeat split; reflexivity.
Qed.

Lemma push_token_ok kind val rest s tokens :
  master_match s = Some (kind, val, rest) ->
  Forall (fun t => lexeme_ok t = true) tokens ->
  Forall (fun t => lexeme_ok t = true) (push_token kind val tokens).
Proof.
  intros M H. unfold push_token.
  destruct (skipped_kind kind) eqn:K; [exact H|].
  apply master_match_start in M as [c [v [-> R]]].
  destruct ((kind =? "ID") && is_keyword (String c v)) eqn:E;
    apply Forall_app; (split; [exact H|]); (constructor; [|constructor]);
    unfold lexeme_ok; cbn [fst snd first_char].
  - apply andb_true_iff in E as [_ E]. rewrite E. apply String.eqb_refl.
  - destruct (is_keyword (String c v)) eqn:Hk.
    + rewrite andb_true_r in E.
      apply keyword_start in Hk as [c' [v' [Heq [Hlow _]]]].
      inversion Heq; subst c' v'.
      apply lowercase_not_other in Hlow as [L1 [L2 L3]].
      unfold rule_start in R.
      destruct R as [ -> | [ -> | [ [ -> R] | [ [ -> R] | [ [ -> R] | [ -> R] ] ] ] ] ];
        try discriminate; try congruence.
      subst c. discriminate.
    + unfold rule_start in R.
      destruct R as [ -> | [ -> | [ [ -> R] | [ [ -> R] | [ [ -> R] | [ -> R] ] ] ] ] ];
        try discriminate; cbn; try exact R.
      subst c. reflexivity.
Qed.

Lemma reaches_ok (text : string) pos s tokens :
  reaches text pos s tokens -> Forall (fun t => lexeme_ok t = true) tokens.
Proof.
  induction 1 as [|pos s tokens kind val rest _ IH M]; [constructor|].
  apply (push_token_ok _ _ _ _ _ M IH).
Qed.

Lemma lexeme_ok_spec (t : token) :
  lexeme_ok t = true ->
  snd t <> EmptyString /\ fst t <> "EOF" /\
  (is_keyword (snd t) = true -> fst t = upper (snd t) /\ fst t <> "ID") /\
  (is_keyword (snd t) = false ->
   fst t = "NUMBER" \/ fst t = "STRING" \/ fst t = "ID" \/ fst t = "OP").
Proof.
  unfold lexeme_ok. destruct t as [k v]. cbn [fst snd].
  destruct v as [|c v]; [discriminate|]. cbn [first_char]. intros H.
  split; [discriminate|].
  destruct (is_keyword (String c v)) eqn:Hk.
  - apply String.eqb_eq in H. subst k.
    apply keyword_start in Hk as [_ [_ [_ [_ [Hid Heof]]]]].
    apply String.eqb_neq in Hid, Heof.
    repeat split; auto; discriminate.
  - assert (Hkind : k = "NUMBER" \/ k = "STRING" \/ k = "ID" \/ k = "OP").
    { destruct (String.eqb_spec k "NUMBER"); [auto|].
      destruct (String.eqb_spec k "STRING"); [auto|].
      destruct (String.eqb_spec k "ID"); [auto|].
      destruct (String.eqb_spec k "OP"); [auto|discriminate]. }
    split; [|split; [discriminate|auto]].
    destruct Hkind as [ -> | [ -> | [ -> | -> ] ] ]; discriminate.
Qed.

Lemma tokenize_ok (text : string) (ts : list token) :
  tokenize text = Some (Tokens ts) ->
  exists body,
    ts = (body ++ [("EOF", EmptyString)])%list /\
    Forall (fun t => lexeme_ok t = true) body.
Proof.
  intros H.
  pose proof (scan_result text _ _ _ _ _ (reaches_start text) H) as [pos [body [R ->]]].
  exists body. split; [reflexivity|apply (reaches_ok _ _ _ _ R)].
Qed.

Lemma span_blank (s : string) : blank s = true -> span is_space s = (s, EmptyString).
Proof.
  induction s as [|c s IH]; simpl; [reflexivity|]. intros H.
  apply andb_true_iff in H as [Hc Hs]. rewrite Hc, (IH Hs). reflexivity.
Qed.

Lemma space_not_comment (c : ascii) (s : string) :
  is_space c = true -> match_comment (String c s) = None.
Proof.
  destruct s; destruct c as [[] [] [] [] [] [] [] []]; intros H;
    try discriminate H; reflexivity.
Qed.

Lemma blank_scan (text : string) :
  blank text = true -> tokenize text = Some (Tokens [("EOF", EmptyString)]).
Proof.
  intros H. destruct text as [|c s]; [reflexivity|].
  pose proof H as H'. simpl in H'. apply andb_true_iff in H' as [Hc _].
  assert (M : master_match (String c s) = Some ("WHITESPACE", String c s, EmptyString)).
  { unfold master_match, TOKEN_SPEC, first_match.
    rewrite (space_not_comment c s Hc). unfold match_whitespace.
    rewrite (span_blank _ H). reflexivity. }
  unfold tokenize. cbn [String.length scan]. rewrite M.
  destruct (String.length s); reflexivity.
Qed.

(** ** Properties of the token list *)

(** X7.  A token list the tokenizer returns is a run of tokens, each with
    a text that is not empty, followed by the one [EOF] token.  A text
    that is a keyword always carries the keyword's own type, never [ID];
    any other text has the type [NUMBER], [STRING], [ID] or [OP]. *)
Theorem tokens_classified (text : string) (ts : list token) :
  tokenize text = Some (Tokens ts) ->
  exists body,
    ts = (body ++ [("EOF", EmptyString)])%list /\
    Forall (fun t =>
              snd t <> EmptyString /\ fst t <> "EOF" /\
              (is_keyword (snd t) = true -> fst t = upper (snd t) /\ fst t <> "ID") /\
              (is_keyword (snd t) = false ->
               fst t = "NUMBER" \/ fst t = "STRING" \/ fst t = "ID" \/ fst t = "OP"))
           body.
Proof.
  intros H. destruct (tokenize_ok text ts H) as [body [-> Hok]].
  exists body. split; [reflexivity|].
  rewrite Forall_forall in Hok |- *. intros t Ht. apply lexeme_ok_spec, Hok, Ht.
Qed.

(** X8.  A text of white space only, the empty text among them, gives the
    [EOF] token alone. *)
Theorem blank_text_tokens (text : string) :
  blank text = true -> tokenize text = Some (Tokens [("EOF", EmptyString)]).
Proof. apply blank_scan. Qed.

Lemma tokens_classified_witness :
  tokenize "int input1 = input;" =
    Some (Tokens [("INT", "int"); ("ID", "input1"); ("OP", "="); ("INPUT", "input");
                  ("OP", ";"); ("EOF", EmptyString)]) /\
  exists body,
    [("INT", "int"); ("ID", "input1"); ("OP", "="); ("INPUT", "input");
     ("OP", ";"); ("EOF", EmptyString)] = (body ++ [("EOF", EmptyString)])%list /\
    Forall (fun t =>
              snd t <> EmptyString /\ fst t <> "EOF" /\
              (is_keyword (snd t) = true -> fst t = upper (snd t) /\ fst t <> "ID") /\
              (is_keyword (snd t) = false ->
               fst t = "NUMBER" \/ fst t = "STRING" \/ fst t = "ID" \/ fst t = "OP"))
           body.
Proof.
  split; [reflexivity|].
  apply (tokens_classified "int input1 = input;"). reflexivity.
Defined.

Lemma blank_text_tokens_witness :
  blank (" " ++ NL ++ "  ") = true /\
  tokenize (" " ++ NL ++ "  ") = Some (Tokens [("EOF", EmptyString)]).
Proof.
  split; [reflexivity|]. apply blank_text_tokens. reflexivity.
Defined.

End TokenFacts.

(** * More properties of the C code generator *)

Module GeneratorFacts.
Import Ast CodegenC Lowering Shapes CodegenFacts.

(** ** Indentation *)

Lemma str_repeat_comm (s : string) (n : nat) :
  s ++ str_repeat s n = str_repeat s n ++ s.
Proof.
  induction n as [|n IH]; simpl.
  - induction s as [|c s IHs]; simpl; congruence.
  - rewrite LexerFacts.append_assoc, <- IH. reflexivity.
Qed.

Lemma indent_deeper (lvl : Z) (line : string) :
  (0 <= lvl)%Z -> indent (lvl + 1) line = indent lvl ("    " ++ line).
Proof.
  intros H. unfold indent.
  replace (Z.to_nat (lvl + 1)) with (S (Z.to_nat lvl)) by lia.
  cbn [str_repeat]. rewrite str_repeat_comm, LexerFacts.append_assoc. reflexivity.
Qed.

(** A negative level indents like level 0 (a string times a negative
    number is empty), so going one level deeper never loses indentation. *)
Lemma indented_deeper (lvl : Z) (line : string) :
  indented (lvl + 1) line -> indented lvl line.
Proof.
  intros [body ->]. destruct (Z_lt_le_dec lvl 0) as [N|H].
  - exists body. unfold indent.
    replace (Z.to_nat (lvl + 1)) with (Z.to_nat lvl) by lia. reflexivity.
  - eexists. apply indent_deeper, H.
Qed.

Lemma block_indented (b : list stmt) :
  Forall (fun s => forall lvl, Forall (indented lvl) (stmt_lines lvl s)) b ->
  forall lvl, Forall (indented lvl) (flat_map (stmt_lines (lvl + 1)) b).
Proof.
  intros H lvl. induction H as [|s b Hs _ IH]; simpl; [constructor|].
  apply Forall_app. split; [|exact IH].
  apply (Forall_impl _ (fun line => indented_deeper lvl line) (Hs (lvl + 1)%Z)).
Qed.

Lemma stmt_lines_indented (s : stmt) :
  forall lvl, Forall (indented lvl) (stmt_lines lvl s).
Proof.
  induction s as [t names|e|c t e IHt IHe|c b IHb|i c p b IHb|e|]
    using stmt_nested_ind; intros lvl; cbn [stmt_lines].
  - apply Forall_forall. intros line Hin. apply in_map_iff in Hin as [d [<- _]].
    unfold decl_line. destruct (snd d); eexists; reflexivity.
  - constructor; [eexists; reflexivity|constructor].
  - apply Forall_app. split; [constructor; [eexists; reflexivity|constructor]|].
    apply Forall_app. split; [apply (block_indented t IHt lvl)|].
    apply Forall_app. split; [|constructor; [eexists; reflexivity|constructor]].
    destruct e as [b|]; [|constructor].
    apply Forall_app. split; [constructor; [eexists; reflexivity|constructor]|].
    apply (block_indented b IHe lvl).
  - apply Forall_app. split; [constructor; [eexists; reflexivity|constructor]|].
    apply Forall_app. split; [apply (block_indented b IHb lvl)|].
    constructor; [eexists; reflexivity|constructor].
  - apply Forall_app. split.
    { unfold hoisted_lines. destruct i as [[ty names| | | | | |]|]; try constructor.
      apply Forall_forall. intros line Hin. apply in_map_iff in Hin as [d [<- _]].
      eexists. reflexivity. }
    apply Forall_app. split; [constructor; [eexists; reflexivity|constructor]|].
    apply Forall_app. split; [apply (block_indented b IHb lvl)|].
    constructor; [eexists; reflexivity|constructor].
  - destruct e; constructor; try (eexists; reflexivity); constructor.
  - constructor.
Qed.

(** X9.  Whenever the lowering of a statement returns, whatever the
    statement and the state, it has left the lines already in the buffer
    as they are and the indentation level as it found it, and every line
    it has added starts with the indentation of that level. *)
Theorem statement_appends_indented_lines (s : stmt) (st st' : gen_state) :
  gen_stmt s st = Ok (tt, st') ->
  exists lines,
    st' = {| out_lines := out_lines st ++ lines;
             indent_level := indent_level st |} /\
    Forall (fun line =>
              exists body,
                line = str_repeat "    " (Z.to_nat (indent_level st)) ++ body) lines.
Proof.
  intros H. exists (stmt_lines (indent_level st) s).
  split; [apply (gen_stmt_returns s st st' H)|].
  apply (stmt_lines_indented s).
Qed.

(** A loop inside a function body, with a statement of no known class in
    it. *)
Lemma statement_appends_indented_lines_witness :
  let s := WhileStmt (VarRef "n")
             [IfStmt (VarRef "b") [ReturnStmt None; OtherStmt]
                (Some [ExprStmt (FuncCall "f" [])])] in
  let st := {| out_lines := ["void g(void) {"]; indent_level := 1 |} in
  let st' := {| out_lines := ["void g(void) {"; "    while (n) {"; "        if (b) {";
                              "            return;"; "        } else {";
                              "            f();"; "        }"; "    }"];
                indent_level := 1 |} in
  gen_stmt s st = Ok (tt, st') /\
  exists lines,
    st' = {| out_lines := out_lines st ++ lines;
             indent_level := indent_level st |} /\
    Forall (fun line =>
              exists body,
                line = str_repeat "    " (Z.to_nat (indent_level st)) ++ body) lines.
Proof.
  intros s st st'. split; [reflexivity|].
  apply (statement_appends_indented_lines s st st'). reflexivity.
Defined.

(** ** String literals *)

Lemma replace_char_app (c : ascii) (by_ a b : string) :
  replace_char c by_ (a ++ b) = replace_char c by_ a ++ replace_char c by_ b.
Proof.
  induction a as [|x a IH]; simpl; [reflexivity|].
  destruct (Ascii.eqb x c); rewrite IH; [|reflexivity].
  rewrite LexerFacts.append_assoc. reflexivity.
Qed.

Lemma escape_c_app (a b : string) : escape_c (a ++ b) = escape_c a ++ escape_c b.
Proof. unfold escape_c. rewrite !replace_char_app. reflexivity. Qed.

Lemma escape_c_cons (c : ascii) (s : string) :
  escape_c (String c s) = escape_c (String c EmptyString) ++ escape_c s.
Proof. apply (escape_c_app (String c EmptyString) s). Qed.

Lemma string_body_escaped_char (c : ascii) (x : string) :
  Lexer.string_body (escape_c (String c EmptyString) ++ x) =
    match Lexer.string_body x with
    | Some (a, b) => Some (escape_c (String c EmptyString) ++ a, b)
    | None => None
    end.
Proof.
  destruct c as [[] [] [] [] [] [] [] []]; cbn;
    destruct (Lexer.string_body x) as [[a b]|]; reflexivity.
Qed.

Lemma string_body_escaped (s rest : string) :
  Lexer.string_body (escape_c s ++ DQ ++ rest) = Some (escape_c s ++ DQ, rest).
Proof.
  induction s as [|c s IH]; [reflexivity|].
  rewrite escape_c_cons, LexerFacts.append_assoc, string_body_escaped_char, IH.
  rewrite <- LexerFacts.append_assoc. reflexivity.
Qed.

Lemma no_newline_app (a b : string) :
  no_newline (a ++ b) = no_newline a && no_newline b.
Proof. induction a as [|c a IH]; simpl; [reflexivity|]. rewrite IH, andb_assoc. reflexivity. Qed.

Lemma escape_c_no_newline (s : string) : no_newline (escape_c s) = true.
Proof.
  induction s as [|c s IH]; [reflexivity|].
  rewrite escape_c_cons, no_newline_app, IH, andb_true_r.
  destruct c as [[] [] [] [] [] [] [] []]; reflexivity.
Qed.

(** X10.  The text a string literal lowers to is, whatever follows it, one
    whole match of the tokenizer's own string rule: the quotes and
    backslashes of the value cannot end the literal early.  It holds no
    line feed (character 10), which is the only line break that is escaped:
    a carriage return stays as it is. *)
Theorem string_literal_well_formed (s : string) :
  exists lit,
    gen_expr (Literal (VStr s)) = Ok (PStr lit) /\
    no_newline lit = true /\
    forall rest, Lexer.master_match (lit ++ rest) = Some ("STRING", lit, rest).
Proof.
  exists (DQ ++ escape_c s ++ DQ). split; [reflexivity|]. split.
  - rewrite !no_newline_app, escape_c_no_newline. reflexivity.
  - intros rest.
    assert (E : Lexer.match_string (DQ ++ (escape_c s ++ DQ ++ rest)) =
                Some (DQ ++ escape_c s ++ DQ, rest)).
    { change (Lexer.match_string (DQ ++ (escape_c s ++ DQ ++ rest)))
        with (match Lexer.string_body (escape_c s ++ DQ ++ rest) with
              | Some (a, b) => Some (DQ ++ a, b)
              | None => None
              end).
      rewrite (string_body_escaped s rest). reflexivity. }
    replace ((DQ ++ escape_c s ++ DQ) ++ rest)
      with (DQ ++ (escape_c s ++ DQ ++ rest))
      by (rewrite !LexerFacts.append_assoc; reflexivity).
    unfold Lexer.master_match, Lexer.TOKEN_SPEC, Lexer.first_match.
    rewrite E. reflexivity.
Qed.

(** ** Return types *)

(** X11.  The C return type is [void] exactly for the source type [void],
    and every type lowers to one of the five C types; so the fallback
    [return 0;] is never put into a function that is [void] in C. *)
Theorem fallback_never_in_void_function (f : func_decl) :
  (map_type (return_type f) = "void" <-> return_type f = "void") /\
  In (map_type (return_type f)) ["int"; "double"; "char*"; "bool"; "void"] /\
  (needs_fallback f = true -> map_type (return_type f) <> "void").
Proof.
  assert (Hiff : map_type (return_type f) = "void" <-> return_type f = "void").
  { unfold map_type.
    destruct (String.eqb_spec (return_type f) "int") as [->|_];
      [split; discriminate|].
    destruct (String.eqb_spec (return_type f) "float") as [->|_];
      [split; discriminate|].
    destruct (String.eqb_spec (return_type f) "string") as [->|_];
      [split; discriminate|].
    destruct (String.eqb_spec (return_type f) "bool") as [->|_];
      [split; discriminate|].
    destruct (String.eqb_spec (return_type f) "void") as [->|N];
      [split; reflexivity|].
    split; [discriminate|intros E; contradiction]. }
  split; [exact Hiff|]. split.
  - unfold map_type.
    repeat match goal with
           | |- In (if ?c then _ else _) _ => destruct c
           end; simpl; auto 6.
  - unfold needs_fallback. intros H E. apply Hiff in E. rewrite E in H.
    discriminate H.
Qed.

Lemma fallback_never_in_void_function_witness :
  let f := FuncDecl "number" "f" [] [] in
  needs_fallback f = true /\ map_type (return_type f) = "int" /\
  map_type (return_type f) <> "void".
Proof.
  intros f. split; [reflexivity|]. split; [reflexivity|].
  apply (proj2 (proj2 (fallback_never_in_void_function f))). reflexivity.
Defined.

End GeneratorFacts.

(** * Properties of the front end of [compile_to_native] *)

Module PipelineFacts.
Import Ast Lexer Parser Statements Tokens NativeCompiler.

Section WithBuiltins.
Context {B : Builtins}.

(** X12.  From source text the generator only ever gets a program of known
    nodes: the pipeline ends with a lexical error exactly when the
    tokenizer does and with a syntax error exactly when the parser does,
    and what the parser returns cannot make the generator raise its
    [TypeError]; the C text returned is the module of the parsed
    functions. *)
Theorem source_reaches_no_unchecked_path (source_text : string) :
  (forall pos ch,
     compile_to_c source_text = LexicalError pos ch <->
     tokenize source_text = Some (Unexpected pos ch)) /\
  (forall e,
     compile_to_c source_text = ParseError e <->
     exists tokens,
       tokenize source_text = Some (Tokens tokens) /\ run_parse tokens = Raise e) /\
  (forall tokens program pos,
     tokenize source_text = Some (Tokens tokens) ->
     run_parse tokens = Done program pos ->
     known_program program = true /\
     CodegenC.compile_program program <> CodegenC.Raise CodegenC.TypeError /\
     forall c_code,
       compile_to_c source_text = CCode c_code ->
       c_code = String.concat NL (Lowering.module_lines program)).
Proof.
  unfold compile_to_c, lex.
  destruct (tokenize source_text) as [[tokens|pos0 ch0]|] eqn:T.
  - split; [|split].
    + intros pos ch. split; [|discriminate].
      destruct (run_parse tokens) as [program p|e|]; try discriminate.
      destruct (CodegenC.compile_program program); discriminate.
    + intros e. split.
      * destruct (run_parse tokens) as [program p|e'|] eqn:P; try discriminate.
        { destruct (CodegenC.compile_program program); discriminate. }
        intros E. injection E as ->. eauto.
      * intros [tokens' [E P]]. injection E as <-. rewrite P. reflexivity.
    + intros tokens' program pos E P. injection E as <-. rewrite P.
      assert (K : known_program program = true).
      { unfold run_parse, parse in P.
        apply (StatementFacts.parse_loop_parsed tokens _ []) in P; [|reflexivity].
        apply StatementFacts.parsed_program_known, P. }
      split; [exact K|]. split.
      * rewrite (CodegenFacts.generate_known program K). discriminate.
      * intros c_code H.
        destruct (CodegenC.compile_program program) as [text|] eqn:G; [|discriminate].
        injection H as <-. apply (CodegenFacts.generate_returns program text G).
  - split; [|split].
    + intros pos ch. split; intros E; injection E as -> ->; reflexivity.
    + intros e. split; [discriminate|]. intros [tokens [E _]]. discriminate E.
    + intros tokens program pos E. discriminate E.
  - destruct (LexerFacts.tokenize_total source_text T).
Qed.

(** X13.  A source text of white space only compiles to the module that
    holds the four include lines and two empty lines. *)
Theorem blank_source_compiles (source_text : string) :
  blank source_text = true ->
  compile_to_c source_text =
    CCode (String.concat NL
             ["#include <stdio.h>"; "#include <stdlib.h>"; "#include <string.h>";
              "#include <stdbool.h>"; EmptyString; EmptyString]).
Proof.
  intros H. unfold compile_to_c, lex.
  rewrite (TokenFacts.blank_scan source_text H). reflexivity.
Qed.

(** X14.  In a token list of the tokenizer the word [input] is always the
    keyword token of type [INPUT], with which no expression and no
    statement can start.  Every function name in a call of a parsed
    program is the text of an identifier token, which is never a keyword:
    no parsed program holds a call of [input], although the generator
    lowers such a call to [getchar()]. *)
Theorem input_never_parses (source_text : string) (tokens : list token) :
  tokenize source_text = Some (Tokens tokens) ->
  (forall pos t,
     nth_error tokens pos = Some t -> snd t = "input" ->
     t = ("INPUT", "input") /\
     (forall m, run_expr tokens m pos = Raise (UnexpectedToken t)) /\
     run_statement tokens pos = Raise (UnexpectedToken t)) /\
  (forall program pos,
     run_parse tokens = Done program pos ->
     (forall n, In n (called_program program) ->
        In ("ID", n) tokens /\ is_keyword n = false) /\
     ~ In "input" (called_program program)) /\
  (forall args, CodegenC.gen_expr (FuncCall "input" args) =
                CodegenC.Ok (CodegenC.PStr "getchar()")).
Proof.
  intros T.
  destruct (TokenFacts.tokenize_ok _ _ T) as [body [-> Hok]].
  rewrite Forall_forall in Hok.
  split; [|split; [|reflexivity]].
  - intros pos t Ht Hs.
    assert (E : t = ("INPUT", "input")).
    { pose proof (nth_error_In _ _ Ht) as Hin.
      apply in_app_or in Hin as [Hin|Hin].
      - specialize (Hok t Hin).
        destruct t as [k v]. cbn [snd] in Hs. subst v.
        unfold lexeme_ok in Hok. cbn in Hok. apply String.eqb_eq in Hok.
        rewrite Hok. reflexivity.
      - destruct Hin as [<-|[]]. discriminate Hs. }
    split; [exact E|]. subst t. split.
    + intros m. apply (StatementFacts.expr_answer_any _ 2); [|discriminate].
      apply (StatementFacts.expr_unexpected _ _ _ _ _ Ht). reflexivity.
    + apply (StatementFacts.statement_answer _ 3); [|discriminate].
      apply (StatementFacts.statement_unexpected _ _ _ _ Ht). reflexivity.
  - intros program pos P.
    assert (Hnames : forall n, In n (called_program program) ->
              In ("ID", n) (body ++ [("EOF", EmptyString)])%list /\
              is_keyword n = false).
    { intros n Hn. pose proof (StatementFacts.program_named _ _ _ P n Hn) as Hin.
      split; [exact Hin|].
      apply in_app_or in Hin as [Hin|[Hin|[]]]; [|discriminate Hin].
      destruct (TokenFacts.lexeme_ok_spec _ (Hok _ Hin)) as [_ [_ [Hkey _]]].
      destruct (is_keyword n) eqn:Hk; [|reflexivity].
      destruct (Hkey Hk) as [_ Hid]. destruct (Hid eq_refl). }
    split; [exact Hnames|].
    intros Hin. destruct (Hnames _ Hin) as [_ Hk]. discriminate Hk.
Qed.

End WithBuiltins.

(** A program that compiles, one with a character of no token and one
    with a missing operand. *)
Lemma source_reaches_no_unchecked_path_witness :
  let good := "func int main() { return 1 + 2; }" in
  let tokens := [("FUNC", "func"); ("INT", "int"); ("ID", "main"); ("OP", "(");
                 ("OP", ")"); ("OP", "{"); ("RETURN", "return"); ("NUMBER", "1");
                 ("OP", "+"); ("NUMBER", "2"); ("OP", ";"); ("OP", "}");
                 ("EOF", EmptyString)] in
  let program := Program [FuncDecl "int" "main" []
                            [ReturnStmt (Some (BinaryExpr (Literal (VInt 1)) "+"
                                                          (Literal (VInt 2))))]] in
  let text := String.concat NL
                ["#include <stdio.h>"; "#include <stdlib.h>"; "#include <string.h>";
                 "#include <stdbool.h>"; EmptyString;
                 "int main(void);"; EmptyString;
                 "int main(void) {"; "    return (1 + 2);"; "}"; EmptyString] in
  (compile_to_c good = CCode text /\
   known_program program = true /\
   text = String.concat NL (Lowering.module_lines program)) /\
  compile_to_c "func int main() { return 1 @ 2; }" = LexicalError 27 "@"%char /\
  compile_to_c "func int main() { return 1 + ; }" =
    ParseError (UnexpectedToken ("OP", ";")).
Proof.
  intros good tokens program text.
  assert (C : compile_to_c good = CCode text) by reflexivity.
  split; [|split].
  - assert (T : tokenize good = Some (Tokens tokens)) by reflexivity.
    assert (P : run_parse tokens = Done program 12) by reflexivity.
    destruct (proj2 (proj2 (source_reaches_no_unchecked_path good))
                tokens program 12%nat T P) as [K [_ H]].
    split; [exact C|]. split; [exact K|]. apply H, C.
  - apply (proj1 (source_reaches_no_unchecked_path _)). reflexivity.
  - apply (proj1 (proj2 (source_reaches_no_unchecked_path _))).
    eexists. split; reflexivity.
Defined.

Lemma blank_source_compiles_witness :
  compile_to_c ("  " ++ NL) =
    CCode (String.concat NL
             ["#include <stdio.h>"; "#include <stdlib.h>"; "#include <string.h>";
              "#include <stdbool.h>"; EmptyString; EmptyString]).
Proof. apply blank_source_compiles. reflexivity. Defined.

(** [x = input();] does not parse; in [x = input1(read());] the calls are
    of identifiers. *)
Lemma input_never_parses_witness :
  let tokens := [("ID", "x"); ("OP", "="); ("INPUT", "input"); ("OP", "(");
                 ("OP", ")"); ("OP", ";"); ("EOF", EmptyString)] in
  let source := "func void f() { x = input1(read()); }" in
  let tokens' := [("FUNC", "func"); ("VOID", "void"); ("ID", "f"); ("OP", "(");
                  ("OP", ")"); ("OP", "{"); ("ID", "x"); ("OP", "=");
                  ("ID", "input1"); ("OP", "("); ("ID", "read"); ("OP", "(");
                  ("OP", ")"); ("OP", ")"); ("OP", ";"); ("OP", "}");
                  ("EOF", EmptyString)] in
  let program := Program [FuncDecl "void" "f" []
                            [ExprStmt (AssignExpr "x"
                               (FuncCall "input1" [FuncCall "read" []]))]] in
  tokenize "x = input();" = Some (Tokens tokens) /\
  run_expr tokens 1 2 = Raise (UnexpectedToken ("INPUT", "input")) /\
  run_statement tokens 0 = Raise (UnexpectedToken ("INPUT", "input")) /\
  tokenize source = Some (Tokens tokens') /\
  run_parse tokens' = Done program 16 /\
  called_program program = ["input1"; "read"] /\
  ~ In "input" (called_program program).
Proof.
  intros tokens source tokens' program.
  assert (T : tokenize "x = input();" = Some (Tokens tokens)) by reflexivity.
  assert (T' : tokenize source = Some (Tokens tokens')) by reflexivity.
  split; [exact T|]. split; [|split; [reflexivity|]].
  - apply (proj1 (input_never_parses "x = input();" tokens T) 2%nat
             ("INPUT", "input") eq_refl eq_refl).
  - assert (P : run_parse tokens' = Done program 16) by reflexivity.
    split; [exact T'|]. split; [exact P|]. split; [reflexivity|].
    apply (proj2 (proj1 (proj2 (input_never_parses source tokens' T'))
                    program 16%nat P)).
Defined.

End PipelineFacts.
